(** * index.webhook.js: deployment watcher and market-cap monitor

    A shallow embedding of the stateful core of [src/index.webhook.js]
    (lines 1-563; lines 567-817 of the file repeat an earlier variant of the
    same program without the market-cap subsystem, whose block handler is the
    one modelled here minus the auto-enrolment).

    Modelling conventions.
    - In [step] and [run] every handler ([bot.start],
      [bot.on('callback_query')], [bot.on('message')], [provider.on('block')],
      the [setInterval] timer) runs to completion before the next one starts.
      The block handler, which the provider starts without waiting for the
      previous activation, is modelled a second time with its suspensions at
      each [await] and any interleaving of what is pending ([react],
      [interleave]).
    - [step] leaves out the menus and prompts a command draws; they read
      the state and change nothing beyond the [getPrefs] the model keeps.
      The command, button and message handlers are modelled a second time
      with every call they make on their [ctx] ([handle], over a [Ctx] of
      oracles), and shown to leave the state that [step] leaves.
    - What the outside world answers (chain reads, Telegram sends) is a
      [World] of oracles: [None] stands for a rejected promise / thrown
      exception, which the source catches where the model says so.
    - Side effects that leave the process are recorded in a trace of
      [Effect]s, in program order.
    - [Map] and [Set] keep insertion order, as in JavaScript: they are lists
      without duplicates; the two containers that are never iterated
      ([userPushPrefs], [sentKeys]) are a [gmap] and a [gset].
    - JavaScript numbers are IEEE 754 binary64 values ([spec_float] at
      precision 53); block heights and millisecond timestamps, which are
      integers far below 2^53, are [Z]; [bigint]s are [N].
    - [ethers.formatUnits] and [formatEther] are the library's: the exact
      decimal expansion of the value divided by a power of ten, and an
      exception when more than 80 decimals are asked for.
    - Strings are byte strings holding UTF-8. *)

From Stdlib Require Import ZArith NArith String Ascii List Bool Lia.
From Stdlib Require Import Floats.SpecFloat.
From stdpp Require Import base tactics option list gmap strings pretty.

Local Open Scope string_scope.
Local Open Scope list_scope.
Local Open Scope Z_scope.

(** ** JavaScript numbers *)

Module Num.

Definition number := spec_float.

Definition prec : Z := 53.
Definition emax : Z := 1024.

(** An integer as a number (exact below 2^53, rounded to nearest even
    above). *)
Definition of_Z (z : Z) : number := binary_normalize prec emax z 0 false.

Definition zero : number := S754_zero false.

(** [ToBoolean] on a number: [0], [-0] and [NaN] are falsy. *)
Definition truthy (x : number) : bool :=
  match x with
  | S754_zero _ | S754_nan => false
  | _ => true
  end.

(** [Number.isFinite]. *)
Definition isFinite (x : number) : bool :=
  match x with
  | S754_zero _ | S754_finite _ _ _ => true
  | _ => false
  end.

(** [a <= b] and [a >= b]; both are false when an operand is [NaN]. *)
Definition le (a b : number) : bool := SFleb a b.
Definition ge (a b : number) : bool := SFleb b a.

Definition mul (a b : number) : number := SFmul prec emax a b.
Definition div (a b : number) : number := SFdiv prec emax a b.

(** [Math.floor]. A finite binary64 value is [m * 2^e]; its floor is an
    integer of at most 53 bits, hence exactly representable. *)
Definition floor (x : number) : number :=
  match x with
  | S754_finite s m e =>
      if 0 <=? e then x
      else
        let k := - e in
        let q := Z.shiftr (Z.pos m) k in
        let exact := Z.land (Z.pos m) (Z.ones k) =? 0 in
        if s then of_Z (- (if exact then q else q + 1))
        else binary_normalize prec emax q 0 false
  | _ => x
  end.

(** [x > 0]. *)
Definition positive (x : number) : bool := SFltb zero x.

(** A [bigint] read as an exact binary value of unbounded precision. *)
Definition exact (v : N) : spec_float :=
  match v with
  | N0 => S754_zero false
  | Npos p => S754_finite false p 0
  end.

(** [v / 10^d] as a number: the quotient rounded once, to the nearest
    binary64 value (ties to even). *)
Definition scaled (v : N) (d : N) : number :=
  SFdiv prec emax (exact v) (exact (10 ^ d)%N).

(** [Number(ethers.formatUnits(v, d))]. [formatUnits] goes through a
    fixed-point format of [d] decimals, which ethers refuses for more than
    80 decimals: the call throws ([None]). Otherwise it prints the exact
    decimal expansion of [v / 10^d] and [Number] reads it back as the
    nearest binary64 value, so the composite is the correctly rounded
    quotient. *)
Definition of_units (v : N) (d : N) : option number :=
  if (80 <? d)%N then None else Some (scaled v d).

(** [Number(ethers.formatEther(v))]: 18 decimal places, which never
    throws. *)
Definition of_ether (v : N) : number := scaled v 18.

End Num.

Abbreviation number := Num.number.

(** ** Strings *)

Module Str.

Definition bytes (s : string) : list N :=
  map N_of_ascii (list_ascii_of_string s).

(** ASCII white space and line terminators removed by [trim]:
    TAB, LF, VT, FF, CR, SPACE. *)
Definition ascii_space (b : N) : bool :=
  ((9 <=? b) && (b <=? 13) || (b =? 32))%N.

(** The third byte of a white-space character encoded as [E2 80 xx]:
    U+2000..U+200A, U+2028, U+2029, U+202F. *)
Definition space_e2_80 (b : N) : bool :=
  ((128 <=? b) && (b <=? 138) || (b =? 168) || (b =? 169) || (b =? 175))%N.

(** The string consists of white space only, that is,
    [s.trim().length === 0]. Beyond ASCII, [trim] removes U+00A0, U+1680,
    U+2000..U+200A, U+2028, U+2029, U+202F, U+205F, U+3000 and U+FEFF,
    matched here in their UTF-8 encodings. *)
Fixpoint blank_bytes (l : list N) : bool :=
  match l with
  | [] => true
  | b :: r =>
      if ascii_space b then blank_bytes r
      else
        match r with
        | [] => false
        | c :: r1 =>
            if ((b =? 194) && (c =? 160))%N then blank_bytes r1
            else
              match r1 with
              | [] => false
              | d :: r2 =>
                  if ((b =? 225) && (c =? 154) && (d =? 128)
                      || (b =? 226) && (c =? 128) && space_e2_80 d
                      || (b =? 226) && (c =? 129) && (d =? 159)
                      || (b =? 227) && (c =? 128) && (d =? 128)
                      || (b =? 239) && (c =? 187) && (d =? 191))%N
                  then blank_bytes r2
                  else false
              end
        end
  end.

Definition blank (s : string) : bool := blank_bytes (bytes s).

Definition lower_ascii (c : ascii) : ascii :=
  let n := N_of_ascii c in
  if ((65 <=? n) && (n <=? 90))%N then ascii_of_N (n + 32) else c.

(** [toLowerCase] on the strings it is applied to in this program:
    addresses, which are ASCII. *)
Fixpoint toLowerCase (s : string) : string :=
  match s with
  | EmptyString => EmptyString
  | String c r => String (lower_ascii c) (toLowerCase r)
  end.

(** [lines.join(sep)]. *)
Fixpoint join (sep : string) (lines : list string) : string :=
  match lines with
  | [] => ""
  | [l] => l
  | l :: r => l +:+ sep +:+ join sep r
  end.

Definition LF : string := String (ascii_of_N 10) EmptyString.

End Str.

(** ** Insertion-ordered containers *)

(** A JavaScript [Set]: iteration follows insertion order and an element
    occurs once. *)
Module JsSet.
Section Ops.
Context {A : Type} `{EqDecision A}.

Definition has (x : A) (s : list A) : bool := bool_decide (x ∈ s).

Definition add (x : A) (s : list A) : list A :=
  if has x s then s else s ++ [x].

Definition delete (x : A) (s : list A) : list A :=
  filter (λ y, y ≠ x) s.

Definition size (s : list A) : nat := length s.
End Ops.
End JsSet.

(** A JavaScript [Map]: [set] on a present key overwrites in place, on an
    absent key appends. *)
Module JsMap.
Section Ops.
Context {K V : Type} `{EqDecision K}.

Fixpoint get (k : K) (m : list (K * V)) : option V :=
  match m with
  | [] => None
  | (k', v) :: r => if decide (k' = k) then Some v else get k r
  end.

Definition has (k : K) (m : list (K * V)) : bool :=
  match get k m with Some _ => true | None => false end.

Fixpoint set (k : K) (v : V) (m : list (K * V)) : list (K * V) :=
  match m with
  | [] => [(k, v)]
  | (k', v') :: r =>
      if decide (k' = k) then (k, v) :: r else (k', v') :: set k v r
  end.

Definition delete (k : K) (m : list (K * V)) : list (K * V) :=
  filter (λ kv, kv.1 ≠ k) m.

Definition keys (m : list (K * V)) : list K := m.*1.
End Ops.
End JsMap.

(** Sequencing of a loop body over the items of a collection, threading the
    state and concatenating the traces. *)
Section Loop.
Context {S A E : Type}.

Fixpoint for_each (body : A → S → S * list E) (l : list A) (st : S)
  : S * list E :=
  match l with
  | [] => (st, [])
  | x :: r =>
      let '(st1, t1) := body x st in
      let '(st2, t2) := for_each body r st1 in
      (st2, t1 ++ t2)
  end.
End Loop.

(** ** Program state *)

Definition UserId := Z.

Inductive Lang := en | zh.

(** [{ requireMediaLink: boolean, mcUsdThreshold: number|null, lang }] *)
Record Prefs := mkPrefs {
  requireMediaLink : bool;
  mcUsdThreshold : option number;
  lang : Lang
}.

(** [{ lastPushed: timestamp, users: Set<userId> }] *)
Record AlertData := mkAlertData {
  lastPushed : Z;
  users : list UserId
}.

Record State := mkState {
  subscribedUsers : list UserId;                 (* new Set() *)
  userPushPrefs : gmap UserId Prefs;             (* new Map() *)
  marketCapAlerts : list (string * AlertData);   (* new Map() *)
  lastMcCheck : Z;
  lastProcessed : Z;
  sentKeys : gset string                         (* new Set() *)
}.

Definition initial : State :=
  mkState [] ∅ [] 0 0 ∅.

Definition set_subscribedUsers (v : list UserId) (st : State) : State :=
  mkState v (userPushPrefs st) (marketCapAlerts st) (lastMcCheck st)
          (lastProcessed st) (sentKeys st).
Definition set_userPushPrefs (v : gmap UserId Prefs) (st : State) : State :=
  mkState (subscribedUsers st) v (marketCapAlerts st) (lastMcCheck st)
          (lastProcessed st) (sentKeys st).
Definition set_marketCapAlerts (v : list (string * AlertData)) (st : State)
  : State :=
  mkState (subscribedUsers st) (userPushPrefs st) v (lastMcCheck st)
          (lastProcessed st) (sentKeys st).
Definition set_lastMcCheck (v : Z) (st : State) : State :=
  mkState (subscribedUsers st) (userPushPrefs st) (marketCapAlerts st) v
          (lastProcessed st) (sentKeys st).
Definition set_lastProcessed (v : Z) (st : State) : State :=
  mkState (subscribedUsers st) (userPushPrefs st) (marketCapAlerts st)
          (lastMcCheck st) v (sentKeys st).
Definition set_sentKeys (v : gset string) (st : State) : State :=
  mkState (subscribedUsers st) (userPushPrefs st) (marketCapAlerts st)
          (lastMcCheck st) (lastProcessed st) v.

(** ** The outside world *)

(** A log returned by [provider.getLogs] as [PUMPU_IFACE.parseLog] reads it:
    either the two arguments of [Deployed(address indexed addr, uint256
    amount)], or a log on which parsing or argument access throws. *)
Inductive Log :=
| Deployed (addr : string) (amount : N)
| Malformed.

Record World := mkWorld {
  getLogs : Z → Z → option (list Log);
  description : string → option string;
  website : string → option string;
  telegram : string → option string;
  twitter : string → option string;
  symbol : string → option string;
  decimals : string → option N;
  totalSupply : string → option N;
  getReserves : string → option (N * N);
  token0 : string → option string;
  token1 : string → option string;
  (** [bot.telegram.sendMessage]: [false] when the call throws. *)
  sendMessage : UserId → string → bool
}.

Inductive Effect :=
| GetLogs (fromBlock toBlock : Z)
| KeyRecorded (key : string)
| Enrich (addr : string) (amount : N)
| Notify (uid : UserId) (addr : string) (amount : N) (text : string)
         (delivered : bool)
| McCheck (now : Z)
| Alert (uid : UserId) (tokenAddr : string) (marketCapUSD : number)
        (text : string) (delivered : bool)
| Reply (uid : UserId) (text : string).

(** ** Constants *)

Definition WOKB_ADDR : string := "0xe538905cf8410324e03a5a23c1c177a474d59b2b".
Definition MC_CHECK_INTERVAL : Z := 5 * 60 * 1000.

(** The text shown for a metadata field without a value. *)
Definition unset : string := "无".

(** ** Subscriber preferences *)

Definition defaultPrefs : Prefs := mkPrefs false None en.

Definition getPrefs (id : UserId) (st : State) : Prefs * State :=
  match userPushPrefs st !! id with
  | Some p => (p, st)
  | None =>
      (defaultPrefs,
       set_userPushPrefs (<[id := defaultPrefs]> (userPushPrefs st)) st)
  end.

(** Assignment to a field of the object [getPrefs(id)] returned. *)
Definition putPrefs (id : UserId) (p : Prefs) (st : State) : State :=
  set_userPushPrefs (<[id := p]> (userPushPrefs st)) st.

Definition setLang (id : UserId) (l : Lang) (st : State) : State :=
  let '(p, st1) := getPrefs id st in
  putPrefs id (mkPrefs (requireMediaLink p) (mcUsdThreshold p) l) st1.

(** [prefs.mcUsdThreshold] used as a condition. *)
Definition thresholdSet (p : Prefs) : bool :=
  match mcUsdThreshold p with
  | Some t => Num.truthy t
  | None => false
  end.

(** ** Alert registry *)

Definition addToMarketCapAlerts (tokenAddr : string) (userId : UserId)
    (now : Z) (st : State) : State :=
  let m := marketCapAlerts st in
  let m1 :=
    if JsMap.has tokenAddr m then m
    else JsMap.set tokenAddr (mkAlertData now []) m in
  match JsMap.get tokenAddr m1 with
  | Some d =>
      set_marketCapAlerts
        (JsMap.set tokenAddr
           (mkAlertData (lastPushed d) (JsSet.add userId (users d))) m1) st
  | None => set_marketCapAlerts m1 st
  end.

Definition removeFromMarketCapAlerts (tokenAddr : string) (userId : UserId)
    (st : State) : State :=
  let m := marketCapAlerts st in
  match JsMap.get tokenAddr m with
  | Some alertData =>
      let users' := JsSet.delete userId (users alertData) in
      let m1 :=
        JsMap.set tokenAddr (mkAlertData (lastPushed alertData) users') m in
      set_marketCapAlerts
        (if Nat.eqb (JsSet.size users') 0 then JsMap.delete tokenAddr m1
         else m1) st
  | None => st
  end.

(** The loop of the [clear_all_alerts] callback. The iteration visits the
    entries present when it starts: the body deletes none but the one being
    visited and adds none. *)
Definition clearAllAlerts_body (userId : UserId) (tokenAddr : string)
    (m : list (string * AlertData)) : list (string * AlertData) :=
  match JsMap.get tokenAddr m with
  | Some alertData =>
      let users' := JsSet.delete userId (users alertData) in
      let m1 :=
        JsMap.set tokenAddr (mkAlertData (lastPushed alertData) users') m in
      if Nat.eqb (JsSet.size users') 0 then JsMap.delete tokenAddr m1 else m1
  | None => m
  end.

Definition clearAllAlerts (userId : UserId) (st : State) : State :=
  set_marketCapAlerts
    (fold_left (λ m tokenAddr, clearAllAlerts_body userId tokenAddr m)
       (JsMap.keys (marketCapAlerts st)) (marketCapAlerts st)) st.

(** ** Handlers *)

(** The fields of one deployment notice after enrichment. *)
Record Meta := mkMeta {
  symbolText : string;
  decimalsText : string;
  desc : string;
  web : string;
  tg : string;
  tw : string
}.

(** [toText]: the value itself unless it is empty or white space only. *)
Definition toText (v : string) : string :=
  if negb (String.eqb v "") && negb (Str.blank v) then v else unset.

(** A metadata read with its [.catch(() => '')]. *)
Definition caught (r : option string) : string := default "" r.

(** The six reads of one event, settled together by [Promise.all]; each has
    its own [catch]. *)
Definition enrich (W : World) (addr : string) : Meta :=
  let descRaw := caught (description W addr) in
  let webRaw := caught (website W addr) in
  let tgRaw := caught (telegram W addr) in
  let twRaw := caught (twitter W addr) in
  let symbolRaw := caught (symbol W addr) in
  let decimalsRaw := decimals W addr in
  mkMeta (toText symbolRaw)
         (match decimalsRaw with Some d => pretty d | None => unset end)
         (toText descRaw) (toText webRaw) (toText tgRaw) (toText twRaw).

(** [[web, tg, tw].some((v) => v && v !== '无')] *)
Definition hasMedia (m : Meta) : bool :=
  existsb (λ v, negb (String.eqb v "") && negb (String.eqb v unset))
          [web m; tg m; tw m].

(** The dedup key [`${addr}:${amount.toString()}`]. *)
Definition dedupKey (addr : string) (amount : N) : string :=
  addr +:+ ":" +:+ pretty amount.

(** The callbacks of [bot.on('callback_query')] that change the state;
    every other button only draws a menu. *)
Inductive Callback :=
| lang_en
| lang_zh
| pf_media
| pf_mc_clear
| remove_alert (tokenAddr : string)
| clear_all_alerts
| menu_only.

(** One activation of a handler. *)
Inductive Request :=
| start (uid : UserId)
| menu (uid : UserId)
| lang_command (uid : UserId) (l : Lang)
| callback_query (uid : UserId) (data : Callback)
| reply_message (uid : UserId) (n : number) (now : Z)
| block (W : World) (bn : Z) (now : Z)
| mc_timer (W : World) (now : Z).

(** Number and amount formatting of the JavaScript runtime and of the
    ethers library, which the messages embed: [ethers.formatEther(v)],
    [x.toFixed(2)] and [`${x}`]. The program is modelled for any such
    formatting. *)
Record Formatting := mkFormatting {
  formatEther : N → string;
  toFixed2 : number → string;
  numberToString : number → string
}.

(** ** What the command handlers send *)

(** A button of an inline keyboard, [{ text, callback_data }]. *)
Record Button := mkButton {
  text : string;
  callback_data : string
}.

(** The [reply_markup] of a reply. *)
Inductive Markup :=
| no_markup
| inline_keyboard (rows : list (list Button))
| force_reply.

(** [ctx.reply(text, extra)]: the text, whether [parse_mode] is ['HTML'],
    and the markup. *)
Record Message := mkMessage {
  message_text : string;
  parse_mode_html : bool;
  reply_markup : Markup
}.

(** The calls a handler makes on its [ctx]. *)
Inductive Call :=
| AnswerCbQuery (text : option string)
| CtxReply (m : Message).

(** What those calls and the handler's two other reads answer:
    [answerCbQuery] is [false] and [reply] is [Some e] when the call
    throws, [e] being what [`${e.message || e}`] shows of the error;
    [getBlockNumber] is [None] when the read fails; [dateNow i] is what the
    [i]-th [Date.now()] of the handler returns. *)
Record Ctx := mkCtx {
  answerCbQuery : option string → bool;
  reply : Message → option string;
  getBlockNumber : option Z;
  dateNow : nat → Z
}.

(** A handler: the value it returns ([None] when it throws), the state it
    leaves and the calls it made, in order. *)
Definition Handler (A : Type) : Type := State → option A * State * list Call.

Global Instance Handler_ret : MRet Handler := λ A a st, (Some a, st, []).

(** Sequencing: what follows a call that throws is not run. *)
Global Instance Handler_bind : MBind Handler := λ A B k h st,
  match h st with
  | (Some a, st1, c1) =>
      let '(r, st2, c2) := k a st1 in (r, st2, c1 ++ c2)
  | (None, st1, c1) => (None, st1, c1)
  end.

(** The state the handler leaves and the calls it made. *)
Definition state_of {A} (r : option A * State * list Call) : State := r.1.2.
Definition calls_of {A} (r : option A * State * list Call) : list Call := r.2.
Definition completed {A} (r : option A * State * list Call) : bool :=
  match r.1.1 with Some _ => true | None => false end.

(** [getPrefs(id)], a synchronous change of the state, and reading it. *)
Definition prefsOf (id : UserId) : Handler Prefs :=
  λ st, let '(p, st1) := getPrefs id st in (Some p, st1, []).

Definition modify (f : State → State) : Handler unit :=
  λ st, (Some (), f st, []).

Definition current : Handler State := λ st, (Some st, st, []).

(** An exception that nothing in the handler catches. *)
Definition throw {A} : Handler A := λ st, (None, st, []).

(** [await ctx.answerCbQuery(text)] and [await ctx.reply(...)]. *)
Definition answer (C : Ctx) (text : option string) : Handler unit :=
  λ st, (if answerCbQuery C text then Some () else None, st,
         [AnswerCbQuery text]).

Definition send (C : Ctx) (m : Message) : Handler unit :=
  λ st, (match reply C m with None => Some () | Some _ => None end, st,
         [CtxReply m]).

(** A string as a condition: the empty string is falsy. *)
Definition nonEmpty (s : string) : bool := negb (String.eqb s "").

Definition PUMPU_FACTORY : string := "0xC4cEBDf3D4bBF14812DcCB1ccB20AB26EA547f44".

Definition securityHeader (l : Lang) : string :=
  match l with
  | zh => ("⚠️ 安全提醒：所有停止服务/提升返佣/切换机器人的广告都是诈骗！不要点击任何 Telegram 置顶广告❗️" +:+ Str.LF +:+ "推特：https://x.com/ooxxkk_bot?s=21")
  | en => ("⚠️ Security reminder: Ads about service stops / higher rebates / switching bots are scams! Do NOT click any pinned Telegram ads!❗️" +:+ Str.LF +:+ "Twitter: https://x.com/ooxxkk_bot?s=21")
  end.

(** [s.replace(pattern, replacement)] with a string pattern: the first
    occurrence is replaced. (The replacement used here is empty, so no [$]
    pattern is involved.) *)
Fixpoint replace (pattern replacement s : string) : string :=
  if String.prefix pattern s
  then replacement +:+ String.substring (String.length pattern)
                         (String.length s - String.length pattern) s
  else
    match s with
    | EmptyString => EmptyString
    | String c r => String c (replace pattern replacement r)
    end.

(** *** The argument of [/lang] *)

(** Number of bytes of the white-space character ([\s]) a string starts
    with, 0 when it starts with none. The characters are those of
    [Str.blank]. *)
Definition spaceBytes (s : string) : nat :=
  match s with
  | EmptyString => 0
  | String b r =>
      let b := N_of_ascii b in
      if Str.ascii_space b then 1
      else
        match r with
        | EmptyString => 0
        | String c r1 =>
            let c := N_of_ascii c in
            if ((b =? 194) && (c =? 160))%N then 2
            else
              match r1 with
              | EmptyString => 0
              | String d _ =>
                  let d := N_of_ascii d in
                  if ((b =? 225) && (c =? 154) && (d =? 128)
                      || (b =? 226) && (c =? 128) && Str.space_e2_80 d
                      || (b =? 226) && (c =? 129) && (d =? 159)
                      || (b =? 227) && (c =? 128) && (d =? 128)
                      || (b =? 239) && (c =? 187) && (d =? 191))%N
                  then 3 else 0
              end
        end
  end%nat.

(** [s.split(/\s+/)]: the fields between the maximal runs of white space;
    a string that starts (ends) with white space has an empty first (last)
    field. [skip] counts the bytes still to pass of the white-space
    character being read, [inRun] tells whether the previous character was
    white space, [field] is the field read so far. *)
Fixpoint splitFrom (skip : nat) (inRun : bool) (field : string) (s : string)
  : list string :=
  match s with
  | EmptyString => [field]
  | String c r =>
      match skip with
      | S k => splitFrom k inRun field r
      | O =>
          match spaceBytes s with
          | O => splitFrom O false (field +:+ String c EmptyString) r
          | S k =>
              if inRun then splitFrom k true field r
              else field :: splitFrom k true EmptyString r
          end
      end
  end.

Definition splitSpaces (s : string) : list string :=
  splitFrom O false EmptyString s.

(** [(text.split(/\s+/)[1] || '').toLowerCase()] and the language
    [arg === 'zh' ? 'zh' : 'en']. Lower-casing is done on ASCII letters: no
    other character lower-cases to [z] or [h], so the comparison with
    ['zh'] comes out the same. *)
Definition langArg (text : string) : string :=
  Str.toLowerCase (default "" (splitSpaces text !! 1%nat)).

Definition langOf (text : string) : Lang :=
  if String.eqb (langArg text) "zh" then zh else en.

Section Program.

Variable F : Formatting.

Definition deployedLines (l : Lang) (addr : string) (amount : N) (m : Meta)
  : list string :=
  match l with
  | zh =>
      [ "🚀 <b>新 PumpToken 上线</b>";
        "合约: <code>" +:+ addr +:+ "</code>";
        "名称: " +:+ symbolText m;
        "小数: " +:+ decimalsText m;
        "Dev 买入: <b>" +:+ formatEther F amount +:+ " OKB</b>";
        "简介: " +:+ desc m;
        "官网: " +:+ web m;
        "TG: " +:+ tg m;
        "Twitter: " +:+ tw m ]
  | en =>
      [ "🚀 <b>New PumpToken Deployed</b>";
        "Contract: <code>" +:+ addr +:+ "</code>";
        "Symbol: " +:+ symbolText m;
        "Decimals: " +:+ decimalsText m;
        "Dev Buy: <b>" +:+ formatEther F amount +:+ " OKB</b>";
        "Description: " +:+ desc m;
        "Website: " +:+ web m;
        "TG: " +:+ tg m;
        "Twitter: " +:+ tw m ]
  end.

Definition deployedText (l : Lang) (addr : string) (amount : N) (m : Meta)
  : string :=
  Str.join Str.LF (deployedLines l addr amount m).

(** Body of [for (const uid of subscribedUsers)]. A send that throws is
    caught by the loop body's own [try]; the enrolment after it is then
    skipped. *)
Definition notifyUser (W : World) (now : Z) (addr : string) (amount : N)
    (m : Meta) (uid : UserId) (st : State) : State * list Effect :=
  let '(prefs, st1) := getPrefs uid st in
  if requireMediaLink prefs && negb (hasMedia m) then (st1, [])
  else
    let text := deployedText (lang prefs) addr amount m in
    if sendMessage W uid text then
      (if thresholdSet prefs then addToMarketCapAlerts addr uid now st1
       else st1,
       [Notify uid addr amount text true])
    else (st1, [Notify uid addr amount text false]).

(** Body of [for (const log of logs)]. *)
Definition processLog (W : World) (now : Z) (log : Log) (st : State)
  : State * list Effect :=
  match log with
  | Malformed => (st, [])
  | Deployed addr amount =>
      let key := dedupKey addr amount in
      if bool_decide (key ∈ sentKeys st) then (st, [])
      else
        let st1 := set_sentKeys ({[key]} ∪ sentKeys st) st in
        let meta := enrich W addr in
        let '(st2, t) :=
          for_each (notifyUser W now addr amount meta)
                   (subscribedUsers st1) st1 in
        (st2, KeyRecorded key :: Enrich addr amount :: t)
  end.

(** [provider.on('block', async (bn) => ...)] *)
Definition onBlock (W : World) (bn : Z) (now : Z) (st : State)
  : State * list Effect :=
  let st0 :=
    if lastProcessed st =? 0 then set_lastProcessed (bn - 1) st else st in
  let from := lastProcessed st0 + 1 in
  let to := bn in
  if from >? to then (st0, [])
  else
    match getLogs W from to with
    | None => (st0, [GetLogs from to])
    | Some logs =>
        let '(st1, t) := for_each (processLog W now) logs st0 in
        (set_lastProcessed to st1, GetLogs from to :: t)
    end.

(** The price read of [checkMarketCapAlerts]: the outer [None] is the
    [catch] branch (a read threw), the inner one is [priceInWOKB] left
    [null]. *)
Definition priceInWOKB (W : World) (tokenAddr : string)
  : option (option number) :=
  match getReserves W tokenAddr with
  | None => None
  | Some (reserve0, reserve1) =>
      match token0 W tokenAddr with
      | None => None
      | Some t0 =>
          match token1 W tokenAddr with
          | None => None
          | Some t1 =>
              Some
                (if String.eqb (Str.toLowerCase t0)
                               (Str.toLowerCase WOKB_ADDR) then
                   if (0 <? reserve1)%N
                   then Some (Num.div (Num.of_ether reserve0)
                                      (Num.of_ether reserve1))
                   else None
                 else if String.eqb (Str.toLowerCase t1)
                                    (Str.toLowerCase WOKB_ADDR) then
                   if (0 <? reserve0)%N
                   then Some (Num.div (Num.of_ether reserve1)
                                      (Num.of_ether reserve0))
                   else None
                 else None)
          end
      end
  end.

(** [supplyFloat * priceInWOKB], with the fallbacks of the two reads:
    [None] when [formatUnits] throws. *)
Definition marketCapUSD (W : World) (tokenAddr : string) (price : number)
  : option number :=
  let totalSupply := default 0%N (totalSupply W tokenAddr) in
  let decimals := default 18%N (decimals W tokenAddr) in
  match Num.of_units totalSupply decimals with
  | None => None
  | Some supplyFloat => Some (Num.mul supplyFloat price)
  end.

(** What one token's check computes: [None] when the token is skipped
    for this cycle, by a [continue] or, where the conversion of the supply
    throws, by the [catch] that closes the token's [try]. *)
Definition tokenMarketCap (W : World) (tokenAddr : string)
  : option number :=
  match priceInWOKB W tokenAddr with
  | None => None
  | Some None => None
  | Some (Some price) =>
      if negb (Num.truthy price) then None
      else marketCapUSD W tokenAddr price
  end.

Definition alertText (l : Lang) (symbol tokenAddr : string) (mc : number)
    (threshold : number) : string :=
  match l with
  | zh =>
      Str.join Str.LF
        [ "🚨 <b>市值提醒</b>"; "";
          "代币: " +:+ symbol;
          "合约: <code>" +:+ tokenAddr +:+ "</code>";
          "当前市值: <b>$" +:+ toFixed2 F mc +:+ "</b>";
          "您的阈值: <b>$" +:+ numberToString F threshold +:+ "</b>"; "";
          "💡 代币市值已达到您设定的提醒阈值！" ]
  | en =>
      Str.join Str.LF
        [ "🚨 <b>Market Cap Alert</b>"; "";
          "Token: " +:+ symbol;
          "Contract: <code>" +:+ tokenAddr +:+ "</code>";
          "Current MC: <b>$" +:+ toFixed2 F mc +:+ "</b>";
          "Your threshold: <b>$" +:+ numberToString F threshold +:+ "</b>"; "";
          "💡 Token market cap has reached your alert threshold!" ]
  end.

(** Body of [for (const userId of alertData.users)]. *)
Definition alertUser (W : World) (tokenAddr : string) (mc : number)
    (userId : UserId) (st : State) : State * list Effect :=
  let '(prefs, st1) := getPrefs userId st in
  match mcUsdThreshold prefs with
  | Some threshold =>
      if Num.truthy threshold && Num.ge mc threshold then
        let symbol := default "Unknown" (symbol W tokenAddr) in
        let text := alertText (lang prefs) symbol tokenAddr mc threshold in
        (st1, [Alert userId tokenAddr mc text (sendMessage W userId text)])
      else (st1, [])
  | None => (st1, [])
  end.

(** Body of [for (const [tokenAddr, alertData] of marketCapAlerts)]. *)
Definition checkToken (W : World) (entry : string * AlertData) (st : State)
  : State * list Effect :=
  let '(tokenAddr, alertData) := entry in
  match tokenMarketCap W tokenAddr with
  | None => (st, [])
  | Some mc => for_each (alertUser W tokenAddr mc) (users alertData) st
  end.

(** [async function checkMarketCapAlerts()], with [now = Date.now()]. *)
Definition checkMarketCapAlerts (W : World) (now : Z) (st : State)
  : State * list Effect :=
  if now - lastMcCheck st <? MC_CHECK_INTERVAL then (st, [])
  else
    let st1 := set_lastMcCheck now st in
    let '(st2, t) := for_each (checkToken W) (marketCapAlerts st1) st1 in
    (st2, McCheck now :: t).

(** Body of the loop that follows a threshold assignment; each enrolment
    it makes is counted ([addedCount++]). *)
Definition enrolExisting (userId : UserId) (now : Z)
    (entry : string * AlertData) (st : State) : State * list unit :=
  let '(tokenAddr, _) := entry in
  match JsMap.get tokenAddr (marketCapAlerts st) with
  | Some alertData =>
      if negb (JsSet.has userId (users alertData))
      then (addToMarketCapAlerts tokenAddr userId now st, [()])
      else (st, [])
  | None => (st, [])
  end.

(** [bot.on('message')] for a message that replies to another one, with
    [n = Number((ctx.message.text || '').trim())]. *)
Definition onReply (uid : UserId) (n : number) (now : Z) (st : State)
  : State * list Effect :=
  let '(prefs, st1) := getPrefs uid st in
  if negb (Num.isFinite n) || Num.le n Num.zero then
    (st1, [Reply uid (match lang prefs with
                      | zh => "请输入正整数"
                      | en => "Please enter a positive integer"
                      end)])
  else
    let threshold := Num.floor n in
    let st2 :=
      putPrefs uid (mkPrefs (requireMediaLink prefs) (Some threshold)
                            (lang prefs)) st1 in
    let '(st3, added) :=
      for_each (enrolExisting uid now) (marketCapAlerts st2) st2 in
    let addedCount := length added in
    let message :=
      match lang prefs with
      | zh => "已设置市值阈值: $"
      | en => "MC threshold set: $"
      end +:+ numberToString F threshold in
    let message :=
      if (0 <? addedCount)%nat then
        match lang prefs with
        | zh =>
            message +:+ Str.LF +:+ "已自动订阅 " +:+ pretty addedCount
                    +:+ " 个已推送代币的市值提醒"
        | en =>
            message +:+ Str.LF +:+ "Automatically subscribed to "
                    +:+ pretty addedCount +:+ " pushed tokens for MC alerts"
        end
      else message in
    (st3, [Reply uid message]).

Definition onCallback (uid : UserId) (data : Callback) (st : State)
  : State :=
  let '(prefs, st1) := getPrefs uid st in
  match data with
  | lang_en => setLang uid en st1
  | lang_zh => setLang uid zh st1
  | pf_media =>
      putPrefs uid (mkPrefs (negb (requireMediaLink prefs))
                            (mcUsdThreshold prefs) (lang prefs)) st1
  | pf_mc_clear =>
      putPrefs uid (mkPrefs (requireMediaLink prefs) None (lang prefs)) st1
  | remove_alert tokenAddr => removeFromMarketCapAlerts tokenAddr uid st1
  | clear_all_alerts => clearAllAlerts uid st1
  | menu_only => st1
  end.

Definition step (r : Request) (st : State) : State * list Effect :=
  match r with
  | start uid =>
      ((getPrefs uid
          (set_subscribedUsers (JsSet.add uid (subscribedUsers st)) st)).2,
       [])
  | menu uid => ((getPrefs uid st).2, [])
  | lang_command uid l => (setLang uid l st, [])
  | callback_query uid data => (onCallback uid data st, [])
  | reply_message uid n now => onReply uid n now st
  | block W bn now => onBlock W bn now st
  | mc_timer W now => checkMarketCapAlerts W now st
  end.

Definition run (rs : list Request) (st : State) : State * list Effect :=
  for_each step rs st.

(** ** Block handlers that interleave *)

(** [provider.on('block')] does not wait for the handler it starts: while
    one activation is suspended at an [await], signals, commands and other
    activations run. An activation is suspended in one of three places, and
    what it awaits has been answered by the world when the call was made:
    the result of [getLogs]; the six metadata reads of an event; a
    [sendMessage]. [next] is the position in [subscribedUsers] at which the
    iteration continues, [rest] the logs still to process and [to] the
    height the cursor is set to at the end. *)
Inductive Task :=
| awaitLogs (logs : option (list Log)) (to : Z)
| awaitMeta (addr : string) (amount : N) (meta : Meta) (rest : list Log)
            (to : Z)
| awaitSend (uid : UserId) (addr : string) (amount : N) (meta : Meta)
            (delivered : bool) (next : nat) (rest : list Log) (to : Z).

(** From a block signal to the [getLogs] call. *)
Definition signalBlock (W : World) (bn : Z) (st : State)
  : State * list Effect * option Task :=
  let st0 :=
    if lastProcessed st =? 0 then set_lastProcessed (bn - 1) st else st in
  let from := lastProcessed st0 + 1 in
  if from >? bn then (st0, [], None)
  else (st0, [GetLogs from bn], Some (awaitLogs (getLogs W from bn) bn)).

(** The loop over the logs, up to the metadata reads of the next event
    that passes the dedup check, or to the end of the handler. *)
Fixpoint nextLog (W : World) (logs : list Log) (to : Z) (st : State)
  : State * list Effect * option Task :=
  match logs with
  | [] => (set_lastProcessed to st, [], None)
  | Malformed :: rest => nextLog W rest to st
  | Deployed addr amount :: rest =>
      let key := dedupKey addr amount in
      if bool_decide (key ∈ sentKeys st) then nextLog W rest to st
      else
        (set_sentKeys ({[key]} ∪ sentKeys st) st,
         [KeyRecorded key; Enrich addr amount],
         Some (awaitMeta addr amount (enrich W addr) rest to))
  end.

(** The loop over the subscribers from position [i], up to the next
    [sendMessage] call: the subscriber sent to, the outcome of the send and
    the position after it. *)
Fixpoint nextUser (W : World) (addr : string) (amount : N) (meta : Meta)
    (i : nat) (us : list UserId) (st : State)
  : State * list Effect * option (UserId * bool * nat) :=
  match us with
  | [] => (st, [], None)
  | uid :: r =>
      let '(prefs, st1) := getPrefs uid st in
      if requireMediaLink prefs && negb (hasMedia meta)
      then nextUser W addr amount meta (S i) r st1
      else
        let text := deployedText (lang prefs) addr amount meta in
        (st1, [Notify uid addr amount text (sendMessage W uid text)],
         Some (uid, sendMessage W uid text, S i))
  end.

Definition fanout (W : World) (addr : string) (amount : N) (meta : Meta)
    (i : nat) (rest : list Log) (to : Z) (st : State)
  : State * list Effect * option Task :=
  match nextUser W addr amount meta i (drop i (subscribedUsers st)) st with
  | (st1, t, Some (uid, delivered, next)) =>
      (st1, t, Some (awaitSend uid addr amount meta delivered next rest to))
  | (st1, t, None) =>
      let '(st2, t2, k) := nextLog W rest to st1 in (st2, t ++ t2, k)
  end.

(** An awaited call settles and the activation runs to its next [await].
    After a send, [prefs] is still the subscriber's entry of
    [userPushPrefs], read as it is by then. *)
Definition resumeTask (W : World) (now : Z) (task : Task) (st : State)
  : State * list Effect * option Task :=
  match task with
  | awaitLogs None _ => (st, [], None)
  | awaitLogs (Some logs) to => nextLog W logs to st
  | awaitMeta addr amount meta rest to =>
      fanout W addr amount meta 0 rest to st
  | awaitSend uid addr amount meta delivered next rest to =>
      let st1 :=
        if delivered then
          let '(prefs, st') := getPrefs uid st in
          if thresholdSet prefs then addToMarketCapAlerts addr uid now st'
          else st'
        else st in
      fanout W addr amount meta next rest to st1
  end.

(** The store and the suspended activations of the block handler. *)
Record System := mkSystem {
  store : State;
  pending : list Task
}.

Definition option_task (k : option Task) : list Task :=
  match k with Some task => [task] | None => [] end.

(** What can happen next: a handler is started ([block] starts an
    activation, every other handler is run whole), or the [i]-th pending
    call settles. *)
Inductive Occurrence :=
| request (r : Request)
| settle (i : nat) (W : World) (now : Z).

Definition react (o : Occurrence) (sys : System) : System * list Effect :=
  match o with
  | request (block W bn _) =>
      let '(st, t, k) := signalBlock W bn (store sys) in
      (mkSystem st (pending sys ++ option_task k), t)
  | request r =>
      let '(st, t) := step r (store sys) in (mkSystem st (pending sys), t)
  | settle i W now =>
      match pending sys !! i with
      | Some task =>
          let '(st, t, k) := resumeTask W now task (store sys) in
          (mkSystem st (delete i (pending sys) ++ option_task k), t)
      | None => (sys, [])
      end
  end.

Definition interleave (os : list Occurrence) (sys : System)
  : System * list Effect :=
  for_each react os sys.

(** The trace of each of a sequence of invocations of the market-cap
    check. *)
Fixpoint cycles (cs : list (World * Z)) (st : State) : list (list Effect) :=
  match cs with
  | [] => []
  | c :: r =>
      let '(st', t) := checkMarketCapAlerts c.1 c.2 st in
      t :: cycles r st'
  end.

(** The six metadata reads of an event, the outcome of each read as text
    ([None] when the read failed) and the text a notice shows for it. *)
Inductive Field :=
| f_symbol | f_decimals | f_description | f_website | f_telegram | f_twitter.

Global Instance Field_eq_dec : EqDecision Field.
Proof. solve_decision. Defined.

Definition fetched (W : World) (addr : string) (f : Field) : option string :=
  match f with
  | f_symbol => symbol W addr
  | f_decimals => pretty <$> decimals W addr
  | f_description => description W addr
  | f_website => website W addr
  | f_telegram => telegram W addr
  | f_twitter => twitter W addr
  end.

Definition shown (m : Meta) (f : Field) : string :=
  match f with
  | f_symbol => symbolText m
  | f_decimals => decimalsText m
  | f_description => desc m
  | f_website => web m
  | f_telegram => tg m
  | f_twitter => tw m
  end.

(** What precedes a field's text on its line of the notice. *)
Definition label (l : Lang) (f : Field) : string :=
  match l, f with
  | zh, f_symbol => "名称: "
  | zh, f_decimals => "小数: "
  | zh, f_description => "简介: "
  | zh, f_website => "官网: "
  | en, f_symbol => "Symbol: "
  | en, f_decimals => "Decimals: "
  | en, f_description => "Description: "
  | en, f_website => "Website: "
  | _, f_telegram => "TG: "
  | _, f_twitter => "Twitter: "
  end.

(** ** Commands, buttons and their screens *)

(** The bot's user name, read once at start-up ([getMe]); empty when that
    read failed. *)
Variable BOT_USERNAME : string.

Definition menuText (l : Lang) (id : UserId) : string :=
  let title := match l with zh => "请选择功能：" | en => "Please choose an action:" end in
  let invite :=
    if nonEmpty BOT_USERNAME
    then "https://t.me/" +:+ BOT_USERNAME +:+ "?start=" +:+ pretty (id : Z)
    else "" in
  let inviteLine :=
    match l with
    | zh => "邀请链接（仅本用户专属）：" +:+ invite
    | en => "Invite link (for you): " +:+ invite
    end in
  Str.join Str.LF
    (List.filter nonEmpty
       [securityHeader l; if nonEmpty invite then inviteLine else invite;
        ""; title]).

Definition menuKeyboard (l : Lang) : list (list Button) :=
  [ [mkButton (match l with zh => "🔍 分析" | en => "🔍 Analyze" end) "m_analyze"];
    [mkButton (match l with zh => "🌐 切换语言" | en => "🌐 Language" end) "m_lang"];
    [mkButton (match l with zh => "🛠️ 推送过滤设置" | en => "🛠️ Push Filter Settings" end) "m_filters"];
    [mkButton (match l with zh => "🔔 监听状态" | en => "🔔 Watch Status" end) "m_status"] ].

(** [showMenu(ctx)] *)
Definition showMenu (C : Ctx) (id : UserId) : Handler unit :=
  prefs ← prefsOf id;
  send C (mkMessage (menuText (lang prefs) id) false
            (inline_keyboard (menuKeyboard (lang prefs)))).

(** The loop [for (const [tokenAddr, alertData] of marketCapAlerts)] that
    counts the tokens the user watches. *)
Definition alertCount (id : UserId) (m : list (string * AlertData)) : nat :=
  fold_left (λ count entry,
               if JsSet.has id (users entry.2) then S count else count)
            m O.

(** [prefs.mcUsdThreshold ? `$${prefs.mcUsdThreshold}` : ...] *)
Definition thresholdText (l : Lang) (prefs : Prefs) : string :=
  match mcUsdThreshold prefs with
  | Some t =>
      if Num.truthy t then "$" +:+ numberToString F t
      else match l with zh => "未设置" | en => "Not set" end
  | None => match l with zh => "未设置" | en => "Not set" end
  end.

Definition filtersText (l : Lang) (prefs : Prefs) (count : nat) : string :=
  let alertText :=
    match l with
    | zh => "市值提醒: " +:+ pretty count +:+ " 个代币"
    | en => "MC alerts: " +:+ pretty count +:+ " tokens"
    end in
  let mediaText :=
    match l with
    | zh => if requireMediaLink prefs then "已开启" else "已关闭"
    | en => if requireMediaLink prefs then "On" else "Off"
    end in
  let mcText := thresholdText l prefs in
  let title := match l with zh => "当前过滤：" | en => "Current filters:" end in
  let body :=
    match l with
    | zh => "媒体链接要求: " +:+ mediaText +:+ (Str.LF +:+ "市值阈值: ") +:+ mcText +:+ Str.LF
            +:+ alertText
    | en => "Require media link: " +:+ mediaText +:+ (Str.LF +:+ "MC threshold: ") +:+ mcText +:+ Str.LF
            +:+ alertText
    end in
  title +:+ Str.LF +:+ body.

Definition filtersKeyboard (l : Lang) (prefs : Prefs) : list (list Button) :=
  [ [mkButton (if requireMediaLink prefs
               then match l with zh => "关闭媒体链接要求" | en => "Disable media link requirement" end
               else match l with zh => "开启媒体链接要求" | en => "Enable media link requirement" end)
              "pf_media"];
    [mkButton (match l with zh => "设置市值阈值" | en => "Set MC threshold" end) "pf_mc_set";
     mkButton (match l with zh => "清除市值阈值" | en => "Clear MC threshold" end) "pf_mc_clear"];
    [mkButton (match l with zh => "📊 管理市值提醒" | en => "📊 Manage MC Alerts" end) "pf_manage_alerts"];
    [mkButton (match l with zh => "⬅️ 返回" | en => "⬅️ Back" end) "m_back"] ].

(** [showPushFilters(ctx)] *)
Definition showPushFilters (C : Ctx) (id : UserId) : Handler unit :=
  prefs ← prefsOf id;
  st ← current;
  let count := alertCount id (marketCapAlerts st) in
  send C (mkMessage (filtersText (lang prefs) prefs count) false
            (inline_keyboard (filtersKeyboard (lang prefs) prefs))).

(** The loop that collects [{ addr, lastPushed }] of the tokens the user
    watches. *)
Definition userAlerts (id : UserId) (m : list (string * AlertData))
  : list (string * Z) :=
  fold_left (λ found entry,
               if JsSet.has id (users entry.2)
               then found ++ [(entry.1, lastPushed entry.2)] else found)
            m [].

(** [Math.floor((Date.now() - alert.lastPushed) / 1000 / 60)] *)
Definition timeAgo (now lastPushed : Z) : number :=
  Num.floor (Num.div (Num.div (Num.of_Z (now - lastPushed)) (Num.of_Z 1000))
                     (Num.of_Z 60)).

(** One line of the list; [addr.slice(0, 8)] is taken on the bytes, the
    addresses being ASCII. *)
Definition alertLine (C : Ctx) (l : Lang) (i : nat) (alert : string * Z)
  : string :=
  let timeText :=
    match l with
    | zh => numberToString F (timeAgo (dateNow C i) alert.2) +:+ " 分钟前"
    | en => numberToString F (timeAgo (dateNow C i) alert.2) +:+ " min ago"
    end in
  pretty (S i) +:+ ". <code>" +:+ String.substring 0 8 alert.1 +:+ "...</code> ("
    +:+ timeText +:+ (")" +:+ Str.LF).

(** The lines [text += ...] of the alerts from index [i] on. *)
Fixpoint alertLines (C : Ctx) (l : Lang) (i : nat) (alerts : list (string * Z))
  : string :=
  match alerts with
  | [] => ""
  | alert :: rest => alertLine C l i alert +:+ alertLines C l (S i) rest
  end.

(** The buttons [{ text: `${i + 1}`, callback_data: `remove_alert_${addr}` }]
    from index [i] on. *)
Fixpoint removeButtons (i : nat) (alerts : list (string * Z)) : list Button :=
  match alerts with
  | [] => []
  | alert :: rest =>
      mkButton (pretty (S i)) ("remove_alert_" +:+ alert.1)
        :: removeButtons (S i) rest
  end.

Definition alertsMessage (C : Ctx) (l : Lang) (found : list (string * Z))
  : Message :=
  if Nat.eqb (length found) 0 then
    mkMessage (match l with
      | zh => ("📊 市值提醒管理" +:+ Str.LF +:+ Str.LF +:+ "您还没有订阅任何代币的市值提醒。" +:+ Str.LF +:+ Str.LF +:+ "💡 设置市值阈值后，新推送的代币会自动添加到提醒列表。")
      | en => ("📊 Market Cap Alerts Management" +:+ Str.LF +:+ Str.LF +:+ "You haven't subscribed to any token alerts yet." +:+ Str.LF +:+ Str.LF +:+ "💡 After setting a market cap threshold, newly pushed tokens will be automatically added to the alert list.")
      end) false
      (inline_keyboard
         [[mkButton (match l with zh => "⬅️ 返回" | en => "⬅️ Back" end)
                    "pf_back"]])
  else
    let text :=
      match l with
      | zh => ("📊 市值提醒管理" +:+ Str.LF +:+ Str.LF +:+ "您当前订阅了 ") +:+ pretty (length found) +:+ (" 个代币的市值提醒：" +:+ Str.LF +:+ Str.LF)
      | en => ("📊 Market Cap Alerts Management" +:+ Str.LF +:+ Str.LF +:+ "You are currently subscribed to ") +:+ pretty (length found) +:+ (" token alerts:" +:+ Str.LF +:+ Str.LF)
      end in
    let displayAlerts := take 10 found in
    let text := text +:+ alertLines C l 0 displayAlerts in
    let text :=
      if (10 <? length found)%nat then
        match l with
        | zh => text +:+ (Str.LF +:+ "... 还有 ") +:+ pretty (length found - 10)%nat
                     +:+ " 个代币"
        | en => text +:+ (Str.LF +:+ "... and ") +:+ pretty (length found - 10)%nat
                     +:+ " more tokens"
        end
      else text in
    let text := text +:+ match l with
      | zh => (Str.LF +:+ Str.LF +:+ "💡 系统会每5分钟检查一次市值，达到阈值时自动推送提醒。")
      | en => (Str.LF +:+ Str.LF +:+ "💡 The system checks market cap every 5 minutes and automatically sends alerts when thresholds are reached.")
      end in
    let remove := removeButtons 0 (take (Nat.min 5 (length found)) found) in
    let buttons :=
      (if (0 <? length remove)%nat then [remove] else [])
      ++ [[mkButton (match l with zh => "🗑️ 清空所有提醒" | en => "🗑️ Clear All Alerts" end)
                    "clear_all_alerts";
           mkButton (match l with zh => "⬅️ 返回" | en => "⬅️ Back" end)
                    "pf_back"]] in
    mkMessage text true (inline_keyboard buttons).

(** [showMarketCapAlerts(ctx)] *)
Definition showMarketCapAlerts (C : Ctx) (id : UserId) : Handler unit :=
  prefs ← prefsOf id;
  st ← current;
  send C (alertsMessage C (lang prefs) (userAlerts id (marketCapAlerts st))).

Definition statusText (l : Lang) (prefs : Prefs) (count : nat) : string :=
  match l with
  | zh => ("📊 市值提醒状态" +:+ Str.LF +:+ Str.LF +:+ "阈值: ") +:+ thresholdText l prefs +:+ (Str.LF +:+ "订阅代币数: ")
          +:+ pretty count +:+ (Str.LF +:+ "检查间隔: 5分钟" +:+ Str.LF +:+ Str.LF +:+ "💡 系统会自动监控代币市值，达到阈值时推送提醒。")
  | en => ("📊 Market Cap Alert Status" +:+ Str.LF +:+ Str.LF +:+ "Threshold: ") +:+ thresholdText l prefs +:+ (Str.LF +:+ "Subscribed tokens: ")
          +:+ pretty count +:+ (Str.LF +:+ "Check interval: 5 minutes" +:+ Str.LF +:+ Str.LF +:+ "💡 The system automatically monitors token market caps and sends alerts when thresholds are reached.")
  end.

(** [try { await ctx.reply(m) } catch (e) { await ctx.reply(report(e)) }] *)
Definition sendOrReport (C : Ctx) (m : Message) (report : string → Message)
  : Handler unit :=
  λ st,
    match reply C m with
    | None => (Some (), st, [CtxReply m])
    | Some e =>
        (match reply C (report e) with None => Some () | Some _ => None end,
         st, [CtxReply m; CtxReply (report e)])
    end.

(** [bot.command('mc_status')] *)
Definition onMcStatus (C : Ctx) (id : UserId) : Handler unit :=
  prefs ← prefsOf id;
  st ← current;
  sendOrReport C
    (mkMessage (statusText (lang prefs) prefs
                  (alertCount id (marketCapAlerts st))) false no_markup)
    (λ e, mkMessage ("❌ 获取状态失败: " +:+ e) false no_markup).

(** [bot.start] and the commands [/menu] and [/lang]. *)
Definition onStart (C : Ctx) (id : UserId) : Handler unit :=
  modify (λ st, set_subscribedUsers (JsSet.add id (subscribedUsers st)) st);;
  showMenu C id.

Definition onMenu (C : Ctx) (id : UserId) : Handler unit := showMenu C id.

Definition onLang (C : Ctx) (id : UserId) (text : string) : Handler unit :=
  modify (setLang id (langOf text));;
  showMenu C id.

(** [data === s], for the [data] of a callback query, which may be
    missing. *)
Definition dataIs (data : option string) (s : string) : bool :=
  match data with Some d => String.eqb d s | None => false end.

Definition languageMessage (l : Lang) : Message :=
  mkMessage (match l with
    | zh => "请选择语言："
    | en => "Choose language:"
    end) false
    (inline_keyboard
       [ [mkButton "English" "lang_en"; mkButton "中文" "lang_zh"];
         [mkButton (match l with zh => "⬅️ 返回" | en => "⬅️ Back" end)
                   "m_back"] ]).

Definition statusMessage (C : Ctx) (st : State) : Message :=
  let latest := default 0 (getBlockNumber C) in
  mkMessage (("Watcher on" +:+ Str.LF +:+ "Factory: ") +:+ PUMPU_FACTORY +:+ (Str.LF +:+ "Latest block: ") +:+ pretty latest
             +:+ (Str.LF +:+ "Subscribers: ") +:+ pretty (JsSet.size (subscribedUsers st)))
            false no_markup.

(** [bot.on('callback_query')]. Without [data] no comparison holds and
    [data.startsWith] throws. *)
Definition onCallbackQuery (C : Ctx) (id : UserId) (data : option string)
  : Handler unit :=
  prefs ← prefsOf id;
  if dataIs data "m_lang" then
    answer C None;; send C (languageMessage (lang prefs))
  else if dataIs data "lang_en" || dataIs data "lang_zh" then
    modify (setLang id (if dataIs data "lang_en" then en else zh));;
    answer C (Some "OK");; showMenu C id
  else if dataIs data "m_filters" then
    answer C None;; showPushFilters C id
  else if dataIs data "pf_media" then
    modify (putPrefs id (mkPrefs (negb (requireMediaLink prefs))
                                 (mcUsdThreshold prefs) (lang prefs)));;
    answer C (Some "OK");; showPushFilters C id
  else if dataIs data "pf_mc_set" then
    answer C None;;
    send C (mkMessage (match lang prefs with zh => "请输入市值阈值（USD，整数）" | en => "Enter MC threshold in USD (integer):" end)
              false force_reply)
  else if dataIs data "pf_mc_clear" then
    modify (putPrefs id (mkPrefs (requireMediaLink prefs) None (lang prefs)));;
    answer C (Some "OK");; showPushFilters C id
  else if dataIs data "pf_manage_alerts" then
    answer C None;; showMarketCapAlerts C id
  else if dataIs data "pf_back" then
    answer C None;; showPushFilters C id
  else if dataIs data "m_back" then
    answer C None;; showMenu C id
  else
    match data with
    | None => throw
    | Some d =>
        if String.prefix "remove_alert_" d then
          modify (removeFromMarketCapAlerts (replace "remove_alert_" "" d) id);;
          answer C (Some "已移除提醒");; showMarketCapAlerts C id
        else if String.eqb d "clear_all_alerts" then
          modify (clearAllAlerts id);;
          answer C (Some "已清空所有提醒");; showMarketCapAlerts C id
        else if String.eqb d "m_status" then
          answer C None;;
          st ← current;
          send C (statusMessage C st)
        else if String.eqb d "m_analyze" then
          answer C None;;
          send C (mkMessage
                    (match lang prefs with zh => "请输入要分析的 Token 合约地址：" | en => "Enter token contract address to analyze:" end)
                    false force_reply)
        else answer C None
    end.

(** The threshold handler [onReply] as a step of [bot.on('message')]: it
    changes the state and hands over what it replies. *)
Definition threshold (id : UserId) (n : number) (now : Z)
  : Handler (list Effect) :=
  λ st, let '(st1, t) := onReply id n now st in (Some t, st1, []).

(** The replies of [onReply], sent through [ctx]. *)
Fixpoint sendReplies (C : Ctx) (t : list Effect) : Handler unit :=
  match t with
  | [] => mret ()
  | Reply _ text :: rest =>
      send C (mkMessage text false no_markup);; sendReplies C rest
  | _ :: rest => sendReplies C rest
  end.

(** [bot.on('message')]: a message that replies to none is passed on;
    otherwise the threshold handler runs, its answer is sent and, when the
    threshold was accepted, the filter screen follows. *)
Definition onMessage (C : Ctx) (id : UserId) (isReply : bool) (n : number)
    (now : Z) : Handler unit :=
  if isReply then
    t ← threshold id n now;
    sendReplies C t;;
    if negb (Num.isFinite n) || Num.le n Num.zero then mret ()
    else showPushFilters C id
  else mret ().

(** One update from Telegram. *)
Inductive Update :=
| start_command (id : UserId)
| menu_command (id : UserId)
| lang_text (id : UserId) (text : string)
| mc_status_command (id : UserId)
| button (id : UserId) (data : option string)
| message (id : UserId) (isReply : bool) (n : number) (now : Z).

Definition handle (C : Ctx) (u : Update) : Handler unit :=
  match u with
  | start_command id => onStart C id
  | menu_command id => onMenu C id
  | lang_text id text => onLang C id text
  | mc_status_command id => onMcStatus C id
  | button id data => onCallbackQuery C id data
  | message id isReply n now => onMessage C id isReply n now
  end.

(** ** Specification vocabulary *)

(** The subscriber set of a token: the [users] of its entry, empty when the
    registry has no entry for it. *)
Definition watchers (tokenAddr : string) (m : list (string * AlertData))
  : list UserId :=
  match JsMap.get tokenAddr m with
  | Some d => users d
  | None => []
  end.

(** An entry exists exactly for the tokens somebody watches. *)
Definition alert_invariant (m : list (string * AlertData)) : Prop :=
  ∀ tokenAddr, JsMap.has tokenAddr m = true ↔ watchers tokenAddr m ≠ [].

(** The event a trace item is about, for the items of one event's
    enrichment and fan-out. *)
Definition concerns (e : Effect) : option (string * N) :=
  match e with
  | Enrich addr amount => Some (addr, amount)
  | Notify _ addr amount _ _ => Some (addr, amount)
  | _ => None
  end.

Definition is_notice (uid : UserId) (addr : string) (amount : N) (e : Effect)
  : bool :=
  match e with
  | Notify u a m _ _ =>
      bool_decide (u = uid) && bool_decide (a = addr) && bool_decide (m = amount)
  | _ => false
  end.

(** Number of delivery attempts of the event [(addr, amount)] to [uid]. *)
Definition deliveries (uid : UserId) (addr : string) (amount : N)
    (t : list Effect) : nat :=
  length (List.filter (is_notice uid addr amount) t).

Definition is_enrich (addr : string) (amount : N) (e : Effect) : bool :=
  match e with
  | Enrich a m => bool_decide (a = addr) && bool_decide (m = amount)
  | _ => false
  end.

(** Number of times the event [(addr, amount)] passed the dedup check and
    went on to its metadata reads and fan-out. *)
Definition enrichments (addr : string) (amount : N) (t : list Effect) : nat :=
  length (List.filter (is_enrich addr amount) t).

Definition is_McCheck (e : Effect) : bool :=
  match e with McCheck _ => true | _ => false end.

(** Number of real market-cap checks in a trace. *)
Definition realChecks (t : list Effect) : nat :=
  length (List.filter is_McCheck t).

(** Every item about an event comes after the recording of its key. *)
Definition key_first (t : list Effect) : Prop :=
  ∀ i e addr amount,
    t !! i = Some e → concerns e = Some (addr, amount) →
    ∃ j, (j < i)%nat ∧ t !! j = Some (KeyRecorded (dedupKey addr amount)).

(** The cursor a block cycle works with: [lastProcessed], or the height
    minus one when [lastProcessed] is still 0. *)
Definition cursor (bn : Z) (st : State) : Z :=
  if lastProcessed st =? 0 then bn - 1 else lastProcessed st.

(** Successive invocations of the market-cap check, each at least the
    interval after the one before: all of them are real checks. *)
Fixpoint spaced (last : Z) (cs : list (World * Z)) : Prop :=
  match cs with
  | [] => True
  | c :: r => MC_CHECK_INTERVAL ≤ c.2 - last ∧ spaced c.2 r
  end.

(** The part of the state that only [bot.start], the block handler and the
    timer write. *)
Definition frame (st st' : State) : Prop :=
  subscribedUsers st' = subscribedUsers st ∧
  lastMcCheck st' = lastMcCheck st ∧
  lastProcessed st' = lastProcessed st ∧
  sentKeys st' = sentKeys st.

(** Preferences, once created, are changed by their owner's commands only. *)
Definition prefs_kept (st st' : State) : Prop :=
  ∀ u p, userPushPrefs st !! u = Some p → userPushPrefs st' !! u = Some p.

(** The invariant behind at-most-once delivery: whatever the trace holds
    about an event, the key of that event is in [sentKeys]. *)
Definition dedup_inv (st : State) (t : list Effect) : Prop :=
  NoDup (subscribedUsers st) ∧
  (∀ uid addr amount, (deliveries uid addr amount t ≤ 1)%nat) ∧
  (∀ e addr amount, e ∈ t → concerns e = Some (addr, amount) →
                    dedupKey addr amount ∈ sentKeys st) ∧
  key_first t ∧
  (∀ addr amount, (enrichments addr amount t ≤ 1)%nat).

(** An entry after the subscriber has been added to its watchers. *)
Definition enrolled (userId : UserId) (d : AlertData) : AlertData :=
  mkAlertData (lastPushed d) (JsSet.add userId (users d)).

(** The event a suspended activation is fanning out, and how far its
    iteration over the subscribers has come. *)
Definition owner (task : Task) : option (string * N) :=
  match task with
  | awaitLogs _ _ => None
  | awaitMeta addr amount _ _ _ => Some (addr, amount)
  | awaitSend _ addr amount _ _ _ _ _ => Some (addr, amount)
  end.

Definition position (task : Task) : nat :=
  match task with
  | awaitSend _ _ _ _ _ next _ _ => next
  | _ => 0%nat
  end.

(** The invariant of interleaved runs: an event is fanned out by at most one
    activation, after its key was recorded, and so far it went to
    subscribers before the activation's position only, once each. *)
Definition async_inv_on (us : list UserId) (keys : gset string)
    (pool : list Task) (t : list Effect) : Prop :=
  NoDup us ∧
  (∀ e a m, e ∈ t → concerns e = Some (a, m) → dedupKey a m ∈ keys) ∧
  NoDup (omap owner pool) ∧
  (∀ task a m, task ∈ pool → owner task = Some (a, m) →
     dedupKey a m ∈ keys ∧ KeyRecorded (dedupKey a m) ∈ t
     ∧ (position task ≤ length us)%nat ∧
     ∀ uid, deliveries uid a m t ≠ 0%nat → uid ∈ take (position task) us) ∧
  (∀ uid a m, (deliveries uid a m t ≤ 1)%nat) ∧
  key_first t ∧
  (∀ a m, (enrichments a m t ≤ 1)%nat).

Definition async_inv (sys : System) (t : list Effect) : Prop :=
  async_inv_on (subscribedUsers (store sys)) (sentKeys (store sys))
               (pending sys) t.

(** Strings without a colon, such as the decimal form of an amount. *)
Definition colon : ascii := ":"%char.

Fixpoint colon_free (s : string) : Prop :=
  match s with
  | EmptyString => True
  | String c r => c ≠ colon ∧ colon_free r
  end.

(** The user a request comes from; the block signal and the timer come
    from no user. *)
Definition actor (r : Request) : option UserId :=
  match r with
  | start uid | menu uid | lang_command uid _ | callback_query uid _
  | reply_message uid _ _ => Some uid
  | block _ _ _ | mc_timer _ _ => None
  end.

(** A log that [parseLog] reads. *)
Definition wellFormed (log : Log) : bool :=
  match log with Deployed _ _ => true | Malformed => false end.

(** The pool of a token seen from the other side: the two slots and their
    reserves exchanged. *)
Definition mirrored (W : World) : World :=
  mkWorld (getLogs W) (description W) (website W) (telegram W) (twitter W)
          (symbol W) (decimals W) (totalSupply W)
          (λ a, (λ r, (r.2, r.1)) <$> getReserves W a)
          (token1 W) (token0 W) (sendMessage W).

Definition isReference (addr : string) : bool :=
  String.eqb (Str.toLowerCase addr) (Str.toLowerCase WOKB_ADDR).

(** The height a request signals, for a block signal. *)
Definition signalled (r : Request) : option Z :=
  match r with block _ bn _ => Some bn | _ => None end.

(** Entries are kept, with their time, by everything the block handler and
    the threshold reply do. *)
Definition entries_kept (st st' : State) : Prop :=
  ∀ k d, JsMap.get k (marketCapAlerts st) = Some d →
    ∃ d', JsMap.get k (marketCapAlerts st') = Some d'
          ∧ lastPushed d' = lastPushed d.

(** What a single check may put in its trace: the mark of the check, and
    alerts to watchers of a token whose market cap was computed and is at
    or above the threshold the watcher has set. *)
Definition due (W : World) (st : State) (e : Effect) : Prop :=
  match e with
  | McCheck _ => True
  | Alert u k mc text ok =>
      (∃ d, (k, d) ∈ marketCapAlerts st ∧ u ∈ users d)
      ∧ tokenMarketCap W k = Some mc
      ∧ (∃ prefs threshold,
           userPushPrefs st !! u = Some prefs
           ∧ mcUsdThreshold prefs = Some threshold
           ∧ Num.truthy threshold = true ∧ Num.ge mc threshold = true
           ∧ text = alertText (lang prefs) (default "Unknown" (symbol W k))
                              k mc threshold
           ∧ ok = sendMessage W u text)
  | _ => False
  end.

(** Preferences in a later state of a loop that only reads them: those of
    the start, and default entries created meanwhile. *)
Definition prefs_from (st s : State) : Prop :=
  prefs_kept st s
  ∧ ∀ u p, userPushPrefs s !! u = Some p →
           userPushPrefs st !! u = Some p
           ∨ (userPushPrefs st !! u = None ∧ p = defaultPrefs).

(** Whether the fan-out of an event enrols the subscriber: the notice
    passes the subscriber's filter, the send succeeds and a threshold is
    set. *)
Definition enrols (W : World) (addr : string) (amount : N) (st : State)
    (u : UserId) : bool :=
  match userPushPrefs st !! u with
  | Some p =>
      negb (requireMediaLink p && negb (hasMedia (enrich W addr)))
      && sendMessage W u (deployedText (lang p) addr amount (enrich W addr))
      && thresholdSet p
  | None => false
  end.

(** Number of tokens of the registry the user does not watch. *)
Definition unwatched (u : UserId) (m : list (string * AlertData)) : nat :=
  length (List.filter (λ e, negb (JsSet.has u (users e.2))) m).

(** The registry as a [Map] (no key twice) whose watchers all have
    preferences. *)
Definition registry_wf (st : State) : Prop :=
  NoDup (JsMap.keys (marketCapAlerts st))
  ∧ ∀ k u, u ∈ watchers k (marketCapAlerts st) →
           is_Some (userPushPrefs st !! u).

(** A notice about the token has been delivered to somebody. *)
Definition delivered_token (t : list Effect) (k : string) : Prop :=
  ∃ uid amount text, Notify uid k amount text true ∈ t.

(** Every token of the registry has been the subject of a delivered
    notice. *)
Definition registry_delivered (st : State) (t : list Effect) : Prop :=
  ∀ k, JsMap.has k (marketCapAlerts st) = true → delivered_token t k.

(** The buttons a message offers and the messages among the calls of a
    handler. *)
Definition buttons (m : Message) : list Button :=
  match reply_markup m with
  | inline_keyboard rows => concat rows
  | _ => []
  end.

Definition sent (calls : list Call) : list Message :=
  omap (λ c, match c with CtxReply m => Some m | _ => None end) calls.

(** The branch of the callback handler that changes the state, by the
    [data] of the query. *)
Definition decodeCallback (data : option string) : Callback :=
  if dataIs data "lang_en" then lang_en
  else if dataIs data "lang_zh" then lang_zh
  else if dataIs data "pf_media" then pf_media
  else if dataIs data "pf_mc_clear" then pf_mc_clear
  else
    match data with
    | Some d =>
        if String.prefix "remove_alert_" d
        then remove_alert (replace "remove_alert_" "" d)
        else if String.eqb d "clear_all_alerts" then clear_all_alerts
        else menu_only
    | None => menu_only
    end.

(** The request that stands for an update where the replies are left out;
    a message that replies to none reaches no handler of the program. *)
Definition core (u : Update) : option Request :=
  match u with
  | start_command id => Some (start id)
  | menu_command id | mc_status_command id => Some (menu id)
  | lang_text id text => Some (lang_command id (langOf text))
  | button id data => Some (callback_query id (decodeCallback data))
  | message id true n now => Some (reply_message id n now)
  | message id false _ _ => None
  end.

(** A word of visible ASCII characters, such as a command or its
    argument. *)
Definition visible (c : ascii) : bool :=
  ((33 <=? N_of_ascii c) && (N_of_ascii c <=? 126))%N.

Fixpoint word (s : string) : bool :=
  match s with
  | EmptyString => true
  | String c r => visible c && word r
  end.

(** The [data] for which the callback handler replies with a screen, a
    prompt or the status; for any other it only answers the query. *)
Definition recognised (d : string) : bool :=
  existsb (String.eqb d)
    ["m_lang"; "lang_en"; "lang_zh"; "m_filters"; "pf_media"; "pf_mc_set";
     "pf_mc_clear"; "pf_manage_alerts"; "pf_back"; "m_back";
     "clear_all_alerts"; "m_status"; "m_analyze"]
  || String.prefix "remove_alert_" d.

(** Every button of every message among the calls is recognised. *)
Definition wired (calls : list Call) : Prop :=
  Forall (λ m, Forall (λ b, recognised (callback_data b) = true) (buttons m))
         (sent calls).

(** The tokens the user watches, in the order of the registry. *)
Definition watched (id : UserId) (m : list (string * AlertData))
  : list (string * AlertData) :=
  List.filter (λ entry, JsSet.has id (users entry.2)) m.

(** A number that is not below zero. *)
Definition notBelowZero (x : number) : bool :=
  match x with
  | S754_finite s _ _ | S754_infinity s => negb s
  | _ => true
  end.

(** Every stored threshold is not below zero. *)
Definition thresholds_ok (st : State) : Prop :=
  ∀ u p t, userPushPrefs st !! u = Some p → mcUsdThreshold p = Some t →
           notBelowZero t = true.

(** ** Sample data for the worked examples *)

Definition alice : UserId := 1001.
Definition bob : UserId := 1002.
Definition TOKEN : string := "0x5FbDB2315678afecb367f032d93F642f64180aa3".

(** A formatting to run the examples with. *)
Definition plain : Formatting :=
  mkFormatting
    (λ v, pretty v +:+ " wei")
    (λ x, match x with
          | S754_finite _ m e => pretty (Z.pos m) +:+ "p" +:+ pretty e
          | S754_zero _ => "0.00"
          | S754_infinity _ => "Infinity"
          | S754_nan => "NaN"
          end)
    (λ x, match x with
          | S754_finite _ m e => pretty (Z.pos m) +:+ "p" +:+ pretty e
          | S754_zero _ => "0"
          | S754_infinity _ => "Infinity"
          | S754_nan => "NaN"
          end).

(** Every read fails and every send throws. *)
Definition offline : World :=
  mkWorld (λ _ _, None) (λ _, None) (λ _, None) (λ _, None) (λ _, None)
          (λ _, None) (λ _, None) (λ _, None) (λ _, None) (λ _, None)
          (λ _, None) (λ _ _, false).

(** The chain is reachable and holds no deployment. *)
Definition quiet : World :=
  mkWorld (λ _ _, Some []) (λ _, None) (λ _, None) (λ _, None) (λ _, None)
          (λ _, None) (λ _, None) (λ _, None) (λ _, None) (λ _, None)
          (λ _, None) (λ _ _, true).

(** Whatever range is asked for, the log source answers with the same
    deployment, twice; the token has a website, its telegram read fails and
    its twitter handle is the empty string. *)
Definition feed : World :=
  mkWorld (λ _ _, Some [Deployed TOKEN 5; Deployed TOKEN 5])
          (λ _, Some "A pump token") (λ _, Some "https://pump.example")
          (λ _, None) (λ _, Some "")
          (λ _, Some "PUMP") (λ _, Some 18%N) (λ _, None) (λ _, None)
          (λ _, None) (λ _, None) (λ _ _, true).

(** The pool of the worked example: the reference asset, spelled in upper
    case, in slot 0 with reserve 1000, the token in slot 1 with reserve 500,
    supply 10000 and no decimals. *)
Definition market : World :=
  mkWorld (λ _ _, Some []) (λ _, None) (λ _, None) (λ _, None) (λ _, None)
          (λ _, Some "PUMP") (λ _, Some 0%N) (λ _, Some 10000%N)
          (λ _, Some (1000%N, 500%N))
          (λ _, Some "0xE538905CF8410324E03A5A23C1C177A474D59B2B")
          (λ _, Some TOKEN) (λ _ _, true).

(** The same pool for a token that reports the given supply and number of
    decimals. *)
Definition marketOf (supply dec : N) : World :=
  mkWorld (getLogs market) (description market) (website market)
          (telegram market) (twitter market) (symbol market)
          (λ _, Some dec) (λ _, Some supply) (getReserves market)
          (token0 market) (token1 market) (sendMessage market).

(** Alice requires nothing, holds a threshold of 15000 and watches the
    token. *)
Definition watching : State :=
  mkState [alice] {[alice := mkPrefs false (Some (Num.of_Z 15000)) en]}
          [(TOKEN, mkAlertData 0 [alice])] 0 0 ∅.

(** Telegram accepts every call, the chain stands at block 100 and the
    clock at ten minutes. *)
Definition chat : Ctx :=
  mkCtx (λ _, true) (λ _, None) (Some 100) (λ _, 600000).

(** Alice has subscribed and holds a threshold of 15000; nothing is
    watched yet. *)
Definition armed : State :=
  mkState [alice] {[alice := mkPrefs false (Some (Num.of_Z 15000)) en]}
          [] 0 0 ∅.

(** * Properties *)

(** ** Containers *)

Section SetFacts.
Context {A : Type} `{EqDecision A}.

Lemma JsSet_has_true (x : A) s : JsSet.has x s = true ↔ x ∈ s.
Proof. unfold JsSet.has. apply bool_decide_eq_true. Qed.

Lemma JsSet_elem_of_add (x y : A) s : y ∈ JsSet.add x s ↔ y = x ∨ y ∈ s.
Proof.
  unfold JsSet.add. destruct (JsSet.has x s) eqn:Hx.
  - apply JsSet_has_true in Hx. split; [auto|]. intros [->|]; auto.
  - rewrite elem_of_app, list_elem_of_singleton. tauto.
Qed.

Lemma JsSet_add_nonempty (x : A) s : JsSet.add x s ≠ [].
Proof.
  intros H. assert (Hx : x ∈ JsSet.add x s) by (apply JsSet_elem_of_add; auto).
  rewrite H in Hx. by apply not_elem_of_nil in Hx.
Qed.

Lemma JsSet_NoDup_add (x : A) s : NoDup s → NoDup (JsSet.add x s).
Proof.
  intros Hs. unfold JsSet.add. destruct (JsSet.has x s) eqn:Hx; [done|].
  apply NoDup_app. split_and!; [done| |apply NoDup_singleton].
  intros y Hy ->%list_elem_of_singleton.
  apply JsSet_has_true in Hy. congruence.
Qed.

Lemma JsSet_elem_of_delete (x y : A) s : y ∈ JsSet.delete x s ↔ y ≠ x ∧ y ∈ s.
Proof. unfold JsSet.delete. by rewrite list_elem_of_filter. Qed.

Lemma JsSet_size_0 (s : list A) : Nat.eqb (JsSet.size s) 0 = true ↔ s = [].
Proof.
  unfold JsSet.size. rewrite Nat.eqb_eq. split.
  - apply nil_length_inv.
  - by intros ->.
Qed.
End SetFacts.

Section MapFacts.
Context {K V : Type} `{EqDecision K}.
Implicit Types (k : K) (v : V) (m : list (K * V)).

Lemma JsMap_get_set_eq k v m : JsMap.get k (JsMap.set k v m) = Some v.
Proof.
  induction m as [|[k' v'] m IH]; simpl.
  - by rewrite decide_True.
  - destruct (decide (k' = k)) as [->|Hne]; simpl.
    + by rewrite decide_True.
    + by rewrite decide_False.
Qed.

Lemma JsMap_get_set_ne k k' v m :
  k ≠ k' → JsMap.get k' (JsMap.set k v m) = JsMap.get k' m.
Proof.
  intros Hne. induction m as [|[k0 v0] m IH]; simpl.
  - by rewrite decide_False.
  - destruct (decide (k0 = k)) as [->|Hk]; simpl.
    + by rewrite !decide_False.
    + by rewrite IH.
Qed.

Lemma JsMap_get_delete_eq k m : JsMap.get k (JsMap.delete k m) = None.
Proof.
  unfold JsMap.delete.
  induction m as [|[k0 v0] m IH]; [done|].
  rewrite filter_cons. simpl. destruct (decide (k0 ≠ k)) as [Hk|Hk]; simpl.
  - by rewrite decide_False.
  - done.
Qed.

Lemma JsMap_get_delete_ne k k' m :
  k ≠ k' → JsMap.get k' (JsMap.delete k m) = JsMap.get k' m.
Proof.
  intros Hne. unfold JsMap.delete.
  induction m as [|[k0 v0] m IH]; [done|].
  rewrite filter_cons. simpl. destruct (decide (k0 ≠ k)) as [Hk|Hk]; simpl.
  - by rewrite IH.
  - apply dec_stable in Hk. subst k0. by rewrite decide_False.
Qed.

Lemma JsMap_get_Some_elem k v m : JsMap.get k m = Some v → (k, v) ∈ m.
Proof.
  induction m as [|[k0 v0] m IH]; simpl; [done|].
  destruct (decide (k0 = k)) as [->|Hk].
  - intros [= ->]. apply list_elem_of_here.
  - intros Hg. apply list_elem_of_further. auto.
Qed.

Lemma JsMap_elem_has k v m : (k, v) ∈ m → JsMap.has k m = true.
Proof.
  unfold JsMap.has. induction m as [|[k0 v0] m IH]; simpl.
  - by intros ?%not_elem_of_nil.
  - intros [[= -> ->]|Hin]%elem_of_cons.
    + by rewrite decide_True.
    + destruct (decide (k0 = k)); [done|auto].
Qed.

Lemma JsMap_keys_set_present k v m :
  JsMap.has k m = true → JsMap.keys (JsMap.set k v m) = JsMap.keys m.
Proof.
  unfold JsMap.has, JsMap.keys. induction m as [|[k0 v0] m IH]; simpl; [done|].
  destruct (decide (k0 = k)) as [->|Hk]; simpl; [done|].
  intros Hg. f_equal. by apply IH.
Qed.
End MapFacts.

(** ** Loops *)

Section LoopFacts.
Context {S A E : Type}.
Implicit Types (body : A → S → S * list E) (l : list A) (st : S).

Lemma for_each_cons body x l st :
  for_each body (x :: l) st =
    ((for_each body l (body x st).1).1,
     (body x st).2 ++ (for_each body l (body x st).1).2).
Proof.
  simpl. destruct (body x st) as [st1 t1]. simpl.
  by destruct (for_each body l st1).
Qed.

Lemma for_each_app body l1 l2 st :
  for_each body (l1 ++ l2) st =
    ((for_each body l2 (for_each body l1 st).1).1,
     (for_each body l1 st).2 ++ (for_each body l2 (for_each body l1 st).1).2).
Proof.
  revert st. induction l1 as [|x l1 IH]; intros st.
  - simpl. by destruct (for_each body l2 st).
  - rewrite <- app_comm_cons, !for_each_cons, IH. simpl. by rewrite app_assoc.
Qed.

(** A property of the state that every iteration keeps holds after the
    loop. *)
Lemma for_each_state (P : S → Prop) body l st :
  (∀ x s, x ∈ l → P s → P (body x s).1) → P st → P (for_each body l st).1.
Proof.
  revert st. induction l as [|x l IH]; intros st Hb Hst; [done|].
  rewrite for_each_cons. simpl. apply IH.
  - intros y s Hy. apply Hb. by apply list_elem_of_further.
  - apply Hb; [apply list_elem_of_here|done].
Qed.

(** A property of every item the iterations emit holds of the whole
    trace. *)
Lemma for_each_trace (P : S → Prop) (Q : E → Prop) body l st :
  (∀ x s, x ∈ l → P s → P (body x s).1) →
  (∀ x s, x ∈ l → P s → Forall Q (body x s).2) →
  P st → Forall Q (for_each body l st).2.
Proof.
  revert st. induction l as [|x l IH]; intros st Hb Hq Hst; [constructor|].
  rewrite for_each_cons. simpl. apply Forall_app. split.
  - apply Hq; [apply list_elem_of_here|done].
  - apply IH.
    + intros y s Hy. apply Hb. by apply list_elem_of_further.
    + intros y s Hy. apply Hq. by apply list_elem_of_further.
    + apply Hb; [apply list_elem_of_here|done].
Qed.

(** An item that the iteration for [x] emits in every state satisfying an
    invariant of the loop is in the trace of the loop. *)
Lemma for_each_emits (P : S → Prop) body l st x e :
  (∀ y s, y ∈ l → P s → P (body y s).1) →
  (∀ s, P s → e ∈ (body x s).2) →
  x ∈ l → P st → e ∈ (for_each body l st).2.
Proof.
  revert st. induction l as [|y l IH]; intros st Hb He Hx Hst.
  - by apply not_elem_of_nil in Hx.
  - rewrite for_each_cons. simpl. apply elem_of_app.
    apply elem_of_cons in Hx as [->|Hx].
    + left. by apply He.
    + right. apply IH; [|done|done|].
      * intros z s Hz. apply Hb. by apply list_elem_of_further.
      * apply Hb; [apply list_elem_of_here|done].
Qed.
End LoopFacts.

(** ** Alert registry *)

Lemma alert_invariant_get (m : list (string * AlertData)) :
  alert_invariant m ↔ ∀ k d, JsMap.get k m = Some d → users d ≠ [].
Proof.
  unfold alert_invariant, JsMap.has, watchers. split.
  - intros Hinv k d Hg. specialize (Hinv k). rewrite Hg in Hinv.
    by apply Hinv.
  - intros Hall k. destruct (JsMap.get k m) as [d|] eqn:Hg.
    + split; [intros _; eauto|done].
    + split; [done|by intros []].
Qed.

Lemma get_addToMarketCapAlerts tokenAddr userId now st k :
  JsMap.get k (marketCapAlerts (addToMarketCapAlerts tokenAddr userId now st)) =
    if decide (tokenAddr = k) then
      Some (mkAlertData
              (match JsMap.get tokenAddr (marketCapAlerts st) with
               | Some d => lastPushed d
               | None => now
               end)
              (JsSet.add userId (watchers tokenAddr (marketCapAlerts st))))
    else JsMap.get k (marketCapAlerts st).
Proof.
  unfold addToMarketCapAlerts, JsMap.has, watchers.
  destruct (JsMap.get tokenAddr (marketCapAlerts st)) as [d|] eqn:Hg.
  - rewrite Hg. simpl. destruct (decide (tokenAddr = k)) as [<-|Hne].
    + by rewrite JsMap_get_set_eq.
    + by rewrite JsMap_get_set_ne.
  - rewrite JsMap_get_set_eq. simpl. destruct (decide (tokenAddr = k)) as [<-|Hne].
    + by rewrite JsMap_get_set_eq.
    + by rewrite !JsMap_get_set_ne.
Qed.

Lemma get_clearAllAlerts_body userId tokenAddr m k :
  JsMap.get k (clearAllAlerts_body userId tokenAddr m) =
    if decide (tokenAddr = k) then
      match JsMap.get tokenAddr m with
      | Some d =>
          if Nat.eqb (JsSet.size (JsSet.delete userId (users d))) 0 then None
          else Some (mkAlertData (lastPushed d) (JsSet.delete userId (users d)))
      | None => None
      end
    else JsMap.get k m.
Proof.
  unfold clearAllAlerts_body.
  destruct (JsMap.get tokenAddr m) as [d|] eqn:Hg.
  - destruct (Nat.eqb _ 0); destruct (decide (tokenAddr = k)) as [<-|Hne].
    + apply JsMap_get_delete_eq.
    + by rewrite JsMap_get_delete_ne, JsMap_get_set_ne.
    + apply JsMap_get_set_eq.
    + by rewrite JsMap_get_set_ne.
  - destruct (decide (tokenAddr = k)) as [<-|Hne]; done.
Qed.

Lemma removeFromMarketCapAlerts_body tokenAddr userId st :
  marketCapAlerts (removeFromMarketCapAlerts tokenAddr userId st) =
    clearAllAlerts_body userId tokenAddr (marketCapAlerts st).
Proof.
  unfold removeFromMarketCapAlerts, clearAllAlerts_body.
  by destruct (JsMap.get tokenAddr (marketCapAlerts st)).
Qed.

Lemma alert_invariant_add tokenAddr userId now st :
  alert_invariant (marketCapAlerts st) →
  alert_invariant (marketCapAlerts (addToMarketCapAlerts tokenAddr userId now st)).
Proof.
  rewrite !alert_invariant_get. intros Hinv k d.
  rewrite get_addToMarketCapAlerts. destruct (decide (tokenAddr = k)).
  - intros [= <-]. apply JsSet_add_nonempty.
  - apply Hinv.
Qed.

Lemma alert_invariant_body userId tokenAddr m :
  alert_invariant m → alert_invariant (clearAllAlerts_body userId tokenAddr m).
Proof.
  rewrite !alert_invariant_get. intros Hinv k d.
  rewrite get_clearAllAlerts_body. destruct (decide (tokenAddr = k)).
  - destruct (JsMap.get tokenAddr m) as [d0|]; [|done].
    destruct (Nat.eqb _ 0) eqn:Hsz; [done|].
    intros [= <-]. simpl. intros Hnil.
    assert (Nat.eqb (JsSet.size (JsSet.delete userId (users d0))) 0 = true)
      by by apply JsSet_size_0.
    congruence.
  - apply Hinv.
Qed.

Lemma alert_invariant_remove tokenAddr userId st :
  alert_invariant (marketCapAlerts st) →
  alert_invariant (marketCapAlerts (removeFromMarketCapAlerts tokenAddr userId st)).
Proof. rewrite removeFromMarketCapAlerts_body. apply alert_invariant_body. Qed.

Lemma alert_invariant_fold userId keys m :
  alert_invariant m →
  alert_invariant
    (fold_left (λ m tokenAddr, clearAllAlerts_body userId tokenAddr m) keys m).
Proof.
  revert m. induction keys as [|k keys IH]; intros m Hinv; [done|].
  simpl. apply IH. by apply alert_invariant_body.
Qed.

Lemma alert_invariant_clear userId st :
  alert_invariant (marketCapAlerts st) →
  alert_invariant (marketCapAlerts (clearAllAlerts userId st)).
Proof. apply alert_invariant_fold. Qed.

Lemma remove_last_watcher tokenAddr userId st :
  watchers tokenAddr (marketCapAlerts st) = [userId] →
  JsMap.has tokenAddr
    (marketCapAlerts (removeFromMarketCapAlerts tokenAddr userId st)) = false.
Proof.
  intros Hw. rewrite removeFromMarketCapAlerts_body. unfold JsMap.has.
  rewrite get_clearAllAlerts_body, decide_True by done.
  unfold watchers in Hw.
  destruct (JsMap.get tokenAddr (marketCapAlerts st)) as [d|]; [|done].
  rewrite Hw. unfold JsSet.delete. rewrite filter_cons, decide_False by auto.
  done.
Qed.

Lemma clear_fold_not_watching userId keys m k :
  (k ∈ keys ∨ userId ∉ watchers k m) →
  userId ∉ watchers k
    (fold_left (λ m tokenAddr, clearAllAlerts_body userId tokenAddr m) keys m).
Proof.
  revert m. induction keys as [|k0 keys IH]; intros m H.
  - destruct H as [?%not_elem_of_nil|]; done.
  - simpl. apply IH.
    destruct (decide (k0 = k)) as [->|Hne].
    + right. unfold watchers. rewrite get_clearAllAlerts_body, decide_True by done.
      destruct (JsMap.get k m) as [d|]; [|apply not_elem_of_nil].
      destruct (Nat.eqb _ 0); [apply not_elem_of_nil|]. simpl.
      rewrite JsSet_elem_of_delete. tauto.
    + destruct H as [[->|?]%elem_of_cons|H]; [done|by left|right].
      unfold watchers in *. by rewrite get_clearAllAlerts_body, decide_False.
Qed.

(** X4: after [clear_all_alerts] the subscriber watches no token. *)
Lemma clearAllAlerts_not_watching userId st k :
  userId ∉ watchers k (marketCapAlerts (clearAllAlerts userId st)).
Proof.
  apply clear_fold_not_watching.
  destruct (JsMap.get k (marketCapAlerts st)) as [d|] eqn:Hg.
  - left. apply JsMap_get_Some_elem in Hg.
    unfold JsMap.keys. apply list_elem_of_fmap. by exists (k, d).
  - right. unfold watchers. rewrite Hg. apply not_elem_of_nil.
Qed.

(** ** What the handlers leave alone *)

Lemma frame_refl st : frame st st.
Proof. by unfold frame. Qed.

Lemma frame_trans st1 st2 st3 : frame st1 st2 → frame st2 st3 → frame st1 st3.
Proof. unfold frame. intros (?&?&?&?) (?&?&?&?). split_and!; congruence. Qed.

Lemma prefs_kept_refl st : prefs_kept st st.
Proof. by unfold prefs_kept. Qed.

#[local] Hint Resolve frame_refl prefs_kept_refl : core.

Lemma prefs_kept_trans st1 st2 st3 :
  prefs_kept st1 st2 → prefs_kept st2 st3 → prefs_kept st1 st3.
Proof. unfold prefs_kept. eauto. Qed.

Lemma for_each_frame {A E} (body : A → State → State * list E) l st :
  (∀ x s, frame s (body x s).1) → frame st (for_each body l st).1.
Proof.
  intros Hb. apply (for_each_state (frame st)); [|apply frame_refl].
  intros x s _ Hs. eapply frame_trans; [exact Hs|apply Hb].
Qed.

Lemma for_each_prefs_kept {A E} (body : A → State → State * list E) l st :
  (∀ x s, prefs_kept s (body x s).1) → prefs_kept st (for_each body l st).1.
Proof.
  intros Hb. apply (for_each_state (prefs_kept st)); [|apply prefs_kept_refl].
  intros x s _ Hs. eapply prefs_kept_trans; [exact Hs|apply Hb].
Qed.

Lemma getPrefs_frame id st : frame st (getPrefs id st).2.
Proof. unfold getPrefs. by destruct (userPushPrefs st !! id). Qed.

Lemma getPrefs_alerts id st :
  marketCapAlerts (getPrefs id st).2 = marketCapAlerts st.
Proof. unfold getPrefs. by destruct (userPushPrefs st !! id). Qed.

Lemma getPrefs_kept id st : prefs_kept st (getPrefs id st).2.
Proof.
  unfold getPrefs, prefs_kept. intros u p Hu.
  destruct (userPushPrefs st !! id) eqn:Hid; [done|]. simpl.
  rewrite lookup_insert_ne; [done|]. intros ->. congruence.
Qed.

Lemma getPrefs_known id st p :
  userPushPrefs st !! id = Some p → getPrefs id st = (p, st).
Proof. unfold getPrefs. by intros ->. Qed.

Lemma getPrefs_lookup id st :
  userPushPrefs (getPrefs id st).2 !! id = Some (getPrefs id st).1.
Proof.
  unfold getPrefs. destruct (userPushPrefs st !! id) eqn:Hid; [done|].
  simpl. apply lookup_insert_eq.
Qed.

Lemma addToMarketCapAlerts_frame tokenAddr userId now st :
  frame st (addToMarketCapAlerts tokenAddr userId now st).
Proof. unfold addToMarketCapAlerts. by case_match. Qed.

Lemma addToMarketCapAlerts_prefs tokenAddr userId now st :
  userPushPrefs (addToMarketCapAlerts tokenAddr userId now st) = userPushPrefs st.
Proof. unfold addToMarketCapAlerts. by case_match. Qed.

Lemma notifyUser_frame W now addr amount m uid st :
  frame st (notifyUser W now addr amount m uid st).1.
Proof.
  unfold notifyUser. pose proof (getPrefs_frame uid st) as Hf.
  destruct (getPrefs uid st) as [prefs st1]. simpl in Hf.
  repeat case_match; simpl; try done.
  eapply frame_trans; [done|apply addToMarketCapAlerts_frame].
Qed.

Lemma notifyUser_prefs_kept W now addr amount m uid st :
  prefs_kept st (notifyUser W now addr amount m uid st).1.
Proof.
  unfold notifyUser. pose proof (getPrefs_kept uid st) as Hf.
  destruct (getPrefs uid st) as [prefs st1]. simpl in Hf.
  repeat case_match; simpl; try done.
  intros u p Hu. rewrite addToMarketCapAlerts_prefs. by apply Hf.
Qed.

Lemma alertUser_frame W tokenAddr mc userId st :
  frame st (alertUser W tokenAddr mc userId st).1.
Proof.
  unfold alertUser. pose proof (getPrefs_frame userId st) as Hf.
  destruct (getPrefs userId st) as [prefs st1]. by repeat case_match.
Qed.

Lemma alertUser_alerts W tokenAddr mc userId st :
  marketCapAlerts (alertUser W tokenAddr mc userId st).1 = marketCapAlerts st.
Proof.
  unfold alertUser. pose proof (getPrefs_alerts userId st) as Hf.
  destruct (getPrefs userId st) as [prefs st1]. by repeat case_match.
Qed.

Lemma alertUser_prefs_kept W tokenAddr mc userId st :
  prefs_kept st (alertUser W tokenAddr mc userId st).1.
Proof.
  unfold alertUser. pose proof (getPrefs_kept userId st) as Hf.
  destruct (getPrefs userId st) as [prefs st1]. by repeat case_match.
Qed.

Lemma checkToken_frame W entry st : frame st (checkToken W entry st).1.
Proof.
  unfold checkToken. destruct entry as [tokenAddr alertData].
  case_match; [|apply frame_refl].
  apply for_each_frame. intros. apply alertUser_frame.
Qed.

Lemma checkToken_alerts W entry st :
  marketCapAlerts (checkToken W entry st).1 = marketCapAlerts st.
Proof.
  unfold checkToken. destruct entry as [tokenAddr alertData].
  case_match; [|done].
  apply (for_each_state (λ s, marketCapAlerts s = marketCapAlerts st)); [|done].
  intros x s _ <-. apply alertUser_alerts.
Qed.

Lemma checkToken_prefs_kept W entry st :
  prefs_kept st (checkToken W entry st).1.
Proof.
  unfold checkToken. destruct entry as [tokenAddr alertData].
  case_match; [|apply prefs_kept_refl].
  apply for_each_prefs_kept. intros. apply alertUser_prefs_kept.
Qed.

(** ** Block cursor *)

Lemma for_each_notifyUser_frame W now addr amount m l st :
  frame st (for_each (notifyUser W now addr amount m) l st).1.
Proof. apply for_each_frame. intros. apply notifyUser_frame. Qed.

Lemma processLog_cursor W now log st :
  lastProcessed (processLog W now log st).1 = lastProcessed st.
Proof.
  unfold processLog. destruct log as [addr amount|]; [|done].
  case_bool_decide; [done|].
  pose proof (for_each_notifyUser_frame W now addr amount (enrich W addr)
    (subscribedUsers (set_sentKeys ({[dedupKey addr amount]} ∪ sentKeys st) st))
    (set_sentKeys ({[dedupKey addr amount]} ∪ sentKeys st) st)) as (_&_&Hc&_).
  destruct (for_each _ _ _) as [st2 t]. simpl in *. by rewrite Hc.
Qed.

Lemma for_each_processLog_cursor W now logs st :
  lastProcessed (for_each (processLog W now) logs st).1 = lastProcessed st.
Proof.
  apply (for_each_state (λ s, lastProcessed s = lastProcessed st)); [|done].
  intros x s _ <-. apply processLog_cursor.
Qed.

Lemma onBlock_failed W bn now st :
  getLogs W (cursor bn st + 1) bn = None →
  (onBlock W bn now st).1 = set_lastProcessed (cursor bn st) st.
Proof.
  unfold onBlock, cursor. intros Hq.
  destruct (lastProcessed st =? 0) eqn:Hz; simpl in *.
  - case_match; [done|]. by rewrite Hq.
  - case_match; [by destruct st|]. rewrite Hq. by destruct st.
Qed.

(** C2 (as amended): a failed query leaves the cursor at the value the
    cycle started from, which on the first signal is the height minus one
    that the handler has just stored; nothing is recorded, and unless that
    value is 0 the next signal queries again from the same first block. A
    successful query sets the cursor to the new height whatever the chain
    reads and the sends of that cycle do. *)
Theorem block_cursor W bn now st :
  let c := cursor bn st in
  let st' := (onBlock W bn now st).1 in
  c + 1 ≤ bn →
  (getLogs W (c + 1) bn = None →
     lastProcessed st' = c ∧ sentKeys st' = sentKeys st ∧
     (c ≠ 0 → ∀ W' bn' now', bn ≤ bn' →
        ∃ t, (onBlock W' bn' now' st').2 = GetLogs (c + 1) bn' :: t))
  ∧ (∀ logs, getLogs W (c + 1) bn = Some logs → lastProcessed st' = bn).
Proof.
  intros c st' Hrange. split.
  - intros Hq. subst st'. rewrite (onBlock_failed _ _ _ _ Hq). fold c.
    split_and!; [done|done|].
    intros Hc W' bn' now' Hbn'. unfold onBlock. simpl.
    apply Z.eqb_neq in Hc. rewrite Hc. simpl.
    destruct (c + 1 >? bn') eqn:Hgt; [lia|].
    destruct (getLogs W' (c + 1) bn'); [|by eexists].
    destruct (for_each _ _ _). by eexists.
  - intros logs Hq. subst st' c. unfold onBlock, cursor in *.
    destruct (lastProcessed st =? 0) eqn:Hz; simpl in *.
    + destruct (bn - 1 + 1 >? bn) eqn:Hgt; [lia|]. rewrite Hq.
      by destruct (for_each _ _ _).
    + destruct (lastProcessed st + 1 >? bn) eqn:Hgt; [lia|]. rewrite Hq.
      by destruct (for_each _ _ _).
Qed.

(** ** Throttle of the market-cap check *)

Lemma checkMarketCapAlerts_throttled W now st :
  now - lastMcCheck st < MC_CHECK_INTERVAL →
  checkMarketCapAlerts W now st = (st, []).
Proof.
  intros Hlt. unfold checkMarketCapAlerts.
  by rewrite (proj2 (Z.ltb_lt _ _) Hlt).
Qed.

Lemma for_each_checkToken_frame W l st :
  frame st (for_each (checkToken W) l st).1.
Proof. apply for_each_frame. intros. apply checkToken_frame. Qed.

Lemma alertUser_no_McCheck W tokenAddr mc userId st :
  Forall (λ e, is_McCheck e = false) (alertUser W tokenAddr mc userId st).2.
Proof.
  unfold alertUser. destruct (getPrefs userId st) as [prefs st1].
  repeat case_match; repeat constructor.
Qed.

Lemma checkToken_no_McCheck W entry st :
  Forall (λ e, is_McCheck e = false) (checkToken W entry st).2.
Proof.
  unfold checkToken. destruct entry as [tokenAddr alertData].
  case_match; [|constructor].
  apply (for_each_trace (λ _, True)); [done| |done].
  intros. apply alertUser_no_McCheck.
Qed.

Lemma realChecks_none t :
  Forall (λ e, is_McCheck e = false) t → realChecks t = 0%nat.
Proof.
  unfold realChecks. induction 1 as [|e t He _ IH]; [done|].
  simpl. by rewrite He.
Qed.

Lemma checkMarketCapAlerts_real W now st :
  MC_CHECK_INTERVAL ≤ now - lastMcCheck st →
  lastMcCheck (checkMarketCapAlerts W now st).1 = now ∧
  realChecks (checkMarketCapAlerts W now st).2 = 1%nat.
Proof.
  intros Hge. unfold checkMarketCapAlerts.
  rewrite (proj2 (Z.ltb_ge _ _) Hge).
  pose proof (for_each_checkToken_frame W
    (marketCapAlerts (set_lastMcCheck now st)) (set_lastMcCheck now st))
    as (_&Hc&_&_).
  pose proof (for_each_trace (λ _, True) (λ e, is_McCheck e = false)
    (checkToken W) (marketCapAlerts (set_lastMcCheck now st))
    (set_lastMcCheck now st) ltac:(done)
    ltac:(intros; apply checkToken_no_McCheck) I) as Hn.
  destruct (for_each _ _ _) as [st2 t]. simpl in *. split; [done|].
  unfold realChecks in *. simpl. f_equal. by apply realChecks_none.
Qed.

Lemma run_throttled (later : list (World * Z)) last st :
  lastMcCheck st = last →
  Forall (λ c, c.2 - last < MC_CHECK_INTERVAL) later →
  run (map (λ c, mc_timer c.1 c.2) later) st = (st, []).
Proof.
  intros Hlast Hl. induction Hl as [|[W now] later Hc _ IH]; [done|].
  unfold run in *. simpl in *.
  rewrite checkMarketCapAlerts_throttled by (rewrite Hlast; done).
  by rewrite IH.
Qed.

(** C5: after a real check at [now1], every invocation that comes less than
    the interval later, however many there are, changes nothing and emits
    nothing; the whole burst holds exactly one real check. *)
Theorem mc_check_throttle W1 now1 st (later : list (World * Z)) :
  MC_CHECK_INTERVAL ≤ now1 - lastMcCheck st →
  Forall (λ c, c.2 - now1 < MC_CHECK_INTERVAL) later →
  let st1 := (checkMarketCapAlerts W1 now1 st).1 in
  run (map (λ c, mc_timer c.1 c.2) later) st1 = (st1, [])
  ∧ realChecks
      (run (mc_timer W1 now1 :: map (λ c, mc_timer c.1 c.2) later) st).2
    = 1%nat.
Proof.
  intros Hreal Hlater st1.
  destruct (checkMarketCapAlerts_real W1 now1 st Hreal) as [Hlast Hone].
  assert (Hrun : run (map (λ c, mc_timer c.1 c.2) later) st1 = (st1, []))
    by (by apply (run_throttled later now1)).
  split; [done|].
  unfold run in *. rewrite for_each_cons. simpl. fold st1. rewrite Hrun.
  simpl. by rewrite app_nil_r.
Qed.

(** ** Deduplication *)

Lemma deliveries_app uid addr amount t1 t2 :
  deliveries uid addr amount (t1 ++ t2) =
    (deliveries uid addr amount t1 + deliveries uid addr amount t2)%nat.
Proof. unfold deliveries. by rewrite List.filter_app, length_app. Qed.

Lemma is_notice_concerns uid addr amount e :
  is_notice uid addr amount e = true → concerns e = Some (addr, amount).
Proof.
  destruct e; simpl; try done.
  rewrite !andb_true_iff, !bool_decide_eq_true. by intros [[_ ->] ->].
Qed.

Lemma deliveries_none uid addr amount t :
  (∀ e, e ∈ t → concerns e ≠ Some (addr, amount)) →
  deliveries uid addr amount t = 0%nat.
Proof.
  unfold deliveries. induction t as [|e t IH]; intros Hno; [done|].
  simpl. destruct (is_notice uid addr amount e) eqn:He.
  - apply is_notice_concerns in He. destruct (Hno e); [left|done].
  - apply IH. intros e' He'. apply Hno. by right.
Qed.

Lemma enrichments_app addr amount t1 t2 :
  enrichments addr amount (t1 ++ t2) =
    (enrichments addr amount t1 + enrichments addr amount t2)%nat.
Proof. unfold enrichments. by rewrite List.filter_app, length_app. Qed.

Lemma is_enrich_concerns addr amount e :
  is_enrich addr amount e = true → concerns e = Some (addr, amount).
Proof.
  destruct e; simpl; try done.
  rewrite andb_true_iff, !bool_decide_eq_true. by intros [-> ->].
Qed.

Lemma enrichments_none addr amount t :
  (∀ e, e ∈ t → concerns e ≠ Some (addr, amount)) →
  enrichments addr amount t = 0%nat.
Proof.
  unfold enrichments. induction t as [|e t IH]; intros Hno; [done|].
  simpl. destruct (is_enrich addr amount e) eqn:He.
  - apply is_enrich_concerns in He. destruct (Hno e); [left|done].
  - apply IH. intros e' He'. apply Hno. by right.
Qed.

Lemma notifyUser_trace W now addr amount m uid st :
  (notifyUser W now addr amount m uid st).2 = [] ∨
  ∃ text ok, (notifyUser W now addr amount m uid st).2 =
               [Notify uid addr amount text ok].
Proof.
  unfold notifyUser. destruct (getPrefs uid st) as [prefs st1].
  repeat case_match; simpl; eauto.
Qed.

Lemma notify_loop_about W now addr amount m l st :
  Forall (λ e, concerns e = Some (addr, amount))
         (for_each (notifyUser W now addr amount m) l st).2.
Proof.
  apply (for_each_trace (λ _, True)); [done| |done].
  intros uid s _ _.
  destruct (notifyUser_trace W now addr amount m uid s) as [->|(?&?&->)];
    repeat constructor.
Qed.

Lemma notify_loop_enrichments W now addr amount m l st a' m' :
  enrichments a' m' (for_each (notifyUser W now addr amount m) l st).2
    = 0%nat.
Proof.
  revert st. induction l as [|x l IH]; intros st; [done|].
  rewrite for_each_cons. simpl. rewrite enrichments_app, IH.
  by destruct (notifyUser_trace W now addr amount m x st) as [->|(?&?&->)].
Qed.

Lemma notify_loop_absent W now addr amount m l st uid a' m' :
  uid ∉ l →
  deliveries uid a' m' (for_each (notifyUser W now addr amount m) l st).2
    = 0%nat.
Proof.
  revert st. induction l as [|x l IH]; intros st Hnot; [done|].
  apply not_elem_of_cons in Hnot as [Hne Hnot].
  rewrite for_each_cons. simpl. rewrite deliveries_app, IH by done.
  destruct (notifyUser_trace W now addr amount m x st) as [->|(?&?&->)];
    [done|].
  unfold deliveries. simpl. by rewrite (bool_decide_eq_false_2 (x = uid)).
Qed.

Lemma notify_loop_once W now addr amount m l st uid a' m' :
  NoDup l →
  (deliveries uid a' m' (for_each (notifyUser W now addr amount m) l st).2
     ≤ 1)%nat.
Proof.
  revert st. induction l as [|x l IH]; intros st Hnd;
    [unfold deliveries; simpl; lia|].
  apply NoDup_cons in Hnd as [Hx Hnd].
  rewrite for_each_cons. simpl. rewrite deliveries_app.
  destruct (notifyUser_trace W now addr amount m x st) as [->|(?&?&->)].
  - apply IH. done.
  - destruct (decide (x = uid)) as [->|Hne].
    + rewrite notify_loop_absent by done.
      unfold deliveries. simpl. case_match; simpl; lia.
    + unfold deliveries at 1. simpl.
      rewrite (bool_decide_eq_false_2 (x = uid)) by done. simpl.
      by apply IH.
Qed.

Lemma dedup_inv_neutral st t st' t' :
  dedup_inv st t →
  Forall (λ e, concerns e = None) t' →
  NoDup (subscribedUsers st') → sentKeys st ⊆ sentKeys st' →
  dedup_inv st' (t ++ t').
Proof.
  intros (Hnd & Hone & Hkeys & Hfirst & Hen) Hneutral Hnd' Hsub.
  rewrite Forall_forall in Hneutral.
  split_and!; [done| | | |].
  - intros uid addr amount. rewrite deliveries_app.
    rewrite (deliveries_none _ _ _ t'); [rewrite Nat.add_0_r; apply Hone|].
    intros e He. rewrite (Hneutral e He). done.
  - intros e addr amount [He|He]%elem_of_app Hc.
    + apply Hsub. eauto.
    + rewrite (Hneutral e He) in Hc. done.
  - intros i e addr amount [Hi|[_ Hi]]%lookup_app_Some Hc.
    + destruct (Hfirst i e addr amount Hi Hc) as (j & Hj & Hl).
      exists j. split; [done|]. by apply lookup_app_l_Some.
    + apply list_elem_of_lookup_2 in Hi. rewrite (Hneutral e Hi) in Hc. done.
  - intros addr amount. rewrite enrichments_app.
    rewrite (enrichments_none _ _ t'); [rewrite Nat.add_0_r; apply Hen|].
    intros e He. rewrite (Hneutral e He). done.
Qed.

Lemma dedup_inv_processLog W now log st t :
  dedup_inv st t →
  dedup_inv (processLog W now log st).1 (t ++ (processLog W now log st).2).
Proof.
  intros Hinv. unfold processLog. destruct log as [addr amount|];
    [|simpl; by rewrite app_nil_r].
  case_bool_decide as Hkey; [simpl; by rewrite app_nil_r|].
  destruct Hinv as (Hnd & Hone & Hkeys & Hfirst & Hen).
  set (key := dedupKey addr amount) in *.
  set (st1 := set_sentKeys ({[key]} ∪ sentKeys st) st).
  pose proof (λ a' m', notify_loop_enrichments W now addr amount
                (enrich W addr) (subscribedUsers st1) st1 a' m') as Hquiet.
  pose proof (for_each_notifyUser_frame W now addr amount (enrich W addr)
                (subscribedUsers st1) st1) as (Hu & _ & _ & Hs).
  pose proof (notify_loop_about W now addr amount (enrich W addr)
                (subscribedUsers st1) st1) as Habout.
  pose proof (λ uid a' m', notify_loop_once W now addr amount (enrich W addr)
                (subscribedUsers st1) st1 uid a' m' Hnd) as Honce.
  destruct (for_each _ _ st1) as [st2 sends]. simpl in *.
  rewrite Forall_forall in Habout.
  split_and!.
  - by rewrite Hu.
  - intros uid a' m'. rewrite deliveries_app.
    change (KeyRecorded key :: Enrich addr amount :: sends)
      with ([KeyRecorded key; Enrich addr amount] ++ sends).
    rewrite deliveries_app.
    change (deliveries uid a' m' [KeyRecorded key; Enrich addr amount])
      with 0%nat.
    simpl. destruct (decide ((addr, amount) = (a', m'))) as [[= <- <-]|Hne].
    + rewrite (deliveries_none _ _ _ t); [apply Honce|].
      intros e He Hc. apply Hkey. eauto.
    + rewrite (deliveries_none _ _ _ sends); [rewrite Nat.add_0_r; apply Hone|].
      intros e He Hc. rewrite (Habout e He) in Hc. congruence.
  - rewrite Hs. intros e a' m' [He|He]%elem_of_app Hc.
    + apply elem_of_union_r. eauto.
    + apply elem_of_union_l, elem_of_singleton.
      apply elem_of_cons in He as [->|He]; [done|].
      apply elem_of_cons in He as [->|He].
      * by injection Hc as <- <-.
      * rewrite (Habout e He) in Hc. by injection Hc as <- <-.
  - intros i e a' m' [Hi|[Hlen Hi]]%lookup_app_Some Hc.
    + destruct (Hfirst i e a' m' Hi Hc) as (j & Hj & Hl).
      exists j. split; [done|]. by apply lookup_app_l_Some.
    + assert (Hk : (addr, amount) = (a', m') ∧ (i - length t ≠ 0)%nat).
      { destruct (i - length t)%nat as [|[|n]] eqn:Hn; simpl in Hi.
        - injection Hi as <-. done.
        - injection Hi as <-. simpl in Hc. split; [congruence|done].
        - apply list_elem_of_lookup_2 in Hi.
          rewrite (Habout e Hi) in Hc. split; [congruence|done]. }
      destruct Hk as [[= <- <-] Hpos].
      exists (length t). split; [lia|].
      rewrite lookup_app_r by lia. by rewrite Nat.sub_diag.
  - intros a' m'. rewrite enrichments_app.
    change (KeyRecorded key :: Enrich addr amount :: sends)
      with ([KeyRecorded key; Enrich addr amount] ++ sends).
    rewrite enrichments_app, Hquiet, Nat.add_0_r.
    destruct (decide ((addr, amount) = (a', m'))) as [[= <- <-]|Hne].
    + rewrite (enrichments_none _ _ t); [unfold enrichments; simpl|].
      * repeat case_match; simpl; lia.
      * intros e He Hc. apply Hkey. eauto.
    + assert (enrichments a' m' [KeyRecorded key; Enrich addr amount]
                = 0%nat) as ->; [|rewrite Nat.add_0_r; apply Hen].
      unfold enrichments. simpl.
      destruct (bool_decide (addr = a')) eqn:Ha;
        destruct (bool_decide (amount = m')) eqn:Hm; simpl; try done.
      apply bool_decide_eq_true in Ha, Hm. congruence.
Qed.

Lemma dedup_inv_for_each W now logs st t :
  dedup_inv st t →
  dedup_inv (for_each (processLog W now) logs st).1
            (t ++ (for_each (processLog W now) logs st).2).
Proof.
  revert st t. induction logs as [|log logs IH]; intros st t Hinv.
  - simpl. by rewrite app_nil_r.
  - rewrite for_each_cons. simpl. rewrite app_assoc.
    apply IH. by apply dedup_inv_processLog.
Qed.

Lemma putPrefs_frame id p st : frame st (putPrefs id p st).
Proof. done. Qed.

Lemma setLang_frame id l st : frame st (setLang id l st).
Proof.
  unfold setLang. pose proof (getPrefs_frame id st) as Hf.
  destruct (getPrefs id st) as [p st1].
  eapply frame_trans; [exact Hf|apply putPrefs_frame].
Qed.

Lemma removeFromMarketCapAlerts_frame tokenAddr userId st :
  frame st (removeFromMarketCapAlerts tokenAddr userId st).
Proof. unfold removeFromMarketCapAlerts. by case_match. Qed.

Lemma clearAllAlerts_frame userId st : frame st (clearAllAlerts userId st).
Proof. done. Qed.

Lemma onCallback_frame uid data st : frame st (onCallback uid data st).
Proof.
  unfold onCallback. pose proof (getPrefs_frame uid st) as Hf.
  destruct (getPrefs uid st) as [prefs st1]. simpl in Hf.
  eapply frame_trans; [exact Hf|].
  destruct data; auto using setLang_frame, putPrefs_frame,
    removeFromMarketCapAlerts_frame, clearAllAlerts_frame, frame_refl.
Qed.

Lemma enrolExisting_frame userId now entry st :
  frame st (enrolExisting userId now entry st).1.
Proof.
  unfold enrolExisting. destruct entry as [tokenAddr d].
  repeat case_match; simpl;
    auto using addToMarketCapAlerts_frame, frame_refl.
Qed.

Lemma onReply_frame uid n now st : frame st (onReply uid n now st).1.
Proof.
  unfold onReply. pose proof (getPrefs_frame uid st) as Hf.
  destruct (getPrefs uid st) as [prefs st1]. simpl in Hf.
  case_match; [done|].
  match goal with
  | |- context [for_each ?b ?l ?s] =>
      pose proof (for_each_frame b l s
                    (λ x s', enrolExisting_frame uid now x s')) as Hloop;
      destruct (for_each b l s) as [st3 added]
  end.
  simpl in *. eapply frame_trans; [exact Hf|]. exact Hloop.
Qed.

Lemma onReply_trace uid n now st :
  ∃ text, (onReply uid n now st).2 = [Reply uid text].
Proof.
  unfold onReply. destruct (getPrefs uid st) as [prefs st1].
  case_match; [by eexists|].
  destruct (for_each _ _ _) as [st3 added]. by eexists.
Qed.

Lemma alertUser_neutral W tokenAddr mc userId st :
  Forall (λ e, concerns e = None) (alertUser W tokenAddr mc userId st).2.
Proof.
  unfold alertUser. destruct (getPrefs userId st) as [prefs st1].
  repeat case_match; repeat constructor.
Qed.

Lemma checkToken_neutral W entry st :
  Forall (λ e, concerns e = None) (checkToken W entry st).2.
Proof.
  unfold checkToken. destruct entry as [tokenAddr alertData].
  case_match; [|constructor].
  apply (for_each_trace (λ _, True)); [done| |done].
  intros. apply alertUser_neutral.
Qed.

Lemma checkMarketCapAlerts_keeps W now st :
  subscribedUsers (checkMarketCapAlerts W now st).1 = subscribedUsers st ∧
  sentKeys (checkMarketCapAlerts W now st).1 = sentKeys st ∧
  lastProcessed (checkMarketCapAlerts W now st).1 = lastProcessed st ∧
  marketCapAlerts (checkMarketCapAlerts W now st).1 = marketCapAlerts st ∧
  prefs_kept st (checkMarketCapAlerts W now st).1 ∧
  Forall (λ e, concerns e = None) (checkMarketCapAlerts W now st).2.
Proof.
  unfold checkMarketCapAlerts. case_match;
    [split_and!; try done; constructor|].
  set (st1 := set_lastMcCheck now st).
  pose proof (for_each_checkToken_frame W (marketCapAlerts st1) st1)
    as (Hu & _ & Hp & Hs).
  pose proof (for_each_state (λ s, marketCapAlerts s = marketCapAlerts st)
    (checkToken W) (marketCapAlerts st1) st1
    ltac:(intros x s _ <-; apply checkToken_alerts) eq_refl) as Ha.
  pose proof (for_each_prefs_kept (checkToken W) (marketCapAlerts st1) st1
    (checkToken_prefs_kept W)) as Hk.
  pose proof (for_each_trace (λ _, True) (λ e, concerns e = None)
    (checkToken W) (marketCapAlerts st1) st1 ltac:(done)
    ltac:(intros; apply checkToken_neutral) I) as Hn.
  destruct (for_each _ _ st1) as [st2 t]. simpl in *.
  split_and!; try done. by constructor.
Qed.

(** Every handler keeps the invariant over the trace emitted so far. *)
Lemma dedup_inv_step r st t :
  dedup_inv st t → dedup_inv (step r st).1 (t ++ (step r st).2).
Proof.
  intros Hinv. destruct r as [uid|uid|uid l|uid data|uid n now|W bn now|W now];
    simpl.
  - pose proof (getPrefs_frame uid
      (set_subscribedUsers (JsSet.add uid (subscribedUsers st)) st))
      as (Hu & _ & _ & Hs).
    eapply dedup_inv_neutral; [exact Hinv|constructor| |by rewrite Hs].
    rewrite Hu. apply JsSet_NoDup_add, Hinv.
  - pose proof (getPrefs_frame uid st) as (Hu & _ & _ & Hs).
    eapply dedup_inv_neutral; [exact Hinv|constructor| |by rewrite Hs].
    rewrite Hu. apply Hinv.
  - pose proof (setLang_frame uid l st) as (Hu & _ & _ & Hs).
    eapply dedup_inv_neutral; [exact Hinv|constructor| |by rewrite Hs].
    rewrite Hu. apply Hinv.
  - pose proof (onCallback_frame uid data st) as (Hu & _ & _ & Hs).
    eapply dedup_inv_neutral; [exact Hinv|constructor| |by rewrite Hs].
    rewrite Hu. apply Hinv.
  - pose proof (onReply_frame uid n now st) as (Hu & _ & _ & Hs).
    destruct (onReply_trace uid n now st) as [text Ht].
    eapply dedup_inv_neutral; [exact Hinv| | |by rewrite Hs].
    + rewrite Ht. by repeat constructor.
    + rewrite Hu. apply Hinv.
  - unfold onBlock.
    set (st0 := if lastProcessed st =? 0 then set_lastProcessed (bn - 1) st
                else st).
    assert (Hinv0 : dedup_inv st0 t) by (subst st0; by case_match).
    case_match; [simpl; by rewrite app_nil_r|].
    destruct (getLogs W _ bn) as [logs|].
    + assert (Hq : dedup_inv st0 (t ++ [GetLogs (lastProcessed st0 + 1) bn])).
      { eapply dedup_inv_neutral;
          [exact Hinv0|by repeat constructor|apply Hinv0|done]. }
      pose proof (dedup_inv_for_each W now logs _ _ Hq) as Hloop.
      destruct (for_each _ logs st0) as [st1 tl]. simpl in *.
      by rewrite <- app_assoc in Hloop.
    + simpl. eapply dedup_inv_neutral;
        [exact Hinv0|by repeat constructor|apply Hinv0|done].
  - pose proof (checkMarketCapAlerts_keeps W now st)
      as (Hu & Hs & _ & _ & _ & Hn).
    eapply dedup_inv_neutral; [exact Hinv|done| |by rewrite Hs].
    rewrite Hu. apply Hinv.
Qed.

Lemma dedup_inv_run rs st t :
  dedup_inv st t → dedup_inv (run rs st).1 (t ++ (run rs st).2).
Proof.
  unfold run. revert st t. induction rs as [|r rs IH]; intros st t Hinv.
  - simpl. by rewrite app_nil_r.
  - rewrite for_each_cons. simpl. rewrite app_assoc.
    apply IH. by apply dedup_inv_step.
Qed.

Lemma dedup_inv_initial : dedup_inv initial [].
Proof.
  split_and!; [constructor| | | |].
  - intros. unfold deliveries. simpl. lia.
  - by intros e addr amount ?%not_elem_of_nil.
  - intros i e addr amount Hi. by rewrite lookup_nil in Hi.
  - intros. unfold enrichments. simpl. lia.
Qed.

(** C1: in every run of the program from its initial state, each item of
    the trace that belongs to an event's enrichment or delivery comes after
    the recording of that event's key; a fetched event whose key is already
    in [sentKeys] is skipped whole; no subscriber is sent the same
    (address, amount) pair twice; and no (address, amount) pair is enriched
    and fanned out twice, whatever ranges the cycles fetched. *)
Theorem dedup_at_most_once (rs : list Request) :
  key_first (run rs initial).2
  ∧ (∀ W now addr amount,
       dedupKey addr amount ∈ sentKeys (run rs initial).1 →
       processLog W now (Deployed addr amount) (run rs initial).1
         = ((run rs initial).1, []))
  ∧ (∀ uid addr amount,
       (deliveries uid addr amount (run rs initial).2 ≤ 1)%nat)
  ∧ (∀ addr amount, (enrichments addr amount (run rs initial).2 ≤ 1)%nat).
Proof.
  pose proof (dedup_inv_run rs initial [] dedup_inv_initial)
    as (_ & Hone & _ & Hfirst & Hen).
  simpl in *. split_and!; [done| |done|done].
  intros W now addr amount Hkey. unfold processLog.
  by rewrite bool_decide_eq_true_2.
Qed.

(** ** The alert registry in reachable states *)

Lemma notifyUser_alert_invariant W now addr amount m uid st :
  alert_invariant (marketCapAlerts st) →
  alert_invariant (marketCapAlerts (notifyUser W now addr amount m uid st).1).
Proof.
  unfold notifyUser. pose proof (getPrefs_alerts uid st) as Ha.
  destruct (getPrefs uid st) as [prefs st1]. simpl in Ha. rewrite <- Ha.
  repeat case_match; simpl; try done. apply alert_invariant_add.
Qed.

Lemma processLog_alert_invariant W now log st :
  alert_invariant (marketCapAlerts st) →
  alert_invariant (marketCapAlerts (processLog W now log st).1).
Proof.
  intros Hinv. unfold processLog. destruct log as [addr amount|]; [|done].
  case_bool_decide; [done|].
  match goal with
  | |- context [for_each ?b ?l ?s0] =>
      pose proof (for_each_state (λ x, alert_invariant (marketCapAlerts x))
        b l s0 ltac:(intros; by apply notifyUser_alert_invariant) Hinv) as Hl;
      destruct (for_each b l s0) as [st2 t]
  end. done.
Qed.

Lemma onBlock_alert_invariant W bn now st :
  alert_invariant (marketCapAlerts st) →
  alert_invariant (marketCapAlerts (onBlock W bn now st).1).
Proof.
  intros Hinv. unfold onBlock.
  set (st0 := if lastProcessed st =? 0 then set_lastProcessed (bn - 1) st
              else st).
  assert (Hinv0 : alert_invariant (marketCapAlerts st0))
    by (subst st0; by case_match).
  case_match; [done|]. destruct (getLogs W _ bn) as [logs|]; [|done].
  pose proof (for_each_state (λ s, alert_invariant (marketCapAlerts s))
    (processLog W now) logs st0
    ltac:(intros; by apply processLog_alert_invariant) Hinv0) as Hl.
  by destruct (for_each _ logs st0) as [st1 t].
Qed.

Lemma enrolExisting_alert_invariant userId now entry st :
  alert_invariant (marketCapAlerts st) →
  alert_invariant (marketCapAlerts (enrolExisting userId now entry st).1).
Proof.
  intros Hinv. unfold enrolExisting. destruct entry as [tokenAddr d].
  repeat case_match; simpl; try done. by apply alert_invariant_add.
Qed.

Lemma onReply_alert_invariant uid n now st :
  alert_invariant (marketCapAlerts st) →
  alert_invariant (marketCapAlerts (onReply uid n now st).1).
Proof.
  intros Hinv. unfold onReply. pose proof (getPrefs_alerts uid st) as Ha.
  destruct (getPrefs uid st) as [prefs st1]. simpl in Ha. rewrite <- Ha in Hinv.
  case_match; [done|].
  match goal with
  | |- context [for_each ?b ?l ?s0] =>
      pose proof (for_each_state (λ x, alert_invariant (marketCapAlerts x))
        b l s0 ltac:(intros; by apply enrolExisting_alert_invariant) Hinv)
        as Hl;
      destruct (for_each b l s0) as [st3 added]
  end. done.
Qed.

Lemma setLang_alerts id l st :
  marketCapAlerts (setLang id l st) = marketCapAlerts st.
Proof.
  unfold setLang. pose proof (getPrefs_alerts id st) as Ha.
  by destruct (getPrefs id st) as [p st1].
Qed.

Lemma onCallback_alert_invariant uid data st :
  alert_invariant (marketCapAlerts st) →
  alert_invariant (marketCapAlerts (onCallback uid data st)).
Proof.
  intros Hinv. unfold onCallback. pose proof (getPrefs_alerts uid st) as Ha.
  destruct (getPrefs uid st) as [prefs st1]. simpl in Ha. rewrite <- Ha in Hinv.
  destruct data; rewrite ?setLang_alerts; try done.
  - by apply alert_invariant_remove.
  - by apply alert_invariant_clear.
Qed.

Lemma step_alert_invariant r st :
  alert_invariant (marketCapAlerts st) →
  alert_invariant (marketCapAlerts (step r st).1).
Proof.
  intros Hinv.
  destruct r as [uid|uid|uid l|uid data|uid n now|W bn now|W now]; simpl.
  - by rewrite getPrefs_alerts.
  - by rewrite getPrefs_alerts.
  - by rewrite setLang_alerts.
  - by apply onCallback_alert_invariant.
  - by apply onReply_alert_invariant.
  - by apply onBlock_alert_invariant.
  - pose proof (checkMarketCapAlerts_keeps W now st) as (_&_&_&Ha&_).
    by rewrite Ha.
Qed.

Lemma run_alert_invariant rs st :
  alert_invariant (marketCapAlerts st) →
  alert_invariant (marketCapAlerts (run rs st).1).
Proof.
  intros Hinv. unfold run.
  apply (for_each_state (λ s, alert_invariant (marketCapAlerts s))); [|done].
  intros r s _. apply step_alert_invariant.
Qed.

(** C8: in every state the program reaches, a token has an entry in the
    alert registry exactly when somebody watches it; enrolling, unenrolling
    and clearing keep it so from any registry where it holds; and unenrolling
    the only watcher of a token leaves no entry for that token. *)
Theorem alert_registry_invariant :
  (∀ rs, alert_invariant (marketCapAlerts (run rs initial).1))
  ∧ (∀ st tokenAddr userId now,
       alert_invariant (marketCapAlerts st) →
       alert_invariant
         (marketCapAlerts (addToMarketCapAlerts tokenAddr userId now st))
       ∧ alert_invariant
           (marketCapAlerts (removeFromMarketCapAlerts tokenAddr userId st))
       ∧ alert_invariant (marketCapAlerts (clearAllAlerts userId st)))
  ∧ (∀ st tokenAddr userId,
       watchers tokenAddr (marketCapAlerts st) = [userId] →
       JsMap.has tokenAddr
         (marketCapAlerts (removeFromMarketCapAlerts tokenAddr userId st))
         = false).
Proof.
  split_and!.
  - intros rs. apply run_alert_invariant. by intros k.
  - intros st tokenAddr userId now Hinv.
    auto using alert_invariant_add, alert_invariant_remove,
      alert_invariant_clear.
  - intros st tokenAddr userId. apply remove_last_watcher.
Qed.

(** ** Enrolment on setting a threshold *)

Lemma JsSet_add_present (x : UserId) s : x ∈ s → JsSet.add x s = s.
Proof.
  intros Hx. unfold JsSet.add. by rewrite (proj2 (JsSet_has_true x s) Hx).
Qed.

Lemma JsSet_add_idemp (x : UserId) s : JsSet.add x (JsSet.add x s) = JsSet.add x s.
Proof. apply JsSet_add_present, JsSet_elem_of_add. by left. Qed.

Lemma JsMap_set_same (k : string) (d : AlertData) m :
  JsMap.get k m = Some d → JsMap.set k d m = m.
Proof.
  induction m as [|[k0 d0] m IH]; simpl; [done|].
  destruct (decide (k0 = k)) as [->|Hne].
  - by intros [= ->].
  - intros Hg. by rewrite IH.
Qed.

Lemma get_enrolExisting userId now tokenAddr d0 st k :
  JsMap.get k (marketCapAlerts (enrolExisting userId now (tokenAddr, d0) st).1)
  = if decide (tokenAddr = k)
    then enrolled userId <$> JsMap.get k (marketCapAlerts st)
    else JsMap.get k (marketCapAlerts st).
Proof.
  unfold enrolExisting.
  destruct (JsMap.get tokenAddr (marketCapAlerts st)) as [d|] eqn:Hg.
  - destruct (JsSet.has userId (users d)) eqn:Hhas; simpl.
    + destruct (decide (tokenAddr = k)) as [<-|]; [|done].
      rewrite Hg. simpl. unfold enrolled.
      rewrite JsSet_add_present by by apply JsSet_has_true.
      by destruct d.
    + rewrite get_addToMarketCapAlerts.
      destruct (decide (tokenAddr = k)) as [<-|]; [|done].
      unfold watchers. by rewrite Hg.
  - simpl. destruct (decide (tokenAddr = k)) as [<-|]; [|done].
    by rewrite Hg.
Qed.

Lemma keys_addToMarketCapAlerts tokenAddr userId now st :
  JsMap.has tokenAddr (marketCapAlerts st) = true →
  JsMap.keys (marketCapAlerts (addToMarketCapAlerts tokenAddr userId now st))
  = JsMap.keys (marketCapAlerts st).
Proof.
  intros Hhas. unfold addToMarketCapAlerts. rewrite Hhas.
  unfold JsMap.has in Hhas.
  destruct (JsMap.get tokenAddr (marketCapAlerts st)) eqn:Hg; [|done].
  simpl. apply JsMap_keys_set_present. unfold JsMap.has. by rewrite Hg.
Qed.

Lemma keys_enrolExisting userId now entry st :
  JsMap.keys (marketCapAlerts (enrolExisting userId now entry st).1)
  = JsMap.keys (marketCapAlerts st).
Proof.
  unfold enrolExisting. destruct entry as [tokenAddr d0].
  destruct (JsMap.get tokenAddr (marketCapAlerts st)) eqn:Hg; [|done].
  case_match; [|done]. simpl. apply keys_addToMarketCapAlerts.
  unfold JsMap.has. by rewrite Hg.
Qed.

Lemma get_enrol_loop userId now l st k :
  JsMap.get k (marketCapAlerts (for_each (enrolExisting userId now) l st).1)
  = if bool_decide (k ∈ l.*1)
    then enrolled userId <$> JsMap.get k (marketCapAlerts st)
    else JsMap.get k (marketCapAlerts st).
Proof.
  revert st. induction l as [|[tokenAddr d0] l IH]; intros st; [done|].
  rewrite for_each_cons. cbn [fst]. rewrite IH, get_enrolExisting, fmap_cons.
  cbn [fst].
  destruct (decide (tokenAddr = k)) as [->|Hne].
  - rewrite (bool_decide_eq_true_2 (k ∈ k :: l.*1)) by left.
    case_bool_decide; [|done].
    destruct (JsMap.get k (marketCapAlerts st)) as [d|]; [|done].
    simpl. unfold enrolled. simpl. by rewrite JsSet_add_idemp.
  - case_bool_decide as Hin.
    + rewrite bool_decide_eq_true_2 by by right. done.
    + rewrite bool_decide_eq_false_2; [done|].
      intros [->|?]%elem_of_cons; done.
Qed.

(** C10: when a threshold is accepted, the subscriber joins the watchers of
    every token that has an entry in the alert registry at that moment (and
    stays in those already joined); no entry is created or removed. *)
Theorem threshold_enrols_everywhere uid n now st :
  Num.isFinite n = true → Num.le n Num.zero = false →
  let st' := (onReply uid n now st).1 in
  (∀ tokenAddr,
     JsMap.has tokenAddr (marketCapAlerts st) = true →
     watchers tokenAddr (marketCapAlerts st')
       = JsSet.add uid (watchers tokenAddr (marketCapAlerts st))
     ∧ uid ∈ watchers tokenAddr (marketCapAlerts st'))
  ∧ JsMap.keys (marketCapAlerts st') = JsMap.keys (marketCapAlerts st).
Proof.
  intros Hfin Hpos st'. subst st'. unfold onReply.
  pose proof (getPrefs_alerts uid st) as Ha.
  destruct (getPrefs uid st) as [prefs st1]. simpl in Ha.
  rewrite Hfin, Hpos. simpl.
  set (st2 := putPrefs uid _ st1).
  assert (Ha2 : marketCapAlerts st2 = marketCapAlerts st) by done.
  pose proof (λ k, get_enrol_loop uid now (marketCapAlerts st2) st2 k) as Hget.
  pose proof (for_each_state
    (λ s, JsMap.keys (marketCapAlerts s) = JsMap.keys (marketCapAlerts st))
    (enrolExisting uid now) (marketCapAlerts st2) st2
    ltac:(intros x s _ <-; apply keys_enrolExisting)
    (f_equal JsMap.keys Ha2)) as Hkeys.
  destruct (for_each _ _ st2) as [st3 added]. simpl in *.
  split; [|done].
  intros tokenAddr Hhas. unfold JsMap.has in Hhas.
  assert (Hw : watchers tokenAddr (marketCapAlerts st3)
               = JsSet.add uid (watchers tokenAddr (marketCapAlerts st))).
  { unfold watchers. rewrite Hget, Ha2.
    destruct (JsMap.get tokenAddr (marketCapAlerts st)) as [d|] eqn:Hg;
      [|done].
    rewrite bool_decide_eq_true_2; [done|].
    apply JsMap_get_Some_elem in Hg. apply list_elem_of_fmap.
    by exists (tokenAddr, d). }
  split; [done|]. rewrite Hw. apply JsSet_elem_of_add. by left.
Qed.

(** ** Threshold alerts *)

Lemma alertUser_alerts_subscriber W tokenAddr mc userId st prefs threshold :
  userPushPrefs st !! userId = Some prefs →
  mcUsdThreshold prefs = Some threshold →
  Num.truthy threshold = true → Num.ge mc threshold = true →
  ∃ text ok, (alertUser W tokenAddr mc userId st).2
             = [Alert userId tokenAddr mc text ok].
Proof.
  intros Hp Ht Htruthy Hge. unfold alertUser.
  rewrite (getPrefs_known _ _ _ Hp), Ht, Htruthy, Hge. simpl. eauto.
Qed.

Lemma checkToken_alerts_subscriber W tokenAddr d mc userId st prefs threshold :
  tokenMarketCap W tokenAddr = Some mc →
  userId ∈ users d →
  userPushPrefs st !! userId = Some prefs →
  mcUsdThreshold prefs = Some threshold →
  Num.truthy threshold = true → Num.ge mc threshold = true →
  ∃ text ok,
    Alert userId tokenAddr mc text ok ∈ (checkToken W (tokenAddr, d) st).2.
Proof.
  intros Hmc Hu Hp Ht Htruthy Hge. unfold checkToken. rewrite Hmc.
  exists (alertText (lang prefs) (default "Unknown" (symbol W tokenAddr))
            tokenAddr mc threshold).
  eexists.
  apply (for_each_emits (λ s, userPushPrefs s !! userId = Some prefs)
           _ _ _ userId); [| |done|done].
  - intros y s _ Hs. by apply alertUser_prefs_kept.
  - intros s Hs. unfold alertUser.
    rewrite (getPrefs_known _ _ _ Hs), Ht, Htruthy, Hge. simpl.
    apply list_elem_of_here.
Qed.

Lemma check_alerts_subscriber W now st tokenAddr d mc userId prefs threshold :
  MC_CHECK_INTERVAL ≤ now - lastMcCheck st →
  (tokenAddr, d) ∈ marketCapAlerts st →
  tokenMarketCap W tokenAddr = Some mc →
  userId ∈ users d →
  userPushPrefs st !! userId = Some prefs →
  mcUsdThreshold prefs = Some threshold →
  Num.truthy threshold = true → Num.ge mc threshold = true →
  ∃ text ok,
    Alert userId tokenAddr mc text ok ∈ (checkMarketCapAlerts W now st).2.
Proof.
  intros Hreal Hentry Hmc Hu Hp Ht Htruthy Hge.
  unfold checkMarketCapAlerts. rewrite (proj2 (Z.ltb_ge _ _) Hreal).
  set (st1 := set_lastMcCheck now st).
  destruct (checkToken_alerts_subscriber W tokenAddr d mc userId st1 prefs
              threshold Hmc Hu Hp Ht Htruthy Hge) as (text & ok & _).
  exists (alertText (lang prefs) (default "Unknown" (symbol W tokenAddr))
            tokenAddr mc threshold).
  eexists.
  assert (He : Alert userId tokenAddr mc
                 (alertText (lang prefs)
                    (default "Unknown" (symbol W tokenAddr)) tokenAddr mc
                    threshold)
                 (sendMessage W userId
                    (alertText (lang prefs)
                       (default "Unknown" (symbol W tokenAddr)) tokenAddr mc
                       threshold))
               ∈ (for_each (checkToken W) (marketCapAlerts st1) st1).2).
  { apply (for_each_emits (λ s, userPushPrefs s !! userId = Some prefs)
             _ _ _ (tokenAddr, d)); [| |done|done].
    - intros y s _ Hs. by apply checkToken_prefs_kept.
    - intros s Hs. unfold checkToken. rewrite Hmc.
      apply (for_each_emits (λ s, userPushPrefs s !! userId = Some prefs)
               _ _ _ userId); [| |done|done].
      + intros y s' _ Hs'. by apply alertUser_prefs_kept.
      + intros s' Hs'. unfold alertUser.
        rewrite (getPrefs_known _ _ _ Hs'), Ht, Htruthy, Hge. simpl.
        apply list_elem_of_here. }
  destruct (for_each _ _ st1) as [st2 t]. simpl in *. by right.
Qed.

(** C4: over any sequence of real check cycles, a subscriber of a token's
    entry whose threshold is set is alerted in every cycle in which the
    computed market cap is at or above the threshold; nothing a cycle does
    suppresses the alert of a later one. *)
Theorem alert_every_cycle (cs : list (World * Z)) st tokenAddr d userId prefs
    threshold :
  JsMap.get tokenAddr (marketCapAlerts st) = Some d →
  userId ∈ users d →
  userPushPrefs st !! userId = Some prefs →
  mcUsdThreshold prefs = Some threshold →
  Num.truthy threshold = true →
  spaced (lastMcCheck st) cs →
  Forall (λ c, ∃ mc, tokenMarketCap c.1 tokenAddr = Some mc
                     ∧ Num.ge mc threshold = true) cs →
  length (cycles cs st) = length cs
  ∧ Forall (λ t, ∃ mc text ok, Alert userId tokenAddr mc text ok ∈ t)
           (cycles cs st).
Proof.
  intros Hentry%JsMap_get_Some_elem Hu Hp Ht Htruthy.
  revert st Hentry Hp.
  induction cs as [|[W now] cs IH]; intros st Hentry Hp Hsp Hcond;
    [by split|].
  destruct Hsp as [Hreal Hsp].
  apply Forall_cons in Hcond as [(mc & Hmc & Hge) Hcond]. simpl in *.
  destruct (check_alerts_subscriber W now st tokenAddr d mc userId prefs
              threshold Hreal Hentry Hmc Hu Hp Ht Htruthy Hge)
    as (text & ok & Halert).
  pose proof (checkMarketCapAlerts_keeps W now st) as (_&_&_&Ha&Hk&_).
  destruct (checkMarketCapAlerts_real W now st Hreal) as [Hlast _].
  destruct (checkMarketCapAlerts W now st) as [st' t]. simpl in *.
  destruct (IH st') as [Hlen Hall]; [by rewrite Ha|by apply Hk| |done|].
  { by rewrite Hlast. }
  split; [by rewrite Hlen|]. constructor; [|done]. eauto.
Qed.

(** ** Enrichment *)

Lemma toText_nonempty v : toText v ≠ "".
Proof.
  unfold toText. destruct (String.eqb v "") eqn:He; simpl; [done|].
  destruct (Str.blank v); simpl; [done|].
  by apply String.eqb_neq in He.
Qed.

Lemma toText_value v : v ≠ "" → Str.blank v = false → toText v = v.
Proof.
  intros Hne Hb. unfold toText.
  by rewrite (proj2 (String.eqb_neq _ _) Hne), Hb.
Qed.

Lemma toText_blank v : Str.blank v = true → toText v = unset.
Proof. intros Hb. unfold toText. rewrite Hb. by rewrite andb_false_r. Qed.

Lemma blank_empty : Str.blank "" = true.
Proof. done. Qed.

Lemma shown_enrich W addr f :
  shown (enrich W addr) f =
    match fetched W addr f with
    | None => unset
    | Some v => if bool_decide (f = f_decimals) then v else toText v
    end.
Proof.
  destruct f; simpl; unfold caught;
    by match goal with |- context [default _ ?r] => destruct r end
    || by destruct (decimals W addr).
Qed.

(** C7 (as amended): each of the six fields of a notice is determined by
    its own read alone. A read that fails shows the field as unset; a read
    that succeeds shows the value read, unless that value is an empty or
    white-space-only string, which is shown as unset as well. Enrichment
    never fails as a whole: the notice is built and carries every field on
    its line. *)
Theorem enrichment_per_field W addr f :
  (fetched W addr f = None → shown (enrich W addr) f = unset)
  ∧ (∀ v, fetched W addr f = Some v →
          f = f_decimals ∨ (v ≠ "" ∧ Str.blank v = false) →
          shown (enrich W addr) f = v)
  ∧ (∀ v, fetched W addr f = Some v →
          f ≠ f_decimals → Str.blank v = true →
          shown (enrich W addr) f = unset)
  ∧ (∀ l amount,
       label l f +:+ shown (enrich W addr) f
         ∈ deployedLines l addr amount (enrich W addr)).
Proof.
  rewrite shown_enrich. split_and!.
  - by intros ->.
  - intros v -> [->|[Hne Hb]]; [done|].
    case_bool_decide; [done|]. by apply toText_value.
  - intros v -> Hf Hb. rewrite bool_decide_eq_false_2 by done.
    by apply toText_blank.
  - intros l amount. rewrite <- shown_enrich.
    destruct l, f; simpl; set_solver.
Qed.

(** ** Media-link filter *)

Lemma hasMedia_enrich W addr :
  hasMedia (enrich W addr) = false ↔
  web (enrich W addr) = unset ∧ tg (enrich W addr) = unset
  ∧ tw (enrich W addr) = unset.
Proof.
  unfold hasMedia. simpl.
  rewrite !(proj2 (String.eqb_neq _ _) (toText_nonempty _)). simpl.
  rewrite orb_false_r, !orb_false_iff, !negb_false_iff, !String.eqb_eq.
  tauto.
Qed.

Lemma notifyUser_known W now addr amount m uid st prefs :
  userPushPrefs st !! uid = Some prefs →
  (notifyUser W now addr amount m uid st).2 =
    if requireMediaLink prefs && negb (hasMedia m) then []
    else [Notify uid addr amount (deployedText (lang prefs) addr amount m)
            (sendMessage W uid (deployedText (lang prefs) addr amount m))].
Proof.
  intros Hp. unfold notifyUser. rewrite (getPrefs_known _ _ _ Hp).
  by repeat case_match.
Qed.

Lemma notify_loop_count W now addr amount m l st uid prefs :
  NoDup l → uid ∈ l → userPushPrefs st !! uid = Some prefs →
  deliveries uid addr amount (for_each (notifyUser W now addr amount m) l st).2
  = if requireMediaLink prefs && negb (hasMedia m) then 0%nat else 1%nat.
Proof.
  revert st. induction l as [|x l IH]; intros st Hnd Hin Hp.
  - by apply not_elem_of_nil in Hin.
  - apply NoDup_cons in Hnd as [Hx Hnd].
    rewrite for_each_cons. simpl. rewrite deliveries_app.
    destruct (decide (x = uid)) as [->|Hne].
    + rewrite notify_loop_absent by done.
      rewrite (notifyUser_known _ _ _ _ _ _ _ _ Hp).
      case_match; [done|]. unfold deliveries. simpl.
      by rewrite !bool_decide_eq_true_2.
    + apply elem_of_cons in Hin as [->|Hin]; [done|].
      rewrite (IH _ Hnd Hin) by by apply notifyUser_prefs_kept.
      destruct (notifyUser_trace W now addr amount m x st) as [->|(?&?&->)];
        [done|].
      unfold deliveries. simpl.
      by rewrite (bool_decide_eq_false_2 (x = uid)).
Qed.

Lemma run_NoDup_subscribers rs : NoDup (subscribedUsers (run rs initial).1).
Proof.
  pose proof (dedup_inv_run rs initial [] dedup_inv_initial) as (Hnd & _).
  done.
Qed.

(** C6: when a new event is fanned out in a reachable state, a subscriber
    who requires a media link gets no delivery attempt if website, telegram
    and twitter are all unset, and exactly one (the notice in the
    subscriber's language, delivered if the send succeeds) if at least one
    of the three has a value. *)
Theorem media_link_filter (rs : list Request) W now addr amount uid prefs :
  let st := (run rs initial).1 in
  let m := enrich W addr in
  let t := (processLog W now (Deployed addr amount) st).2 in
  dedupKey addr amount ∉ sentKeys st →
  uid ∈ subscribedUsers st →
  userPushPrefs st !! uid = Some prefs →
  requireMediaLink prefs = true →
  (web m = unset ∧ tg m = unset ∧ tw m = unset →
     deliveries uid addr amount t = 0%nat)
  ∧ (web m ≠ unset ∨ tg m ≠ unset ∨ tw m ≠ unset →
       deliveries uid addr amount t = 1%nat
       ∧ Notify uid addr amount (deployedText (lang prefs) addr amount m)
           (sendMessage W uid (deployedText (lang prefs) addr amount m)) ∈ t).
Proof.
  intros st m t Hfresh Hin Hp Hreq. subst t. unfold processLog.
  rewrite bool_decide_eq_false_2 by done.
  set (st1 := set_sentKeys ({[dedupKey addr amount]} ∪ sentKeys st) st).
  pose proof (notify_loop_count W now addr amount m (subscribedUsers st1) st1
                uid prefs (run_NoDup_subscribers rs) Hin Hp) as Hcount.
  pose proof (for_each_emits (λ s, userPushPrefs s !! uid = Some prefs)
    (notifyUser W now addr amount m) (subscribedUsers st1) st1 uid) as Hemit.
  fold m. destruct (for_each _ _ st1) as [st2 sends]. simpl in *.
  rewrite Hreq in Hcount. simpl in Hcount.
  change (KeyRecorded (dedupKey addr amount) :: Enrich addr amount :: sends)
    with ([KeyRecorded (dedupKey addr amount); Enrich addr amount] ++ sends).
  rewrite deliveries_app.
  change (deliveries uid addr amount
            [KeyRecorded (dedupKey addr amount); Enrich addr amount])
    with 0%nat. simpl.
  split.
  - intros Hall%hasMedia_enrich. fold m in Hall. by rewrite Hall in Hcount.
  - intros Hsome.
    assert (Hm : hasMedia m = true).
    { destruct (hasMedia m) eqn:Hh; [done|].
      apply hasMedia_enrich in Hh. tauto. }
    rewrite Hm in Hcount. split; [done|].
    right. right. apply Hemit; [| |done|done].
    + intros y s _ Hs. by apply notifyUser_prefs_kept.
    + intros s Hs. rewrite (notifyUser_known _ _ _ _ _ _ _ _ Hs), Hreq, Hm.
      apply list_elem_of_here.
Qed.

(** ** Market capitalisation *)

(** *** Exact quotients *)

Lemma digits2_size p : digits2_pos p = Pos.size p.
Proof. induction p; simpl; congruence. Qed.

Lemma digits2_log2 p : Z.pos (digits2_pos p) = Z.log2 (Z.pos p) + 1.
Proof. rewrite digits2_size. destruct p; simpl; lia. Qed.

Lemma iter_pos_nat {A} (f : A → A) p x :
  SpecFloat.iter_pos f p x = Nat.iter (Pos.to_nat p) f x.
Proof.
  revert x. induction p as [p IH|p IH|]; intros x; cbn [SpecFloat.iter_pos].
  - rewrite !IH, Pos2Nat.inj_xI.
    replace (S (2 * Pos.to_nat p))%nat
      with (Pos.to_nat p + (Pos.to_nat p + 1))%nat by lia.
    by rewrite !Nat.iter_add.
  - rewrite !IH, Pos2Nat.inj_xO.
    replace (2 * Pos.to_nat p)%nat
      with (Pos.to_nat p + Pos.to_nat p)%nat by lia.
    by rewrite Nat.iter_add.
  - done.
Qed.

Lemma shr_1_even m :
  0 ≤ m →
  shr_1 (Build_shr_record (2 * m) false false)
  = Build_shr_record m false false.
Proof. intros Hm. destruct m as [|p|p]; [done|done|lia]. Qed.

Lemma shr_exact (n : nat) m :
  0 ≤ m →
  Nat.iter n shr_1 (Build_shr_record (m * 2 ^ Z.of_nat n) false false)
  = Build_shr_record m false false.
Proof.
  intros Hm. revert m Hm. induction n as [|n IH]; intros m Hm.
  - simpl. f_equal. lia.
  - rewrite Nat.iter_succ_r.
    replace (m * 2 ^ Z.of_nat (S n)) with (2 * (m * 2 ^ Z.of_nat n))
      by (rewrite Nat2Z.inj_succ, Z.pow_succ_r; lia).
    rewrite shr_1_even by nia. by apply IH.
Qed.

(** A canonical mantissa shifted left by [k] places, with the exponent
    lowered by [k], is rounded to the canonical pair: nothing is lost. *)
Lemma round_canonical sx m e k :
  0 ≤ k →
  SpecFloat.fexp Num.prec Num.emax (Z.pos (digits2_pos m) + e) = e →
  e ≤ Num.emax - Num.prec →
  binary_round_aux Num.prec Num.emax sx (Z.pos m * 2 ^ k) (e - k) loc_Exact
  = S754_finite sx m e.
Proof.
  intros Hk Hc He. unfold binary_round_aux.
  assert (Hd : Zdigits2 (Z.pos m * 2 ^ k) = Z.pos (digits2_pos m) + k).
  { assert (0 < 2 ^ k) by (apply Z.pow_pos_nonneg; lia).
    destruct (Z.pos m * 2 ^ k) as [|p|p] eqn:Hp; [lia| |lia].
    simpl. rewrite !digits2_log2, <- Hp, Z.log2_mul_pow2 by lia. lia. }
  assert (H1 : shr_fexp Num.prec Num.emax (Z.pos m * 2 ^ k) (e - k) loc_Exact
               = (Build_shr_record (Z.pos m) false false, e)).
  { unfold shr_fexp. rewrite Hd.
    replace (Z.pos (digits2_pos m) + k + (e - k))
      with (Z.pos (digits2_pos m) + e) by lia.
    rewrite Hc. replace (e - (e - k)) with k by lia.
    unfold shr, shr_record_of_loc. destruct k as [|p|p]; [|  |lia].
    - f_equal; [f_equal; lia|lia].
    - rewrite iter_pos_nat. rewrite <- (positive_nat_Z p) at 1.
      rewrite shr_exact by lia. f_equal. lia. }
  rewrite H1. cbn [shr_m loc_of_shr_record round_nearest_even].
  assert (H2 : shr_fexp Num.prec Num.emax (Z.pos m) e loc_Exact
               = (Build_shr_record (Z.pos m) false false, e)).
  { unfold shr_fexp. cbn [Zdigits2]. rewrite Hc, Z.sub_diag. done. }
  rewrite H2. cbn [shr_m]. by rewrite (proj2 (Z.leb_le _ _) He).
Qed.

Lemma iter_xO m d : Pos.iter xO m d = (m * 2 ^ d)%positive.
Proof.
  induction d as [|d IH] using Pos.peano_ind; [cbn; lia|].
  rewrite Pos.iter_succ, IH, Pos.pow_succ_r. lia.
Qed.

Lemma shl_align_spec mx ex ex' :
  ex' ≤ ex →
  ∃ mz, shl_align mx ex ex' = (mz, ex')
        ∧ Z.pos mz = Z.pos mx * 2 ^ (ex - ex').
Proof.
  intros Hle. unfold shl_align.
  destruct (ex' - ex) as [|d|d] eqn:Hd; [|lia|].
  - exists mx. assert (ex' = ex) as -> by lia.
    split; [done|]. rewrite Z.sub_diag. lia.
  - exists (Pos.iter xO mx d). split; [done|].
    replace (ex - ex') with (Z.pos d) by lia.
    by rewrite iter_xO, Pos2Z.inj_mul, Pos2Z.inj_pow.
Qed.

(** The canonical form of an integer below [2^53]: it is what [of_Z]
    returns. *)
Lemma of_Z_canonical p :
  Z.pos p < 2 ^ 53 →
  ∃ m e, Num.of_Z (Z.pos p) = S754_finite false m e
         ∧ e ≤ 0
         ∧ Z.pos m = Z.pos p * 2 ^ (- e)
         ∧ e = Z.pos (digits2_pos p) - 53
         ∧ SpecFloat.fexp Num.prec Num.emax (Z.pos (digits2_pos m) + e) = e.
Proof.
  intros Hp.
  assert (Hdq : 1 ≤ Z.pos (digits2_pos p) ≤ 53).
  { rewrite digits2_log2. pose proof (Z.log2_nonneg (Z.pos p)).
    assert (Z.log2 (Z.pos p) < 53) by (apply Z.log2_lt_pow2; lia). lia. }
  set (e := Z.pos (digits2_pos p) - 53).
  assert (Hf : SpecFloat.fexp Num.prec Num.emax (Z.pos (digits2_pos p) + 0)
               = e).
  { unfold SpecFloat.fexp, emin, Num.prec, Num.emax, e. lia. }
  destruct (shl_align_spec p 0 e ltac:(unfold e; lia)) as (mz & Hs & Hmz).
  assert (Hc : SpecFloat.fexp Num.prec Num.emax (Z.pos (digits2_pos mz) + e)
               = e).
  { replace (Z.pos (digits2_pos mz) + e) with (Z.pos (digits2_pos p) + 0);
      [exact Hf|].
    rewrite (digits2_log2 mz), Hmz, Z.log2_mul_pow2 by (unfold e; lia).
    rewrite (digits2_log2 p). lia. }
  exists mz, e. split_and!; [|unfold e; lia|by rewrite Hmz|done|done].
  unfold Num.of_Z, binary_normalize, binary_round. rewrite Hf, Hs.
  pose proof (round_canonical false mz e 0 ltac:(done) Hc) as Hr.
  rewrite Z.mul_1_r, Z.sub_0_r in Hr. apply Hr.
  unfold e, Num.emax, Num.prec. lia.
Qed.

(** Division is exact where the quotient is an integer below [2^53]. *)
Lemma div_exact (p t : positive) :
  Z.pos p < 2 ^ 53 →
  SFdiv Num.prec Num.emax (S754_finite false (p * t) 0) (S754_finite false t 0)
  = Num.of_Z (Z.pos p).
Proof.
  intros Hp.
  destruct (of_Z_canonical p Hp) as (m & e & -> & He0 & Hm & He & Hc).
  unfold SFdiv, SFdiv_core_binary. cbn [xorb Zdigits2].
  rewrite !Z.add_0_r, Z.sub_0_r.
  set (e' := Z.min _ 0).
  assert (He' : e' ≤ e).
  { unfold e'. rewrite !digits2_log2, Pos2Z.inj_mul.
    pose proof (Z.log2_mul_above (Z.pos p) (Z.pos t) ltac:(lia) ltac:(lia)).
    rewrite He, digits2_log2.
    pose proof (Z.log2_nonneg (Z.pos p)).
    unfold SpecFloat.fexp, emin, Num.prec, Num.emax. lia. }
  assert (Hm' : match 0 - e' with
                | 0 => Z.pos (p * t)
                | Z.pos _ => Z.shiftl (Z.pos (p * t)) (0 - e')
                | Z.neg _ => 0
                end = Z.pos p * 2 ^ (- e') * Z.pos t).
  { destruct (0 - e') as [|s|s] eqn:Hs; [| |lia].
    - replace (- e') with 0 by lia. lia.
    - rewrite Z.shiftl_mul_pow2 by lia.
      replace (- e') with (Z.pos s) by lia. lia. }
  rewrite Hm'.
  destruct (Z.div_eucl _ (Z.pos t)) as [q r] eqn:Hqr.
  assert (q = Z.pos p * 2 ^ (- e')) as ->
    by (rewrite <- (Z.div_mul (Z.pos p * 2 ^ (- e')) (Z.pos t)) by lia;
        unfold Z.div; by rewrite Hqr).
  assert (r = 0) as ->
    by (rewrite <- (Z.mod_mul (Z.pos p * 2 ^ (- e')) (Z.pos t)) by lia;
        unfold Z.modulo; by rewrite Hqr).
  assert (new_location (Z.pos t) 0 = loc_Exact) as ->
    by (unfold new_location; by destruct (Z.even _)).
  replace (Z.pos p * 2 ^ (- e')) with (Z.pos m * 2 ^ (e - e')).
  - replace e' with (e - (e - e')) at 2 by lia.
    apply round_canonical; [lia|done|].
    unfold Num.emax, Num.prec. lia.
  - rewrite Hm, <- Z.mul_assoc, <- Z.pow_add_r by lia. do 2 f_equal. lia.
Qed.

Lemma scaled_exact (q d : N) :
  (q < 2 ^ 53)%N → Num.scaled (q * 10 ^ d) d = Num.of_Z (Z.of_N q).
Proof.
  intros Hq. unfold Num.scaled.
  assert (Ht : (10 ^ d ≠ 0)%N) by (apply N.pow_nonzero; lia).
  destruct (10 ^ d)%N as [|t] eqn:Et; [done|].
  destruct q as [|p]; [done|].
  cbn [N.mul Num.exact Z.of_N]. apply div_exact. lia.
Qed.

(** *** The check of one token *)

Lemma div_zero_falsy y : Num.truthy (Num.div (S754_zero false) y) = false.
Proof. by destruct y. Qed.

Lemma of_ether_zero : Num.of_ether 0 = S754_zero false.
Proof. by vm_compute. Qed.

Lemma checkToken_skipped W tokenAddr d st :
  tokenMarketCap W tokenAddr = None → checkToken W (tokenAddr, d) st = (st, []).
Proof. intros Hmc. unfold checkToken. by rewrite Hmc. Qed.

(** C3 (as amended): for a token of at most 80 decimals, the slot whose
    address equals the reference asset, compared in lower case, gives the
    price as reference reserve over token reserve (slot 0 first), and the
    market cap is the supply divided by ten to the decimals, rounded once,
    times that price: for a supply of [q] whole tokens it is [q] times the
    price. The token is skipped when neither slot is the reference asset
    or a reserve is zero (and whenever the price is not a non-zero
    number), and also when it has more than 80 decimals, where the
    conversion of the supply throws. On the worked example the price is 2
    and the market cap 20000, in whatever number of decimals up to 80 the
    supply of 10000 is expressed. *)
Theorem market_cap_formula W tokenAddr reserve0 reserve1 t0 t1 supply dec :
  getReserves W tokenAddr = Some (reserve0, reserve1) →
  token0 W tokenAddr = Some t0 →
  token1 W tokenAddr = Some t1 →
  totalSupply W tokenAddr = Some supply →
  decimals W tokenAddr = Some dec →
  let ref0 := Str.toLowerCase t0 = Str.toLowerCase WOKB_ADDR in
  let ref1 := Str.toLowerCase t1 = Str.toLowerCase WOKB_ADDR in
  let cap price :=
    if Num.truthy price && (dec <=? 80)%N
    then Some (Num.mul (Num.scaled supply dec) price) else None in
  (ref0 → reserve1 ≠ 0%N →
     priceInWOKB W tokenAddr
       = Some (Some (Num.div (Num.of_ether reserve0) (Num.of_ether reserve1)))
     ∧ tokenMarketCap W tokenAddr
       = cap (Num.div (Num.of_ether reserve0) (Num.of_ether reserve1)))
  ∧ (¬ ref0 → ref1 → reserve0 ≠ 0%N →
       priceInWOKB W tokenAddr
         = Some (Some (Num.div (Num.of_ether reserve1) (Num.of_ether reserve0)))
       ∧ tokenMarketCap W tokenAddr
         = cap (Num.div (Num.of_ether reserve1) (Num.of_ether reserve0)))
  ∧ (∀ q price,
       (dec ≤ 80)%N → (q < 2 ^ 53)%N → supply = (q * 10 ^ dec)%N →
       priceInWOKB W tokenAddr = Some (Some price) →
       Num.truthy price = true →
       tokenMarketCap W tokenAddr
       = Some (Num.mul (Num.of_Z (Z.of_N q)) price))
  ∧ ((¬ ref0 ∧ ¬ ref1)
     ∨ (ref0 ∧ (reserve0 = 0%N ∨ reserve1 = 0%N))
     ∨ (¬ ref0 ∧ ref1 ∧ (reserve0 = 0%N ∨ reserve1 = 0%N))
     ∨ (80 < dec)%N →
     tokenMarketCap W tokenAddr = None
     ∧ ∀ d st, checkToken W (tokenAddr, d) st = (st, []))
  ∧ (ref0 → reserve0 = 1000%N → reserve1 = 500%N →
     (dec ≤ 80)%N → supply = (10000 * 10 ^ dec)%N →
     priceInWOKB W tokenAddr = Some (Some (Num.of_Z 2))
     ∧ tokenMarketCap W tokenAddr = Some (Num.of_Z 20000)).
Proof.
  intros Hres Ht0 Ht1 Hsup Hdec ref0 ref1 cap.
  assert (Hprice : priceInWOKB W tokenAddr =
    Some (if String.eqb (Str.toLowerCase t0) (Str.toLowerCase WOKB_ADDR) then
            if (0 <? reserve1)%N
            then Some (Num.div (Num.of_ether reserve0) (Num.of_ether reserve1))
            else None
          else if String.eqb (Str.toLowerCase t1) (Str.toLowerCase WOKB_ADDR)
          then
            if (0 <? reserve0)%N
            then Some (Num.div (Num.of_ether reserve1) (Num.of_ether reserve0))
            else None
          else None))
    by (unfold priceInWOKB; by rewrite Hres, Ht0, Ht1).
  assert (Hcap : ∀ price, priceInWOKB W tokenAddr = Some (Some price) →
                          tokenMarketCap W tokenAddr = cap price).
  { intros price Hp. unfold tokenMarketCap, marketCapUSD, Num.of_units, cap.
    rewrite Hp, Hsup, Hdec, N.leb_antisym. simpl.
    by destruct (Num.truthy price), (80 <? dec)%N. }
  assert (Hfirst : ref0 → reserve1 ≠ 0%N →
    priceInWOKB W tokenAddr
      = Some (Some (Num.div (Num.of_ether reserve0) (Num.of_ether reserve1)))).
  { intros H0 Hr. rewrite Hprice.
    rewrite (proj2 (String.eqb_eq _ _) H0).
    by rewrite (proj2 (N.ltb_lt 0 reserve1)) by lia. }
  assert (Hsecond : ¬ ref0 → ref1 → reserve0 ≠ 0%N →
    priceInWOKB W tokenAddr
      = Some (Some (Num.div (Num.of_ether reserve1) (Num.of_ether reserve0)))).
  { intros H0 H1 Hr. rewrite Hprice.
    rewrite (proj2 (String.eqb_neq _ _) H0), (proj2 (String.eqb_eq _ _) H1).
    by rewrite (proj2 (N.ltb_lt 0 reserve0)) by lia. }
  assert (Hwhole : ∀ q price,
    (dec ≤ 80)%N → (q < 2 ^ 53)%N → supply = (q * 10 ^ dec)%N →
    priceInWOKB W tokenAddr = Some (Some price) →
    Num.truthy price = true →
    tokenMarketCap W tokenAddr = Some (Num.mul (Num.of_Z (Z.of_N q)) price)).
  { intros q price Hd Hq -> Hp Htruthy. rewrite (Hcap _ Hp). unfold cap.
    rewrite Htruthy, (proj2 (N.leb_le _ _) Hd). simpl.
    by rewrite scaled_exact. }
  split_and!.
  - intros H0 Hr. split; [by apply Hfirst|]. by apply Hcap, Hfirst.
  - intros H0 H1 Hr. split; [by apply Hsecond|]. by apply Hcap, Hsecond.
  - exact Hwhole.
  - intros Hskip.
    assert (Hnone : tokenMarketCap W tokenAddr = None).
    { destruct Hskip as [[H0 H1]|[[H0 Hz]|[(H0 & H1 & Hz)|Hd]]].
      - unfold tokenMarketCap. rewrite Hprice.
        by rewrite (proj2 (String.eqb_neq _ _) H0),
                   (proj2 (String.eqb_neq _ _) H1).
      - destruct (decide (reserve1 = 0%N)) as [->|Hr].
        + unfold tokenMarketCap. rewrite Hprice.
          by rewrite (proj2 (String.eqb_eq _ _) H0).
        + destruct Hz as [->|Hz]; [|done].
          rewrite (Hcap _ (Hfirst H0 Hr)). unfold cap.
          by rewrite of_ether_zero, div_zero_falsy.
      - destruct (decide (reserve0 = 0%N)) as [->|Hr].
        + unfold tokenMarketCap. rewrite Hprice.
          by rewrite (proj2 (String.eqb_neq _ _) H0),
                     (proj2 (String.eqb_eq _ _) H1).
        + destruct Hz as [Hz| ->]; [done|].
          rewrite (Hcap _ (Hsecond H0 H1 Hr)). unfold cap.
          by rewrite of_ether_zero, div_zero_falsy.
      - destruct (priceInWOKB W tokenAddr) as [[price|]|] eqn:Hp;
          [|by unfold tokenMarketCap; rewrite Hp..].
        rewrite (Hcap _ eq_refl). unfold cap.
        rewrite (proj2 (N.leb_gt _ _) Hd). by rewrite andb_false_r. }
    split; [done|]. intros d st. by apply checkToken_skipped.
  - intros H0 -> -> Hd ->.
    assert (Hp : priceInWOKB W tokenAddr = Some (Some (Num.of_Z 2)))
      by (rewrite Hfirst by done; by vm_compute).
    split; [done|].
    rewrite (Hwhole 10000%N (Num.of_Z 2) Hd ltac:(done) eq_refl Hp eq_refl).
    by vm_compute.
Qed.

(** ** Threshold input *)

Lemma onReply_rejected uid n now st :
  Num.isFinite n = false ∨ Num.le n Num.zero = true →
  (onReply uid n now st).1 = (getPrefs uid st).2
  ∧ ∃ text, (onReply uid n now st).2 = [Reply uid text]
            ∧ (text = "请输入正整数" ∨ text = "Please enter a positive integer").
Proof.
  intros Hrej. unfold onReply. destruct (getPrefs uid st) as [prefs st1].
  assert (Hc : negb (Num.isFinite n) || Num.le n Num.zero = true)
    by (destruct Hrej as [-> | ->]; [done|by rewrite orb_true_r]).
  rewrite Hc. simpl. split; [done|].
  eexists. split; [done|]. destruct (lang prefs); auto.
Qed.

Lemma onReply_stored uid n now st :
  Num.isFinite n = true → Num.le n Num.zero = false →
  userPushPrefs (onReply uid n now st).1 !! uid
  = Some (mkPrefs (requireMediaLink (getPrefs uid st).1)
                  (Some (Num.floor n)) (lang (getPrefs uid st).1)).
Proof.
  intros Hfin Hpos. unfold onReply.
  destruct (getPrefs uid st) as [prefs st1]. rewrite Hfin, Hpos. simpl.
  set (st2 := putPrefs uid _ st1).
  pose proof (for_each_state
    (λ s, userPushPrefs s = userPushPrefs st2)
    (enrolExisting uid now) (marketCapAlerts st2) st2) as Hloop.
  destruct (for_each _ _ st2) as [st3 added]. simpl in *.
  rewrite Hloop; [apply lookup_insert_eq| |done].
  intros [k d] s _ <-. unfold enrolExisting.
  repeat case_match; simpl; try done. apply addToMarketCapAlerts_prefs.
Qed.

(** C9, on the input 0.5: the reply is accepted ([0.5] is finite and
    greater than 0) and the threshold stored is [Math.floor(0.5) = 0], which
    is not a positive integer and reads as no threshold at all. *)
Theorem threshold_half_stores_zero uid now st :
  let half := S754_finite false 1 (-1) in
  Num.isFinite half = true ∧ Num.le half Num.zero = false
  ∧ (mcUsdThreshold <$> userPushPrefs (onReply uid half now st).1 !! uid)
    = Some (Some (S754_zero false))
  ∧ Num.positive (S754_zero false) = false
  ∧ (thresholdSet <$> userPushPrefs (onReply uid half now st).1 !! uid)
    = Some false.
Proof.
  intros half. split_and!; try done.
  - by rewrite onReply_stored.
  - by rewrite onReply_stored.
Qed.


(** ** Further properties of the pipeline *)

Lemma processLog_keys W now log st :
  sentKeys st ⊆ sentKeys (processLog W now log st).1
  ∧ subscribedUsers (processLog W now log st).1 = subscribedUsers st.
Proof.
  unfold processLog. destruct log as [addr amount|]; [|done].
  case_bool_decide; [done|].
  set (st1 := set_sentKeys ({[dedupKey addr amount]} ∪ sentKeys st) st).
  pose proof (for_each_notifyUser_frame W now addr amount (enrich W addr)
                (subscribedUsers st1) st1) as (Hu & _ & _ & Hs).
  destruct (for_each _ _ st1) as [st2 t]. simpl in *.
  split; [rewrite Hs; apply union_subseteq_r|done].
Qed.

Lemma onBlock_keys W bn now st :
  sentKeys st ⊆ sentKeys (onBlock W bn now st).1.
Proof.
  unfold onBlock.
  set (st0 := if lastProcessed st =? 0 then set_lastProcessed (bn - 1) st
              else st).
  assert (Hs0 : sentKeys st ⊆ sentKeys st0) by (subst st0; by case_match).
  case_match; [done|].
  destruct (getLogs W _ bn) as [logs|]; [|done].
  pose proof (for_each_state (λ s, sentKeys st ⊆ sentKeys s)
    (processLog W now) logs st0) as Hl.
  destruct (for_each _ logs st0) as [st1 t]. simpl in *.
  apply Hl; [|done].
  intros x s _ Hs. etrans; [exact Hs|apply processLog_keys].
Qed.

(** X2: once recorded, a key stays recorded: no handler removes an element
    of [sentKeys], whatever fails. *)
Lemma sentKeys_never_shrinks (rs : list Request) st :
  sentKeys st ⊆ sentKeys (run rs st).1.
Proof.
  unfold run. apply (for_each_state (λ s, sentKeys st ⊆ sentKeys s)); [|done].
  intros r s _ Hs. etrans; [exact Hs|].
  destruct r as [uid|uid|uid l|uid data|uid n now|W bn now|W now]; simpl.
  - by destruct (getPrefs_frame uid
      (set_subscribedUsers (JsSet.add uid (subscribedUsers s)) s))
      as (_&_&_&->).
  - by destruct (getPrefs_frame uid s) as (_&_&_&->).
  - by destruct (setLang_frame uid l s) as (_&_&_&->).
  - by destruct (onCallback_frame uid data s) as (_&_&_&->).
  - by destruct (onReply_frame uid n now s) as (_&_&_&->).
  - apply onBlock_keys.
  - by destruct (checkMarketCapAlerts_keeps W now s) as (_&->&_).
Qed.

(** X5: a height at or below the cursor is not scanned again: the signal
    is a no-op, without a query. *)
Lemma onBlock_no_rescan W bn now st :
  lastProcessed st ≠ 0 → bn ≤ lastProcessed st →
  onBlock W bn now st = (st, []).
Proof.
  intros Hc Hle. unfold onBlock.
  rewrite (proj2 (Z.eqb_neq _ _) Hc).
  by rewrite (proj2 (Z.gtb_gt (lastProcessed st + 1) bn)) by lia.
Qed.

(** X7: a rejected reply changes no stored threshold. *)
Lemma onReply_rejected_thresholds uid n now st u :
  Num.isFinite n = false ∨ Num.le n Num.zero = true →
  userPushPrefs (onReply uid n now st).1 !! u ≫= mcUsdThreshold
  = userPushPrefs st !! u ≫= mcUsdThreshold.
Proof.
  intros Hrej. destruct (onReply_rejected uid n now st Hrej) as [-> _].
  unfold getPrefs. destruct (userPushPrefs st !! uid) eqn:Hid; [done|].
  simpl. destruct (decide (uid = u)) as [<-|Hne].
  - by rewrite lookup_insert_eq, Hid.
  - by rewrite lookup_insert_ne.
Qed.

(** X6: the fan-out of a new event reaches every subscriber the filter lets
    through exactly once, whatever the sends to the others do. *)
Lemma fanout_isolated (rs : list Request) W now addr amount uid prefs :
  let st := (run rs initial).1 in
  dedupKey addr amount ∉ sentKeys st →
  uid ∈ subscribedUsers st →
  userPushPrefs st !! uid = Some prefs →
  deliveries uid addr amount (processLog W now (Deployed addr amount) st).2
  = if requireMediaLink prefs && negb (hasMedia (enrich W addr))
    then 0%nat else 1%nat.
Proof.
  intros st Hfresh Hin Hp. unfold processLog.
  rewrite bool_decide_eq_false_2 by done.
  set (st1 := set_sentKeys ({[dedupKey addr amount]} ∪ sentKeys st) st).
  pose proof (notify_loop_count W now addr amount (enrich W addr)
    (subscribedUsers st1) st1 uid prefs (run_NoDup_subscribers rs) Hin Hp)
    as Hcount.
  destruct (for_each _ _ st1) as [st2 sends]. simpl in *.
  change (KeyRecorded (dedupKey addr amount) :: Enrich addr amount :: sends)
    with ([KeyRecorded (dedupKey addr amount); Enrich addr amount] ++ sends).
  by rewrite deliveries_app.
Qed.

(** *** The dedup key determines the event *)

Lemma pretty_N_char_colon x : pretty_N_char x ≠ colon.
Proof. unfold pretty_N_char. by repeat case_match. Qed.

Lemma pretty_N_go_colon_free x s : colon_free s → colon_free (pretty_N_go x s).
Proof.
  revert s. induction (N.lt_wf_0 x) as [x _ IH]; intros s Hs.
  assert (x = 0 ∨ 0 < x)%N as [->|Hx] by lia; [by rewrite pretty_N_go_0|].
  rewrite pretty_N_go_step by done. apply IH; [by apply N.div_lt|].
  split; [apply pretty_N_char_colon|done].
Qed.

Lemma pretty_N_colon_free (x : N) : colon_free (pretty x).
Proof.
  unfold pretty, pretty_N. case_decide.
  - by split.
  - by apply pretty_N_go_colon_free.
Qed.

Lemma colon_free_app a p : colon_free (a +:+ String colon p) → False.
Proof.
  induction a as [|c a IH]; simpl; [by intros [? _]|]. intros [_ ?]. auto.
Qed.

Lemma key_split a a' p p' :
  colon_free p → colon_free p' →
  a +:+ String colon p = a' +:+ String colon p' → a = a' ∧ p = p'.
Proof.
  intros Hp Hp'. revert a'. induction a as [|c a IH]; intros [|c' a']; simpl.
  - by intros [= ->].
  - intros [= <- ->]. by apply colon_free_app in Hp.
  - intros [= -> <-]. by apply colon_free_app in Hp'.
  - intros [= -> Hrest]. by destruct (IH a' Hrest) as [-> ->].
Qed.

Lemma dedupKey_eq addr amount addr' amount' :
  dedupKey addr amount = dedupKey addr' amount' →
  addr = addr' ∧ amount = amount'.
Proof.
  unfold dedupKey.
  change (addr +:+ String colon (pretty amount)
          = addr' +:+ String colon (pretty amount') →
          addr = addr' ∧ amount = amount').
  intros Hk.
  apply key_split in Hk as [-> Hp]; auto using pretty_N_colon_free.
  split; [done|]. by apply (inj pretty).
Qed.

(** X3: different (address, amount) pairs have different keys, so a
    recorded key suppresses no other event. *)
Lemma dedupKey_inj addr amount addr' amount' :
  (addr, amount) ≠ (addr', amount') →
  dedupKey addr amount ≠ dedupKey addr' amount'.
Proof. intros Hne Hk. apply dedupKey_eq in Hk as [-> ->]. done. Qed.

(** ** Interleaved block handlers *)

Lemma deliveries_neutral uid a m t t' :
  Forall (λ e, concerns e = None) t' →
  deliveries uid a m (t ++ t') = deliveries uid a m t.
Proof.
  intros Hn. rewrite deliveries_app, (deliveries_none _ _ _ t'); [lia|].
  rewrite Forall_forall in Hn. intros e He. by rewrite (Hn e He).
Qed.

Lemma enrichments_neutral a m t t' :
  Forall (λ e, concerns e = None) t' →
  enrichments a m (t ++ t') = enrichments a m t.
Proof.
  intros Hn. rewrite enrichments_app, (enrichments_none _ _ t'); [lia|].
  rewrite Forall_forall in Hn. intros e He. by rewrite (Hn e He).
Qed.

Lemma enrichments_notice a m u a' m' text ok t :
  enrichments a m (t ++ [Notify u a' m' text ok]) = enrichments a m t.
Proof. rewrite enrichments_app. unfold enrichments at 2. simpl. lia. Qed.

Lemma enrichments_fresh a m a' m' t :
  enrichments a' m' (t ++ [KeyRecorded (dedupKey a m); Enrich a m])
  = (enrichments a' m' t
     + if bool_decide ((a, m) = (a', m')) then 1 else 0)%nat.
Proof.
  rewrite enrichments_app. f_equal. unfold enrichments. simpl.
  destruct (bool_decide (a = a')) eqn:Ha;
    destruct (bool_decide (m = m')) eqn:Hm; simpl;
    [apply bool_decide_eq_true in Ha, Hm; subst;
       by rewrite bool_decide_eq_true_2
    |apply bool_decide_eq_false in Hm
    |apply bool_decide_eq_false in Ha
    |apply bool_decide_eq_false in Ha];
    rewrite bool_decide_eq_false_2; congruence.
Qed.

Lemma deliveries_other uid a m u a' m' text ok t :
  (u, a', m') ≠ (uid, a, m) →
  deliveries uid a m (t ++ [Notify u a' m' text ok]) = deliveries uid a m t.
Proof.
  intros Hne. rewrite deliveries_app. unfold deliveries at 2. simpl.
  destruct (bool_decide (u = uid)) eqn:H1;
    destruct (bool_decide (a' = a)) eqn:H2;
    destruct (bool_decide (m' = m)) eqn:H3; simpl; try lia.
  apply bool_decide_eq_true in H1, H2, H3. congruence.
Qed.

Lemma deliveries_same uid a m text ok t :
  deliveries uid a m (t ++ [Notify uid a m text ok])
  = S (deliveries uid a m t).
Proof.
  rewrite deliveries_app. unfold deliveries at 2. simpl.
  rewrite !bool_decide_eq_true_2 by done. simpl. lia.
Qed.

Lemma omap_owner_middle (l1 l2 : list Task) task :
  NoDup (omap owner (l1 ++ task :: l2)) →
  NoDup (omap owner (l1 ++ l2))
  ∧ (∀ am, owner task = Some am → am ∉ omap owner (l1 ++ l2)).
Proof.
  rewrite !omap_app. simpl. destruct (owner task) as [am|].
  - rewrite !NoDup_app, NoDup_cons. intros (H1 & H12 & Hx & H2).
    split; [split_and!; [done| |done]|].
    + intros x Hx1 Hx2. apply (H12 x Hx1). by right.
    + intros ? [= <-]. rewrite elem_of_app. intros [Hin|Hin]; [|done].
      apply (H12 am Hin). by left.
  - intros Hnd. split; [done|]. by intros.
Qed.

Lemma key_first_neutral t t' :
  key_first t → Forall (λ e, concerns e = None) t' → key_first (t ++ t').
Proof.
  intros Hfirst Hn i e a m [Hi|[_ Hi]]%lookup_app_Some Hc.
  - destruct (Hfirst i e a m Hi Hc) as (j & Hj & Hl).
    exists j. split; [done|]. by apply lookup_app_l_Some.
  - rewrite Forall_forall in Hn. apply list_elem_of_lookup_2 in Hi.
    by rewrite (Hn e Hi) in Hc.
Qed.

Lemma key_first_snoc t e :
  key_first t →
  (∀ a m, concerns e = Some (a, m) → KeyRecorded (dedupKey a m) ∈ t) →
  key_first (t ++ [e]).
Proof.
  intros Hfirst He i e' a m [Hi|[Hlen Hi]]%lookup_app_Some Hc.
  - destruct (Hfirst i e' a m Hi Hc) as (j & Hj & Hl).
    exists j. split; [done|]. by apply lookup_app_l_Some.
  - apply list_lookup_singleton_Some in Hi as [Hi <-].
    apply He, list_elem_of_lookup_1 in Hc as [j Hj].
    exists j. split; [|by apply lookup_app_l_Some].
    apply lookup_lt_Some in Hj. lia.
Qed.

Lemma async_extract us keys pool t i task :
  async_inv_on us keys pool t → pool !! i = Some task →
  async_inv_on us keys (delete i pool) t
  ∧ (∀ a m, owner task = Some (a, m) →
       ((a, m) ∉ omap owner (delete i pool))
       ∧ (dedupKey a m ∈ keys)
       ∧ (KeyRecorded (dedupKey a m) ∈ t)
       ∧ (∀ uid, deliveries uid a m t ≠ 0%nat →
                 uid ∈ take (position task) us)).
Proof.
  intros (Hnd & Hkeys & Hown & Htasks & Hone & Hfirst & Hen) Hi.
  pose proof (take_drop_middle _ _ _ Hi) as Hmid.
  rewrite <- Hmid in Hown. apply omap_owner_middle in Hown as [Hown Hfree].
  rewrite <- delete_take_drop in Hown, Hfree.
  split.
  - split_and!; try done.
    intros task' a m Hin. apply Htasks. by eapply list_elem_of_delete_inv.
  - intros a m Ho. split; [by apply Hfree|].
    destruct (Htasks task a m) as (? & ? & ? & ?);
      [by eapply list_elem_of_lookup_2|done|done].
Qed.

Lemma async_push us keys pool t task :
  async_inv_on us keys pool t → owner task = None →
  async_inv_on us keys (pool ++ [task]) t.
Proof.
  intros (Hnd & Hkeys & Hown & Htasks & Hone & Hfirst & Hen) Ho.
  split_and!; try done.
  - rewrite omap_app. simpl. rewrite Ho. by rewrite app_nil_r.
  - intros task' a m [Hin| ->%list_elem_of_singleton]%elem_of_app Ho'.
    + by apply Htasks.
    + congruence.
Qed.

Lemma async_neutral us keys pool t us' keys' t' :
  async_inv_on us keys pool t →
  Forall (λ e, concerns e = None) t' →
  (us' = us ∨ ∃ x, us' = us ++ [x]) → NoDup us' → keys ⊆ keys' →
  async_inv_on us' keys' pool (t ++ t').
Proof.
  intros (Hnd & Hkeys & Hown & Htasks & Hone & Hfirst & Hen) Hn Hus Hnd' Hsub.
  split_and!; try done.
  - intros e a m [He|He]%elem_of_app Hc; [apply Hsub; eauto|].
    rewrite Forall_forall in Hn. by rewrite (Hn e He) in Hc.
  - intros task a m Hin Ho.
    destruct (Htasks task a m Hin Ho) as (Hk & Hrec & Hp & Hd).
    assert (Htake : take (position task) us' = take (position task) us).
    { destruct Hus as [->|[x ->]]; [done|]. by apply take_app_le. }
    split_and!.
    + by apply Hsub.
    + apply elem_of_app. by left.
    + destruct Hus as [->|[x ->]]; [done|]. rewrite length_app. lia.
    + intros uid. rewrite deliveries_neutral by done. rewrite Htake. apply Hd.
  - intros uid a m. rewrite deliveries_neutral by done. apply Hone.
  - by apply key_first_neutral.
  - intros a m. rewrite enrichments_neutral by done. apply Hen.
Qed.

Lemma async_new_event us keys pool t a m meta rest to :
  async_inv_on us keys pool t → dedupKey a m ∉ keys →
  async_inv_on us ({[dedupKey a m]} ∪ keys)
    (pool ++ [awaitMeta a m meta rest to])
    (t ++ [KeyRecorded (dedupKey a m); Enrich a m]).
Proof.
  intros (Hnd & Hkeys & Hown & Htasks & Hone & Hfirst & Hen) Hfresh.
  assert (Hsame : ∀ uid a' m',
    deliveries uid a' m' (t ++ [KeyRecorded (dedupKey a m); Enrich a m])
    = deliveries uid a' m' t).
  { intros. rewrite deliveries_app. unfold deliveries at 2. simpl. lia. }
  assert (Hzero : ∀ uid, deliveries uid a m t = 0%nat).
  { intros uid. apply deliveries_none. intros e He Hc. apply Hfresh. eauto. }
  assert (Hrec : KeyRecorded (dedupKey a m)
                 ∈ t ++ [KeyRecorded (dedupKey a m); Enrich a m]).
  { apply elem_of_app. right. left. }
  split_and!; [done| | | | | |].
  - intros e a' m' [He|He]%elem_of_app Hc.
    + apply elem_of_union_r. eauto.
    + apply elem_of_union_l, elem_of_singleton.
      apply elem_of_cons in He as [->|He]; [done|].
      apply list_elem_of_singleton in He as ->. by injection Hc as <- <-.
  - rewrite omap_app. simpl. apply NoDup_app. split_and!; [done| |].
    + intros am Hin ->%list_elem_of_singleton.
      apply list_elem_of_omap in Hin as (task & Hin & Ho).
      by destruct (Htasks task a m Hin Ho) as (Hk & _).
    + apply NoDup_singleton.
  - intros task a' m' [Hin| ->%list_elem_of_singleton]%elem_of_app Ho.
    + destruct (Htasks task a' m' Hin Ho) as (Hk & Hr & Hp & Hd).
      split_and!; [by apply elem_of_union_r| |done|].
      * apply elem_of_app. by left.
      * intros uid. rewrite Hsame. apply Hd.
    + injection Ho as <- <-. simpl.
      split_and!; [by apply elem_of_union_l, elem_of_singleton|done|lia|].
      intros uid. by rewrite Hsame, Hzero.
  - intros uid a' m'. rewrite Hsame. apply Hone.
  - change (t ++ [KeyRecorded (dedupKey a m); Enrich a m])
      with (t ++ [KeyRecorded (dedupKey a m)] ++ [Enrich a m]).
    rewrite app_assoc. apply key_first_snoc.
    + apply key_first_neutral; [done|by repeat constructor].
    + intros a' m' [= <- <-]. apply elem_of_app. right. left.
  - intros a' m'. rewrite enrichments_fresh.
    case_bool_decide as Heq; [|rewrite Nat.add_0_r; apply Hen].
    injection Heq as <- <-. rewrite (enrichments_none _ _ t); [done|].
    intros e He Hc. apply Hfresh. eauto.
Qed.

Lemma async_send us keys pool t a m p q uid meta text ok rest to :
  async_inv_on us keys pool t →
  (a, m) ∉ omap owner pool → dedupKey a m ∈ keys →
  KeyRecorded (dedupKey a m) ∈ t →
  (∀ u, deliveries u a m t ≠ 0%nat → u ∈ take p us) →
  (p ≤ q)%nat → us !! q = Some uid →
  async_inv_on us keys
    (pool ++ [awaitSend uid a m meta ok (S q) rest to])
    (t ++ [Notify uid a m text ok]).
Proof.
  intros (Hnd & Hkeys & Hown & Htasks & Hone & Hfirst & Hen) Hfree Hkey Hrec Hdone
    Hpq Hq.
  assert (Hnew : deliveries uid a m t = 0%nat).
  { destruct (deliveries uid a m t) eqn:Hd; [done|]. exfalso.
    assert (Hin : uid ∈ take p us) by (apply Hdone; lia).
    apply elem_of_take in Hin as (j & Hj & Hlt).
    pose proof (NoDup_lookup _ _ _ _ Hnd Hj Hq). lia. }
  split_and!; [done| | | | | |].
  - intros e a' m' [He|He]%elem_of_app Hc; [eauto|].
    apply list_elem_of_singleton in He as ->. by injection Hc as <- <-.
  - rewrite omap_app. simpl. apply NoDup_app. split_and!; [done| |].
    + by intros am Hin ->%list_elem_of_singleton.
    + apply NoDup_singleton.
  - intros task a' m' [Hin| ->%list_elem_of_singleton]%elem_of_app Ho.
    + destruct (Htasks task a' m' Hin Ho) as (Hk & Hr & Hp & Hd).
      split_and!; [done| |done|].
      * apply elem_of_app. by left.
      * intros u. rewrite deliveries_other; [apply Hd|].
        intros [= -> -> ->]. apply Hfree, list_elem_of_omap. eauto.
    + injection Ho as <- <-. simpl.
      split_and!; [done| |by apply lookup_lt_Some in Hq|].
      * apply elem_of_app. by left.
      * intros u Hu. apply elem_of_take.
        destruct (decide (u = uid)) as [->|Hne];
          [exists q; split; [done|lia]|].
        rewrite deliveries_other in Hu by congruence.
        apply Hdone, elem_of_take in Hu as (j & Hj & Hlt).
        exists j. split; [done|lia].
  - intros u a' m'.
    destruct (decide ((u, a', m') = (uid, a, m))) as [[= -> -> ->]|Hne].
    + rewrite deliveries_same, Hnew. lia.
    + rewrite deliveries_other by congruence. apply Hone.
  - apply key_first_snoc; [done|]. by intros a' m' [= <- <-].
  - intros a' m'. rewrite enrichments_notice. apply Hen.
Qed.

Lemma drop_cons_inv (us : list UserId) i uid r :
  drop i us = uid :: r → us !! i = Some uid ∧ drop (S i) us = r.
Proof.
  intros Hd.
  assert (Hi : us !! i = Some uid).
  { rewrite <- (Nat.add_0_r i), <- lookup_drop, Hd. done. }
  split; [done|]. rewrite (drop_S _ _ _ Hi) in Hd. by injection Hd.
Qed.

(** The loop over the subscribers either runs out, silently, or stops at a
    send to the subscriber at a position not before the one it started
    from. *)
Lemma nextUser_spec W a m meta us :
  ∀ i st, drop i (subscribedUsers st) = us →
    frame st (nextUser W a m meta i us st).1.1
    ∧ match (nextUser W a m meta i us st).2 with
      | None => (nextUser W a m meta i us st).1.2 = []
      | Some (uid, ok, next) =>
          ∃ q text, next = S q ∧ (i ≤ q)%nat
                    ∧ subscribedUsers st !! q = Some uid
                    ∧ (nextUser W a m meta i us st).1.2
                      = [Notify uid a m text ok]
      end.
Proof.
  induction us as [|uid r IH]; intros i st Hdrop; [by split|].
  apply drop_cons_inv in Hdrop as [Hi Hr]. simpl.
  pose proof (getPrefs_frame uid st) as Hf.
  destruct (getPrefs uid st) as [prefs st1]. simpl in Hf.
  destruct (requireMediaLink prefs && negb (hasMedia meta)).
  - destruct Hf as (Hu & Hrest).
    destruct (IH (S i) st1) as [Hf' Hres]; [by rewrite Hu|].
    split; [eapply frame_trans; [by split|done]|].
    destruct (nextUser W a m meta (S i) r st1) as [[st2 tr] [[[u ok] next]|]];
      simpl in *; [|done].
    destruct Hres as (q & text & -> & Hq & Hl & ->).
    exists q, text. rewrite Hu in Hl. split_and!; [done|lia|done|done].
  - simpl. split; [done|]. by exists i, (deployedText (lang prefs) a m meta).
Qed.

Lemma async_nextLog W to pool logs :
  ∀ st t,
    async_inv_on (subscribedUsers st) (sentKeys st) pool t →
    async_inv_on (subscribedUsers (nextLog W logs to st).1.1)
                 (sentKeys (nextLog W logs to st).1.1)
                 (pool ++ option_task (nextLog W logs to st).2)
                 (t ++ (nextLog W logs to st).1.2).
Proof.
  induction logs as [|[a m|] logs IH]; intros st t Hinv; simpl.
  - by rewrite !app_nil_r.
  - case_bool_decide as Hk; [by apply IH|]. simpl.
    by apply async_new_event.
  - by apply IH.
Qed.

Lemma async_fanout W a m meta p rest to pool st t :
  async_inv_on (subscribedUsers st) (sentKeys st) pool t →
  (a, m) ∉ omap owner pool → dedupKey a m ∈ sentKeys st →
  KeyRecorded (dedupKey a m) ∈ t →
  (∀ u, deliveries u a m t ≠ 0%nat → u ∈ take p (subscribedUsers st)) →
  async_inv_on (subscribedUsers (fanout W a m meta p rest to st).1.1)
               (sentKeys (fanout W a m meta p rest to st).1.1)
               (pool ++ option_task (fanout W a m meta p rest to st).2)
               (t ++ (fanout W a m meta p rest to st).1.2).
Proof.
  intros Hinv Hfree Hkey Hrec Hdone. unfold fanout.
  destruct (nextUser_spec W a m meta (drop p (subscribedUsers st)) p st
              eq_refl) as [(Hu & _ & _ & Hs) Hres].
  destruct (nextUser W a m meta p (drop p (subscribedUsers st)) st)
    as [[st1 tr] [[[uid ok] next]|]]; simpl in *.
  - destruct Hres as (q & text & -> & Hq & Hl & ->).
    rewrite Hu, Hs. by eapply async_send.
  - subst tr.
    assert (Hinv1 : async_inv_on (subscribedUsers st1) (sentKeys st1) pool t)
      by by rewrite Hu, Hs.
    pose proof (async_nextLog W to pool rest st1 t Hinv1) as Hlog.
    destruct (nextLog W rest to st1) as [[st2 t2] k]. done.
Qed.

Lemma react_request r sys :
  (∀ W bn now, r ≠ block W bn now) →
  react (request r) sys
  = (mkSystem (step r (store sys)).1 (pending sys), (step r (store sys)).2).
Proof.
  intros Hr. destruct r; try by (cbn [react]; destruct (step _ _)).
  by destruct (Hr W bn now).
Qed.

Lemma async_inv_step r sys t :
  (∀ W bn now, r ≠ block W bn now) →
  async_inv sys t →
  async_inv_on (subscribedUsers (step r (store sys)).1)
               (sentKeys (step r (store sys)).1) (pending sys)
               (t ++ (step r (store sys)).2).
Proof.
  unfold async_inv. intros Hr Hinv.
  destruct r as [uid|uid|uid l|uid data|uid n now|W bn now|W now]; simpl.
  - pose proof (getPrefs_frame uid (set_subscribedUsers
      (JsSet.add uid (subscribedUsers (store sys))) (store sys)))
      as (Hu & _ & _ & Hs).
    rewrite Hu, Hs. simpl.
    eapply async_neutral; [exact Hinv|constructor| | |done].
    + unfold JsSet.add. case_match; eauto.
    + apply JsSet_NoDup_add, Hinv.
  - pose proof (getPrefs_frame uid (store sys)) as (Hu & _ & _ & Hs).
    rewrite Hu, Hs.
    eapply async_neutral; [exact Hinv|constructor|by left|apply Hinv|done].
  - pose proof (setLang_frame uid l (store sys)) as (Hu & _ & _ & Hs).
    rewrite Hu, Hs.
    eapply async_neutral; [exact Hinv|constructor|by left|apply Hinv|done].
  - pose proof (onCallback_frame uid data (store sys)) as (Hu & _ & _ & Hs).
    rewrite Hu, Hs.
    eapply async_neutral; [exact Hinv|constructor|by left|apply Hinv|done].
  - pose proof (onReply_frame uid n now (store sys)) as (Hu & _ & _ & Hs).
    destruct (onReply_trace uid n now (store sys)) as [text Ht].
    rewrite Hu, Hs, Ht.
    eapply async_neutral;
      [exact Hinv|by repeat constructor|by left|apply Hinv|done].
  - by destruct (Hr W bn now).
  - pose proof (checkMarketCapAlerts_keeps W now (store sys))
      as (Hu & Hs & _ & _ & _ & Hn).
    rewrite Hu, Hs.
    eapply async_neutral; [exact Hinv|done|by left|apply Hinv|done].
Qed.

Lemma async_inv_signal W bn sys t :
  async_inv sys t →
  async_inv_on (subscribedUsers (signalBlock W bn (store sys)).1.1)
               (sentKeys (signalBlock W bn (store sys)).1.1)
               (pending sys ++ option_task (signalBlock W bn (store sys)).2)
               (t ++ (signalBlock W bn (store sys)).1.2).
Proof.
  unfold async_inv, signalBlock. intros Hinv.
  set (st0 := if lastProcessed (store sys) =? 0
              then set_lastProcessed (bn - 1) (store sys) else store sys).
  assert (Hu0 : subscribedUsers st0 = subscribedUsers (store sys))
    by (subst st0; by case_match).
  assert (Hs0 : sentKeys st0 = sentKeys (store sys))
    by (subst st0; by case_match).
  case_match; simpl; rewrite Hu0, Hs0.
  - by rewrite !app_nil_r.
  - apply async_push; [|done].
    eapply async_neutral;
      [exact Hinv|by repeat constructor|by left|apply Hinv|done].
Qed.

Lemma async_inv_settle i W now sys t :
  async_inv sys t →
  async_inv (react (settle i W now) sys).1
            (t ++ (react (settle i W now) sys).2).
Proof.
  unfold async_inv. intros Hinv. simpl.
  destruct (pending sys !! i) as [task|] eqn:Hi;
    [|simpl; by rewrite app_nil_r].
  destruct (async_extract _ _ _ _ _ _ Hinv Hi) as [Hrest Howner].
  destruct task as [[logs|] to|a m meta rest to|uid a m meta ok next rest to];
    simpl.
  - pose proof (async_nextLog W to _ logs _ _ Hrest) as Hlog.
    by destruct (nextLog W logs to (store sys)) as [[st1 tr] k].
  - by rewrite !app_nil_r.
  - destruct (Howner a m eq_refl) as (Hfree & Hkey & Hrec & Hdone).
    pose proof (async_fanout W a m meta 0 rest to _ _ _ Hrest Hfree Hkey
                  Hrec Hdone) as Hfan.
    by destruct (fanout W a m meta 0 rest to (store sys)) as [[st1 tr] k].
  - destruct (Howner a m eq_refl) as (Hfree & Hkey & Hrec & Hdone).
    simpl in Hdone.
    set (st1 := if ok then _ else store sys).
    assert (Hf : frame (store sys) st1).
    { subst st1. destruct ok; [|done].
      pose proof (getPrefs_frame uid (store sys)) as Hg.
      destruct (getPrefs uid (store sys)) as [prefs st']. simpl in Hg.
      case_match; [|done].
      eapply frame_trans; [exact Hg|apply addToMarketCapAlerts_frame]. }
    destruct Hf as (Hu & _ & _ & Hs).
    pose proof (async_fanout W a m meta next rest to
                  (delete i (pending sys)) st1 t) as Hfan.
    rewrite Hu, Hs in Hfan. specialize (Hfan Hrest Hfree Hkey Hrec Hdone).
    by destruct (fanout W a m meta next rest to st1) as [[st2 tr] k].
Qed.

Lemma async_inv_react o sys t :
  async_inv sys t → async_inv (react o sys).1 (t ++ (react o sys).2).
Proof.
  intros Hinv. destruct o as [r|i W now]; [|by apply async_inv_settle].
  assert (Hr : (∃ W bn now, r = block W bn now)
               ∨ (∀ W bn now, r ≠ block W bn now))
    by (destruct r; eauto).
  destruct Hr as [(W & bn & now & ->)|Hr].
  - pose proof (async_inv_signal W bn sys t Hinv) as Hsig.
    cbn [react]. by destruct (signalBlock W bn (store sys)) as [[st tr] k].
  - rewrite react_request by done. by apply async_inv_step.
Qed.

Lemma async_inv_interleave os sys t :
  async_inv sys t →
  async_inv (interleave os sys).1 (t ++ (interleave os sys).2).
Proof.
  unfold interleave. revert sys t.
  induction os as [|o os IH]; intros sys t Hinv.
  - simpl. by rewrite app_nil_r.
  - rewrite for_each_cons. simpl. rewrite app_assoc.
    apply IH. by apply async_inv_react.
Qed.

(** X1: however block handlers, commands and timers interleave at the
    awaits of the block handler, every item of an event's enrichment or delivery
    comes after the recording of its key, no subscriber is sent the same
    (address, amount) pair twice, and no (address, amount) pair is enriched
    and fanned out twice. *)
Lemma interleaved_at_most_once (os : list Occurrence) :
  key_first (interleave os (mkSystem initial [])).2
  ∧ (∀ uid addr amount,
       (deliveries uid addr amount (interleave os (mkSystem initial [])).2
          ≤ 1)%nat)
  ∧ (∀ addr amount,
       (enrichments addr amount (interleave os (mkSystem initial [])).2
          ≤ 1)%nat).
Proof.
  assert (Hinit : async_inv (mkSystem initial []) []).
  { unfold async_inv, async_inv_on. simpl. split_and!.
    - constructor.
    - intros e a m Hin. by apply not_elem_of_nil in Hin.
    - constructor.
    - intros k a m Hin. by apply not_elem_of_nil in Hin.
    - intros. unfold deliveries. simpl. lia.
    - intros i e a m Hi. by rewrite lookup_nil in Hi.
    - intros. unfold enrichments. simpl. lia. }
  by destruct (async_inv_interleave os _ _ Hinit)
    as (_ & _ & _ & _ & Hone & Hfirst & Hen).
Qed.
(** ** Subscription *)

Lemma for_each_inv {S A E} (I : S → list E → Prop)
    (body : A → S → S * list E) l st t :
  (∀ x s t', x ∈ l → I s t' → I (body x s).1 (t' ++ (body x s).2)) →
  I st t → I (for_each body l st).1 (t ++ (for_each body l st).2).
Proof.
  revert st t. induction l as [|x l IH]; intros st t Hb Hi.
  - simpl. by rewrite app_nil_r.
  - rewrite for_each_cons. simpl. rewrite app_assoc. apply IH.
    + intros y s t' Hy. apply Hb. by right.
    + apply Hb; [left|done].
Qed.

Lemma onBlock_frame W bn now st :
  subscribedUsers (onBlock W bn now st).1 = subscribedUsers st
  ∧ lastMcCheck (onBlock W bn now st).1 = lastMcCheck st.
Proof.
  unfold onBlock.
  set (st0 := if lastProcessed st =? 0 then set_lastProcessed (bn - 1) st
              else st).
  assert (H0 : subscribedUsers st0 = subscribedUsers st
               ∧ lastMcCheck st0 = lastMcCheck st)
    by (subst st0; by case_match).
  case_match; [done|]. destruct (getLogs W _ bn) as [logs|]; [|done].
  pose proof (for_each_state
    (λ s, subscribedUsers s = subscribedUsers st
          ∧ lastMcCheck s = lastMcCheck st)
    (processLog W now) logs st0) as Hl.
  destruct (for_each _ logs st0) as [st1 t]. simpl in *.
  apply Hl; [|done]. intros log s _ [<- <-]. unfold processLog.
  destruct log as [addr amount|]; [|done]. case_bool_decide; [done|].
  set (s1 := set_sentKeys _ s).
  pose proof (for_each_notifyUser_frame W now addr amount (enrich W addr)
                (subscribedUsers s1) s1) as (Hu & Hm & _ & _).
  by destruct (for_each _ _ s1) as [s2 t2].
Qed.

Lemma step_subscribers r st :
  subscribedUsers (step r st).1 =
    match r with
    | start uid => JsSet.add uid (subscribedUsers st)
    | _ => subscribedUsers st
    end.
Proof.
  destruct r as [uid|uid|uid l|uid data|uid n now|W bn now|W now]; simpl.
  - by destruct (getPrefs_frame uid
      (set_subscribedUsers (JsSet.add uid (subscribedUsers st)) st)) as (->&_).
  - by destruct (getPrefs_frame uid st) as (->&_).
  - by destruct (setLang_frame uid l st) as (->&_).
  - by destruct (onCallback_frame uid data st) as (->&_).
  - by destruct (onReply_frame uid n now st) as (->&_).
  - apply onBlock_frame.
  - by destruct (checkMarketCapAlerts_keeps W now st) as (->&_).
Qed.

Lemma run_subscribers rs st u :
  u ∈ subscribedUsers (run rs st).1 ↔ u ∈ subscribedUsers st ∨ start u ∈ rs.
Proof.
  unfold run. revert st. induction rs as [|r rs IH]; intros st.
  - simpl. rewrite elem_of_nil. tauto.
  - rewrite for_each_cons. cbn [fst]. rewrite IH, step_subscribers.
    rewrite (elem_of_cons rs).
    destruct r as [uid|uid|uid l|uid data|uid n now|W bn now|W now];
      rewrite ?JsSet_elem_of_add;
      (split; [intros [[->|?]|?] || intros [?|?]
              |intros [?|[[= ->]|?]] || intros [?|[[=]|?]]]); auto.
Qed.

Lemma notify_loop_members W now addr amount m l st :
  Forall (λ e, ∃ uid text ok, e = Notify uid addr amount text ok ∧ uid ∈ l)
         (for_each (notifyUser W now addr amount m) l st).2.
Proof.
  apply (for_each_trace (λ _, True)); [done| |done].
  intros uid s Hin _.
  destruct (notifyUser_trace W now addr amount m uid s) as [->|(?&?&->)];
    repeat constructor; eauto.
Qed.

Lemma processLog_notices W now log st :
  Forall (λ e, ∀ uid a m text ok,
            e = Notify uid a m text ok → uid ∈ subscribedUsers st)
         (processLog W now log st).2.
Proof.
  unfold processLog. destruct log as [addr amount|]; [|constructor].
  case_bool_decide; [constructor|].
  set (st1 := set_sentKeys _ st).
  pose proof (notify_loop_members W now addr amount (enrich W addr)
                (subscribedUsers st1) st1) as Hm.
  destruct (for_each _ _ st1) as [st2 t]. simpl in *.
  repeat (constructor; [done|]).
  eapply Forall_impl; [exact Hm|].
  intros e (uid & text & ok & -> & Hin) ????? [= -> _ _ _ _]. done.
Qed.

Lemma step_notices r st :
  Forall (λ e, ∀ uid a m text ok,
            e = Notify uid a m text ok → uid ∈ subscribedUsers st)
         (step r st).2.
Proof.
  destruct r as [uid|uid|uid l|uid data|uid n now|W bn now|W now]; simpl;
    try by constructor.
  - destruct (onReply_trace uid n now st) as [text ->]. by repeat constructor.
  - unfold onBlock.
    set (st0 := if lastProcessed st =? 0 then set_lastProcessed (bn - 1) st
                else st).
    assert (H0 : subscribedUsers st0 = subscribedUsers st)
      by (subst st0; by case_match).
    case_match; [constructor|].
    destruct (getLogs W _ bn) as [logs|]; [|by repeat constructor].
    pose proof (for_each_trace
      (λ s, subscribedUsers s = subscribedUsers st)
      (λ e, ∀ uid a m text ok,
         e = Notify uid a m text ok → uid ∈ subscribedUsers st)
      (processLog W now) logs st0) as Hl.
    destruct (for_each _ logs st0) as [st1 t]. simpl in *.
    constructor; [done|]. apply Hl; [| |done].
    + intros log s _ <-. apply processLog_keys.
    + intros log s _ <-. apply processLog_notices.
  - destruct (checkMarketCapAlerts_keeps W now st) as (_&_&_&_&_&Hn).
    eapply Forall_impl; [exact Hn|]. by intros e He ????? ->.
Qed.

Lemma start_again uid st :
  (step (start uid) (step (start uid) st).1).1 = (step (start uid) st).1.
Proof.
  cbn [step fst].
  set (st1 := set_subscribedUsers (JsSet.add uid (subscribedUsers st)) st).
  assert (Hu : subscribedUsers (getPrefs uid st1).2
               = JsSet.add uid (subscribedUsers st))
    by (by destruct (getPrefs_frame uid st1) as (-> & _)).
  pose proof (getPrefs_lookup uid st1) as Hsome.
  destruct (getPrefs uid st1) as [p st2]. cbn [fst snd] in *.
  assert (Hsame :
    set_subscribedUsers (JsSet.add uid (subscribedUsers st2)) st2 = st2).
  { rewrite Hu, JsSet_add_idemp, <- Hu. by destruct st2. }
  rewrite Hsame. by rewrite (getPrefs_known uid st2 p Hsome).
Qed.

(** X8: a user is a subscriber exactly when they have sent [/start]: no
    handler removes a subscriber; every deployment notice the program ever
    sends goes to a user who has sent [/start]; and sending [/start] again
    changes nothing. *)
Theorem subscription_by_start (rs : list Request) :
  (∀ u, u ∈ subscribedUsers (run rs initial).1 ↔ start u ∈ rs)
  ∧ (∀ uid addr amount text ok,
       Notify uid addr amount text ok ∈ (run rs initial).2 → start uid ∈ rs)
  ∧ (∀ uid st,
       (step (start uid) (step (start uid) st).1).1 = (step (start uid) st).1).
Proof.
  split_and!.
  - intros u. rewrite run_subscribers. simpl. rewrite elem_of_nil. tauto.
  - intros uid addr amount text ok Hin.
    assert (Hsub : uid ∈ subscribedUsers (run rs initial).1);
      [|apply run_subscribers in Hsub as [?%not_elem_of_nil|?]; done].
    assert (Hinv : ∀ e, e ∈ (run rs initial).2 →
      ∀ uid a m text ok, e = Notify uid a m text ok →
                         uid ∈ subscribedUsers (run rs initial).1).
    { unfold run.
      pose proof (for_each_inv
        (λ s t, ∀ e, e ∈ t → ∀ uid a m text ok,
           e = Notify uid a m text ok → uid ∈ subscribedUsers s)
        step rs initial []) as Hl.
      simpl in Hl. apply Hl; [|by intros e ?%not_elem_of_nil].
      intros r s t' _ Hs e [He|He]%elem_of_app u a m text' ok' ->.
      - rewrite step_subscribers.
        specialize (Hs _ He _ _ _ _ _ eq_refl).
        destruct r; rewrite ?JsSet_elem_of_add; auto.
      - pose proof (step_notices r s) as Hn. rewrite Forall_forall in Hn.
        specialize (Hn _ He _ _ _ _ _ eq_refl).
        rewrite step_subscribers.
        destruct r; rewrite ?JsSet_elem_of_add; auto. }
    eapply Hinv; [exact Hin|done].
  - apply start_again.
Qed.

(** ** Batches of logs *)

Lemma processLog_recorded W now addr amount st :
  dedupKey addr amount ∈ sentKeys (processLog W now (Deployed addr amount) st).1.
Proof.
  unfold processLog. case_bool_decide as Hk; [done|].
  set (st1 := set_sentKeys _ st).
  pose proof (for_each_notifyUser_frame W now addr amount (enrich W addr)
                (subscribedUsers st1) st1) as (_ & _ & _ & Hs).
  destruct (for_each _ _ st1) as [st2 t]. simpl in *.
  rewrite Hs. by apply elem_of_union_l, elem_of_singleton.
Qed.

Lemma batch_recorded W now logs st addr amount :
  Deployed addr amount ∈ logs →
  dedupKey addr amount ∈ sentKeys (for_each (processLog W now) logs st).1.
Proof.
  revert st. induction logs as [|log logs IH]; intros st Hin.
  - by apply not_elem_of_nil in Hin.
  - rewrite for_each_cons. cbn [fst].
    apply elem_of_cons in Hin as [<-|Hin]; [|by apply IH].
    pose proof (for_each_state
      (λ s, dedupKey addr amount ∈ sentKeys s) (processLog W now) logs
      (processLog W now (Deployed addr amount) st).1) as Hl.
    apply Hl; [|apply processLog_recorded].
    intros x s _ Hs. by apply processLog_keys.
Qed.

Lemma batch_skipped W now logs st :
  (∀ addr amount, Deployed addr amount ∈ logs →
                  dedupKey addr amount ∈ sentKeys st) →
  for_each (processLog W now) logs st = (st, []).
Proof.
  induction logs as [|log logs IH]; intros Hk; [done|].
  rewrite for_each_cons.
  assert (Hlog : processLog W now log st = (st, [])).
  { destruct log as [addr amount|]; [|done]. unfold processLog.
    rewrite bool_decide_eq_true_2; [done|]. apply Hk. left. }
  rewrite Hlog. simpl. rewrite IH; [done|].
  intros addr amount Hin. apply Hk. by right.
Qed.

(** X9: a batch of logs whose events were all in a batch processed earlier
    changes nothing and sends nothing, whatever the chain and Telegram
    answer by then: overlapping or repeated answers of the log source are
    harmless as a whole. *)
Theorem batch_replay_is_noop W now W' now' logs logs' st :
  (∀ addr amount, Deployed addr amount ∈ logs' → Deployed addr amount ∈ logs) →
  for_each (processLog W' now') logs' (for_each (processLog W now) logs st).1
  = ((for_each (processLog W now) logs st).1, []).
Proof.
  intros Hsub. apply batch_skipped. intros addr amount Hin.
  by apply batch_recorded, Hsub.
Qed.

(** X10: a log that cannot be parsed is dropped alone: the batch is
    processed exactly as if that log were not in it. *)
Theorem malformed_logs_dropped W now logs st :
  for_each (processLog W now) logs st
  = for_each (processLog W now) (List.filter wellFormed logs) st.
Proof.
  revert st. induction logs as [|log logs IH]; intros st; [done|].
  destruct log as [addr amount|].
  - cbn [List.filter wellFormed]. by rewrite !for_each_cons, !IH.
  - cbn [List.filter wellFormed]. rewrite for_each_cons. cbn [processLog fst snd].
    rewrite IH. by destruct (for_each _ _ st).
Qed.

(** ** The cursor when handlers do not overlap *)

Lemma onBlock_cursor_grows W bn now st :
  1 ≤ bn → 0 ≤ lastProcessed st →
  lastProcessed st ≤ lastProcessed (onBlock W bn now st).1.
Proof.
  intros Hbn Hpos. unfold onBlock.
  destruct (lastProcessed st =? 0) eqn:Hz.
  - apply Z.eqb_eq in Hz. cbn [lastProcessed set_lastProcessed].
    destruct (bn - 1 + 1 >? bn) eqn:Hgt; [simpl; lia|].
    destruct (getLogs W _ bn) as [logs|]; [|simpl; lia].
    destruct (for_each _ logs _) as [st1 t]. simpl. lia.
  - destruct (lastProcessed st + 1 >? bn) eqn:Hgt; [done|].
    destruct (getLogs W _ bn) as [logs|]; [|done].
    destruct (for_each _ logs st) as [st1 t]. simpl.
    destruct (Z.gtb_spec (lastProcessed st + 1) bn); [done|lia].
Qed.

Lemma step_cursor_grows r st :
  (∀ bn, signalled r = Some bn → 1 ≤ bn) → 0 ≤ lastProcessed st →
  lastProcessed st ≤ lastProcessed (step r st).1.
Proof.
  intros Hbn Hpos.
  destruct r as [uid|uid|uid l|uid data|uid n now|W bn now|W now]; simpl.
  - by destruct (getPrefs_frame uid
      (set_subscribedUsers (JsSet.add uid (subscribedUsers st)) st))
      as (_&_&->&_).
  - by destruct (getPrefs_frame uid st) as (_&_&->&_).
  - by destruct (setLang_frame uid l st) as (_&_&->&_).
  - by destruct (onCallback_frame uid data st) as (_&_&->&_).
  - by destruct (onReply_frame uid n now st) as (_&_&->&_).
  - apply onBlock_cursor_grows; [by apply Hbn|done].
  - by destruct (checkMarketCapAlerts_keeps W now st) as (_&_&->&_).
Qed.

Lemma run_cursor_grows rs st :
  Forall (λ r, ∀ bn, signalled r = Some bn → 1 ≤ bn) rs →
  0 ≤ lastProcessed st →
  lastProcessed st ≤ lastProcessed (run rs st).1.
Proof.
  unfold run. revert st. induction rs as [|r rs IH]; intros st Hall Hpos;
    [done|].
  apply Forall_cons in Hall as [Hr Hall]. rewrite for_each_cons. cbn [fst].
  pose proof (step_cursor_grows r st Hr Hpos). etrans; [done|].
  apply IH; [done|lia].
Qed.

(** X11: as long as handlers run one at a time and block heights are
    positive, the cursor never moves back: at any later point of a run
    [lastProcessed] is at least what it was. *)
Theorem cursor_never_moves_back (rs1 rs2 : list Request) :
  Forall (λ r, ∀ bn, signalled r = Some bn → 1 ≤ bn) (rs1 ++ rs2) →
  0 ≤ lastProcessed (run rs1 initial).1
  ∧ lastProcessed (run rs1 initial).1
    ≤ lastProcessed (run (rs1 ++ rs2) initial).1.
Proof.
  intros [H1 H2]%Forall_app.
  pose proof (run_cursor_grows rs1 initial H1 ltac:(done)) as Hpos.
  split; [done|]. unfold run in *. rewrite for_each_app. cbn [fst].
  by apply run_cursor_grows.
Qed.

(** ** Price and media filter in terms of the chain reads *)

(** X12: the price does not depend on which slot of the pool holds the
    reference asset: with the two slots and their reserves exchanged, price
    and market cap are the same (unless both slots are the reference
    asset, where slot 0 wins). *)
Theorem price_slot_symmetry W tokenAddr :
  (∀ t0 t1, token0 W tokenAddr = Some t0 → token1 W tokenAddr = Some t1 →
            isReference t0 && isReference t1 = false) →
  priceInWOKB (mirrored W) tokenAddr = priceInWOKB W tokenAddr
  ∧ tokenMarketCap (mirrored W) tokenAddr = tokenMarketCap W tokenAddr.
Proof.
  intros Hnot.
  assert (Hp : priceInWOKB (mirrored W) tokenAddr = priceInWOKB W tokenAddr).
  { unfold priceInWOKB, mirrored. cbn [getReserves token0 token1].
    destruct (getReserves W tokenAddr) as [[r0 r1]|]; cbn [fmap option_fmap option_map fst snd]; [|done].
    destruct (token0 W tokenAddr) as [t0|], (token1 W tokenAddr) as [t1|];
      try done.
    specialize (Hnot t0 t1 eq_refl eq_refl). unfold isReference in Hnot.
    destruct (String.eqb (Str.toLowerCase t0) _),
             (String.eqb (Str.toLowerCase t1) _); done. }
  split; [done|]. unfold tokenMarketCap. rewrite Hp.
  by destruct (priceInWOKB W tokenAddr) as [[price|]|].
Qed.

Lemma toText_media r :
  negb (String.eqb (toText (caught r)) "")
  && negb (String.eqb (toText (caught r)) unset) = true
  ↔ ∃ v, r = Some v ∧ Str.blank v = false ∧ v ≠ unset.
Proof.
  rewrite (proj2 (String.eqb_neq _ _) (toText_nonempty _)). cbn [negb andb].
  rewrite negb_true_iff, String.eqb_neq.
  destruct r as [v|].
  - change (caught (Some v)) with v. unfold toText. destruct (String.eqb v "") eqn:Hv; cbn [negb andb].
    + apply String.eqb_eq in Hv as ->. split; [done|].
      by intros (v & [= <-] & Hb & _).
    + destruct (Str.blank v) eqn:Hb; cbn [negb andb].
      * split; [done|]. intros (v' & [= <-] & Hb' & _). congruence.
      * split; [eauto|]. by intros (v' & [= <-] & _ & ?).
  - change (caught None) with "". split; [done|]. by intros (v & [=] & _).
Qed.

(** X13: an event passes the media-link filter exactly when the website,
    telegram or twitter read returned a string that is not white space only
    and is not the unset text itself. *)
Theorem media_filter_on_reads W addr :
  hasMedia (enrich W addr) = true ↔
  ∃ v, (website W addr = Some v ∨ telegram W addr = Some v
        ∨ twitter W addr = Some v)
       ∧ Str.blank v = false ∧ v ≠ unset.
Proof.
  unfold hasMedia, enrich. cbn [web tg tw existsb].
  rewrite orb_false_r, !orb_true_iff, !toText_media. split.
  - intros [(v&?&?&?)|[(v&?&?&?)|(v&?&?&?)]]; exists v; auto.
  - intros (v & [?|[?|?]] & ? & ?); eauto 6.
Qed.

(** ** Whose preferences a handler changes *)

Lemma putPrefs_other id p st u :
  u ≠ id → userPushPrefs (putPrefs id p st) !! u = userPushPrefs st !! u.
Proof. intros Hne. unfold putPrefs. simpl. by rewrite lookup_insert_ne. Qed.

Lemma setLang_other id l st u p :
  u ≠ id → userPushPrefs st !! u = Some p →
  userPushPrefs (setLang id l st) !! u = Some p.
Proof.
  intros Hne Hp. unfold setLang. pose proof (getPrefs_kept id st u p Hp) as Hk.
  destruct (getPrefs id st) as [q st1]. by rewrite putPrefs_other.
Qed.

Lemma removeFromMarketCapAlerts_prefs tokenAddr userId st :
  userPushPrefs (removeFromMarketCapAlerts tokenAddr userId st)
  = userPushPrefs st.
Proof. unfold removeFromMarketCapAlerts. by case_match. Qed.

Lemma enrolExisting_prefs userId now entry st :
  userPushPrefs (enrolExisting userId now entry st).1 = userPushPrefs st.
Proof.
  unfold enrolExisting. destruct entry as [k d].
  repeat case_match; simpl; try done. apply addToMarketCapAlerts_prefs.
Qed.

Lemma processLog_prefs_kept W now log st :
  prefs_kept st (processLog W now log st).1.
Proof.
  unfold processLog. destruct log as [addr amount|]; [|done].
  case_bool_decide; [done|].
  set (st1 := set_sentKeys _ st).
  pose proof (for_each_prefs_kept (notifyUser W now addr amount (enrich W addr))
                (subscribedUsers st1) st1
                (notifyUser_prefs_kept W now addr amount (enrich W addr)))
    as Hk.
  by destruct (for_each _ _ st1) as [st2 t].
Qed.

Lemma onBlock_prefs_kept W bn now st : prefs_kept st (onBlock W bn now st).1.
Proof.
  unfold onBlock.
  set (st0 := if lastProcessed st =? 0 then set_lastProcessed (bn - 1) st
              else st).
  assert (H0 : prefs_kept st st0) by (subst st0; case_match; by intros ??).
  case_match; [exact H0|].
  destruct (getLogs W _ bn) as [logs|]; [|exact H0].
  pose proof (for_each_prefs_kept (processLog W now) logs st0
                (processLog_prefs_kept W now)) as Hk.
  destruct (for_each _ logs st0) as [st1 t]. simpl in *.
  eapply prefs_kept_trans; [exact H0|exact Hk].
Qed.

(** X14: only a user's own commands change that user's preferences: a
    request of somebody else, a block signal or a timer tick leaves an
    existing entry of [userPushPrefs] as it is. *)
Theorem prefs_changed_by_owner_only r st u p :
  userPushPrefs st !! u = Some p → actor r ≠ Some u →
  userPushPrefs (step r st).1 !! u = Some p.
Proof.
  intros Hp Hactor.
  destruct r as [uid|uid|uid l|uid data|uid n now|W bn now|W now];
    cbn [step fst actor] in *.
  - by apply getPrefs_kept.
  - by apply getPrefs_kept.
  - apply setLang_other; [congruence|done].
  - assert (Hne : u ≠ uid) by congruence.
    unfold onCallback. pose proof (getPrefs_kept uid st u p Hp) as Hk.
    destruct (getPrefs uid st) as [q st1]. cbn [snd] in Hk.
    destruct data; rewrite ?putPrefs_other by done;
      rewrite ?removeFromMarketCapAlerts_prefs; try done;
      by apply setLang_other.
  - assert (Hne : u ≠ uid) by congruence.
    unfold onReply. pose proof (getPrefs_kept uid st u p Hp) as Hk.
    destruct (getPrefs uid st) as [q st1]. cbn [snd] in Hk.
    case_match; [done|].
    set (st2 := putPrefs uid _ st1).
    pose proof (for_each_state (λ s, userPushPrefs s = userPushPrefs st2)
      (enrolExisting uid now) (marketCapAlerts st2) st2) as Hloop.
    destruct (for_each _ _ st2) as [st3 added]. simpl in *.
    rewrite Hloop; [by rewrite lookup_insert_ne| |done].
    intros x s _ <-. apply enrolExisting_prefs.
  - by apply onBlock_prefs_kept.
  - by apply checkMarketCapAlerts_keeps.
Qed.

(** ** The registry as a relation between tokens and users *)

Lemma watchers_add tokenAddr userId now st k u :
  u ∈ watchers k (marketCapAlerts (addToMarketCapAlerts tokenAddr userId now st))
  ↔ (k = tokenAddr ∧ u = userId) ∨ u ∈ watchers k (marketCapAlerts st).
Proof.
  unfold watchers at 1. rewrite get_addToMarketCapAlerts.
  destruct (decide (tokenAddr = k)) as [<-|Hne]; simpl.
  - rewrite JsSet_elem_of_add. unfold watchers.
    split; [intros [->|?]; auto|intros [[_ ->]|?]; auto].
  - unfold watchers. split; [auto|intros [[-> _]|?]; done].
Qed.

Lemma watchers_body userId tokenAddr m k u :
  u ∈ watchers k (clearAllAlerts_body userId tokenAddr m)
  ↔ u ∈ watchers k m ∧ ¬ (k = tokenAddr ∧ u = userId).
Proof.
  unfold watchers. rewrite get_clearAllAlerts_body.
  destruct (decide (tokenAddr = k)) as [<-|Hne].
  - destruct (JsMap.get tokenAddr m) as [d|]; [|rewrite elem_of_nil; tauto].
    destruct (Nat.eqb _ 0) eqn:Hsz.
    + apply JsSet_size_0 in Hsz. rewrite elem_of_nil. split; [done|].
      intros [Hu Hnot].
      assert (Hin : u ∈ JsSet.delete userId (users d)).
      { apply JsSet_elem_of_delete. split; [|done]. intros ->. by apply Hnot. }
      rewrite Hsz in Hin. by apply not_elem_of_nil in Hin.
    + simpl. rewrite JsSet_elem_of_delete. split.
      * intros [Hne Hu]. split; [done|]. by intros [_ ->].
      * intros [Hu Hnot]. split; [|done]. intros ->. by apply Hnot.
  - split; [|tauto]. intros Hu. split; [done|]. by intros [-> _].
Qed.

Lemma watchers_fold userId keys m k u :
  u ∈ watchers k
        (fold_left (λ m tokenAddr, clearAllAlerts_body userId tokenAddr m)
                   keys m)
  ↔ u ∈ watchers k m ∧ ¬ (k ∈ keys ∧ u = userId).
Proof.
  revert m. induction keys as [|k0 keys IH]; intros m; simpl.
  - rewrite elem_of_nil. tauto.
  - rewrite IH, watchers_body, elem_of_cons. tauto.
Qed.

(** X15: the three operations of the registry act on the relation "user
    watches token" as on a set of pairs: enrolling adds the pair (token,
    user) and nothing else, unenrolling removes that pair and nothing else,
    and clearing removes the pairs of that user and nothing else. *)
Theorem registry_as_watch_relation st tokenAddr userId now k u :
  (u ∈ watchers k
         (marketCapAlerts (addToMarketCapAlerts tokenAddr userId now st))
   ↔ (k = tokenAddr ∧ u = userId) ∨ u ∈ watchers k (marketCapAlerts st))
  ∧ (u ∈ watchers k
           (marketCapAlerts (removeFromMarketCapAlerts tokenAddr userId st))
     ↔ u ∈ watchers k (marketCapAlerts st) ∧ ¬ (k = tokenAddr ∧ u = userId))
  ∧ (u ∈ watchers k (marketCapAlerts (clearAllAlerts userId st))
     ↔ u ∈ watchers k (marketCapAlerts st) ∧ u ≠ userId).
Proof.
  split_and!.
  - apply watchers_add.
  - rewrite removeFromMarketCapAlerts_body. apply watchers_body.
  - unfold clearAllAlerts. cbn [marketCapAlerts set_marketCapAlerts].
    rewrite watchers_fold. split; [intros [Hu Hnot]|intros [Hu Hne]].
    + split; [done|]. intros ->. apply Hnot. split; [|done].
      unfold watchers in Hu.
      destruct (JsMap.get k (marketCapAlerts st)) as [d|] eqn:Hg;
        [|by apply not_elem_of_nil in Hu].
      apply JsMap_get_Some_elem in Hg. unfold JsMap.keys.
      apply list_elem_of_fmap. by exists (k, d).
    + split; [done|]. by intros [_ ->].
Qed.

Lemma set_marketCapAlerts_same st :
  set_marketCapAlerts (marketCapAlerts st) st = st.
Proof. by destruct st. Qed.

Lemma enrol_present tokenAddr userId now st d :
  JsMap.get tokenAddr (marketCapAlerts st) = Some d → userId ∈ users d →
  addToMarketCapAlerts tokenAddr userId now st = st.
Proof.
  intros Hg Hu. unfold addToMarketCapAlerts, JsMap.has. rewrite Hg.
  cbn zeta. rewrite Hg, JsSet_add_present by done.
  replace (mkAlertData (lastPushed d) (users d)) with d by by destruct d.
  rewrite JsMap_set_same by done. apply set_marketCapAlerts_same.
Qed.

(** X16: enrolling is idempotent, and enrolling a user who already watches
    the token changes nothing at all: in particular it does not refresh
    [lastPushed]. *)
Theorem enrol_idempotent tokenAddr userId now now' st :
  addToMarketCapAlerts tokenAddr userId now'
    (addToMarketCapAlerts tokenAddr userId now st)
  = addToMarketCapAlerts tokenAddr userId now st
  ∧ (userId ∈ watchers tokenAddr (marketCapAlerts st) →
     addToMarketCapAlerts tokenAddr userId now st = st).
Proof.
  split.
  - eapply enrol_present.
    + rewrite get_addToMarketCapAlerts, decide_True by done. done.
    + simpl. apply JsSet_elem_of_add. by left.
  - unfold watchers. intros Hu.
    destruct (JsMap.get tokenAddr (marketCapAlerts st)) as [d|] eqn:Hg;
      [|by apply not_elem_of_nil in Hu].
    by eapply enrol_present.
Qed.

(** ** The time an entry carries *)

Lemma lastPushed_add tokenAddr userId now st k d :
  JsMap.get k (marketCapAlerts st) = Some d →
  ∃ d', JsMap.get k (marketCapAlerts (addToMarketCapAlerts tokenAddr userId now st))
        = Some d'
        ∧ lastPushed d' = lastPushed d.
Proof.
  intros Hg. rewrite get_addToMarketCapAlerts.
  destruct (decide (tokenAddr = k)) as [->|Hne]; [|eauto].
  rewrite Hg. eauto.
Qed.

Lemma lastPushed_body userId tokenAddr m k d' :
  JsMap.get k (clearAllAlerts_body userId tokenAddr m) = Some d' →
  ∃ d, JsMap.get k m = Some d ∧ lastPushed d' = lastPushed d.
Proof.
  rewrite get_clearAllAlerts_body.
  destruct (decide (tokenAddr = k)) as [->|Hne]; [|eauto].
  destruct (JsMap.get k m) as [d|]; [|done].
  destruct (Nat.eqb _ 0); [done|]. intros [= <-]. eauto.
Qed.

Lemma lastPushed_fold userId keys m k d' :
  JsMap.get k (fold_left (λ m tokenAddr, clearAllAlerts_body userId tokenAddr m)
                 keys m) = Some d' →
  ∃ d, JsMap.get k m = Some d ∧ lastPushed d' = lastPushed d.
Proof.
  revert m. induction keys as [|k0 keys IH]; intros m; simpl; [eauto|].
  intros (d1 & Hg1 & ->)%IH. by apply lastPushed_body in Hg1.
Qed.

Lemma entries_kept_refl st : entries_kept st st.
Proof. intros k d. eauto. Qed.

Lemma entries_kept_trans st1 st2 st3 :
  entries_kept st1 st2 → entries_kept st2 st3 → entries_kept st1 st3.
Proof.
  intros H12 H23 k d (d2 & Hg2 & <-)%H12.
  by apply H23 in Hg2.
Qed.

Lemma entries_kept_eq st st' :
  marketCapAlerts st' = marketCapAlerts st → entries_kept st st'.
Proof. intros Ha k d. rewrite Ha. eauto. Qed.

Lemma for_each_entries_kept {A E} (body : A → State → State * list E) l st :
  (∀ x s, entries_kept s (body x s).1) → entries_kept st (for_each body l st).1.
Proof.
  intros Hb. apply (for_each_state (entries_kept st)); [|apply entries_kept_refl].
  intros x s _ Hs. eapply entries_kept_trans; [exact Hs|apply Hb].
Qed.

Lemma notifyUser_entries_kept W now addr amount m uid st :
  entries_kept st (notifyUser W now addr amount m uid st).1.
Proof.
  unfold notifyUser. pose proof (getPrefs_alerts uid st) as Ha.
  destruct (getPrefs uid st) as [prefs st1]. cbn [snd] in Ha.
  repeat case_match; cbn [fst]; try by apply entries_kept_eq.
  eapply entries_kept_trans; [by apply entries_kept_eq|].
  intros k d. apply lastPushed_add.
Qed.

Lemma processLog_entries_kept W now log st :
  entries_kept st (processLog W now log st).1.
Proof.
  unfold processLog. destruct log as [addr amount|];
    [|apply entries_kept_refl].
  case_bool_decide; [apply entries_kept_refl|].
  set (st1 := set_sentKeys _ st).
  pose proof (for_each_entries_kept
    (notifyUser W now addr amount (enrich W addr)) (subscribedUsers st1) st1
    (notifyUser_entries_kept W now addr amount (enrich W addr))) as Hk.
  destruct (for_each _ _ st1) as [st2 t]. exact Hk.
Qed.

Lemma onBlock_entries_kept W bn now st :
  entries_kept st (onBlock W bn now st).1.
Proof.
  unfold onBlock.
  set (st0 := if lastProcessed st =? 0 then set_lastProcessed (bn - 1) st
              else st).
  assert (H0 : entries_kept st st0)
    by (apply entries_kept_eq; subst st0; by case_match).
  case_match; [exact H0|].
  destruct (getLogs W _ bn) as [logs|]; [|exact H0].
  pose proof (for_each_entries_kept (processLog W now) logs st0
                (processLog_entries_kept W now)) as Hk.
  destruct (for_each _ logs st0) as [st1 t]. cbn [fst] in *.
  eapply entries_kept_trans; [exact H0|exact Hk].
Qed.

Lemma onReply_entries_kept uid n now st :
  entries_kept st (onReply uid n now st).1.
Proof.
  unfold onReply. pose proof (getPrefs_alerts uid st) as Ha.
  destruct (getPrefs uid st) as [prefs st1]. cbn [snd] in Ha.
  case_match; [by apply entries_kept_eq|].
  set (st2 := putPrefs uid _ st1).
  pose proof (for_each_entries_kept (enrolExisting uid now)
                (marketCapAlerts st2) st2) as Hk.
  destruct (for_each _ _ st2) as [st3 added]. cbn [fst] in *.
  eapply entries_kept_trans; [by apply entries_kept_eq|]. apply Hk.
  intros [k d] s. unfold enrolExisting.
  repeat case_match; cbn [fst]; try apply entries_kept_refl.
  intros k' d'. apply lastPushed_add.
Qed.

(** X17: [lastPushed] is the time the entry was created: no request changes
    it while the entry exists, neither a further enrolment nor a removal of
    one of several watchers. *)
Theorem lastPushed_is_creation_time r st k d d' :
  JsMap.get k (marketCapAlerts st) = Some d →
  JsMap.get k (marketCapAlerts (step r st).1) = Some d' →
  lastPushed d' = lastPushed d.
Proof.
  intros Hg Hg'.
  assert (Hkept : ∀ st', entries_kept st st' →
            JsMap.get k (marketCapAlerts st') = Some d' →
            lastPushed d' = lastPushed d).
  { intros st' Hk Hd'. destruct (Hk k d Hg) as (d1 & Hg1 & <-). congruence. }
  destruct r as [uid|uid|uid l|uid data|uid n now|W bn now|W now];
    cbn [step fst] in Hg'.
  - rewrite getPrefs_alerts in Hg'. cbn in Hg'. congruence.
  - rewrite getPrefs_alerts in Hg'. congruence.
  - rewrite setLang_alerts in Hg'. congruence.
  - unfold onCallback in Hg'. pose proof (getPrefs_alerts uid st) as Ha.
    destruct (getPrefs uid st) as [prefs st1]. cbn [snd] in Ha.
    destruct data; rewrite ?setLang_alerts in Hg';
      cbn [putPrefs marketCapAlerts set_userPushPrefs] in Hg';
      try (rewrite Ha in Hg'; congruence).
    + rewrite removeFromMarketCapAlerts_body, Ha in Hg'.
      apply lastPushed_body in Hg' as (d0 & Hg0 & ->). congruence.
    + cbn [clearAllAlerts marketCapAlerts set_marketCapAlerts] in Hg'.
      rewrite Ha in Hg'.
      apply lastPushed_fold in Hg' as (d0 & Hg0 & ->). congruence.
  - eapply Hkept; [apply onReply_entries_kept|done].
  - eapply Hkept; [apply onBlock_entries_kept|done].
  - destruct (checkMarketCapAlerts_keeps W now st) as (_&_&_&Ha&_).
    rewrite Ha in Hg'. congruence.
Qed.

(** ** What a market-cap check sends *)

Lemma prefs_from_refl st : prefs_from st st.
Proof. split; [apply prefs_kept_refl|auto]. Qed.

Lemma prefs_from_getPrefs st s id :
  prefs_from st s → prefs_from st (getPrefs id s).2.
Proof.
  intros [Hk Hf]. split.
  - eapply prefs_kept_trans; [exact Hk|apply getPrefs_kept].
  - intros u p. unfold getPrefs.
    destruct (userPushPrefs s !! id) as [q|] eqn:Hid; [apply Hf|].
    cbn [snd set_userPushPrefs userPushPrefs].
    destruct (decide (u = id)) as [->|Hne].
    + rewrite lookup_insert_eq. intros [= <-]. right. split; [|done].
      destruct (userPushPrefs st !! id) as [q|] eqn:Hst; [|done].
      apply Hk in Hst. congruence.
    + rewrite lookup_insert_ne by done. apply Hf.
Qed.

Lemma prefs_from_threshold st s u p t :
  prefs_from st s → userPushPrefs s !! u = Some p →
  mcUsdThreshold p = Some t → userPushPrefs st !! u = Some p.
Proof. intros [_ Hf] Hp Ht. by destruct (Hf u p Hp) as [?|[_ ->]]. Qed.

Lemma alertUser_prefs_from W k mc u st s :
  prefs_from st s → prefs_from st (alertUser W k mc u s).1.
Proof.
  intros Hf. unfold alertUser. pose proof (prefs_from_getPrefs st s u Hf) as Hg.
  destruct (getPrefs u s) as [prefs s1]. by repeat case_match.
Qed.

Lemma alertUser_due W k mc u st s d :
  prefs_from st s → (k, d) ∈ marketCapAlerts st → u ∈ users d →
  tokenMarketCap W k = Some mc →
  Forall (due W st) (alertUser W k mc u s).2.
Proof.
  intros Hf Hentry Hu Hmc. unfold alertUser.
  pose proof (getPrefs_lookup u s) as Hl.
  pose proof (prefs_from_getPrefs st s u Hf) as Hg.
  destruct (getPrefs u s) as [prefs s1]. cbn [fst snd] in *.
  destruct (mcUsdThreshold prefs) as [threshold|] eqn:Ht; [|constructor].
  destruct (Num.truthy threshold && Num.ge mc threshold) eqn:Hc;
    [|constructor].
  apply andb_true_iff in Hc as [Htr Hge].
  repeat constructor; [by exists d|done|].
  exists prefs, threshold. split_and!; try done.
  by eapply prefs_from_threshold.
Qed.

Lemma checkToken_prefs_from W entry st s :
  prefs_from st s → prefs_from st (checkToken W entry s).1.
Proof.
  intros Hf. unfold checkToken. destruct entry as [k d].
  case_match; [|done].
  apply (for_each_state (prefs_from st)); [|done].
  intros u s' _. apply alertUser_prefs_from.
Qed.

Lemma checkToken_due W entry st s :
  prefs_from st s → entry ∈ marketCapAlerts st →
  Forall (due W st) (checkToken W entry s).2.
Proof.
  intros Hf Hentry. unfold checkToken. destruct entry as [k d].
  destruct (tokenMarketCap W k) as [mc|] eqn:Hmc; [|constructor].
  apply (for_each_trace (prefs_from st)); [| |done].
  - intros u s' _. apply alertUser_prefs_from.
  - intros u s' Hu Hs'. by eapply alertUser_due.
Qed.

Lemma check_due W now st :
  Forall (due W st) (checkMarketCapAlerts W now st).2.
Proof.
  unfold checkMarketCapAlerts. case_match; [constructor|].
  set (st1 := set_lastMcCheck now st).
  pose proof (for_each_trace (prefs_from st) (due W st) (checkToken W)
                (marketCapAlerts st1) st1) as Hl.
  destruct (for_each _ _ st1) as [st2 t]. cbn [snd] in *.
  constructor; [done|]. apply Hl.
  - intros entry s _. apply checkToken_prefs_from.
  - intros entry s Hin Hs. by apply checkToken_due.
  - exact (prefs_from_refl st).
Qed.

(** X18: a market-cap check sends nothing but alerts that are due: each
    goes to a user on the entry of the token, whose market cap was
    computed in this check and is at or above the non-zero threshold that
    user has stored. *)
Theorem alerts_only_when_due W now st :
  Forall (due W st) (checkMarketCapAlerts W now st).2.
Proof. apply check_due. Qed.

(** ** Well-formed registries *)

Lemma JsMap_has_keys {V} (k : string) (m : list (string * V)) :
  JsMap.has k m = true ↔ k ∈ JsMap.keys m.
Proof.
  unfold JsMap.has, JsMap.keys. induction m as [|[k0 v0] m IH]; simpl.
  - rewrite elem_of_nil. split; [done|tauto].
  - rewrite elem_of_cons. destruct (decide (k0 = k)) as [->|Hne].
    + split; auto.
    + rewrite IH. split; [auto|]. intros [->|?]; done.
Qed.

Lemma JsMap_keys_set {V} (k : string) (v : V) m :
  JsMap.keys (JsMap.set k v m)
  = if JsMap.has k m then JsMap.keys m else JsMap.keys m ++ [k].
Proof.
  unfold JsMap.has, JsMap.keys. induction m as [|[k0 v0] m IH]; [done|].
  cbn [JsMap.set JsMap.get]. destruct (decide (k0 = k)) as [->|Hne]; [done|].
  rewrite !fmap_cons, IH. cbn [fst]. by destruct (JsMap.get k m).
Qed.

Lemma JsMap_keys_delete {V} (k : string) (m : list (string * V)) :
  JsMap.keys (JsMap.delete k m) = filter (λ x, x ≠ k) (JsMap.keys m).
Proof.
  unfold JsMap.keys, JsMap.delete. induction m as [|[k0 v0] m IH]; [done|].
  rewrite fmap_cons, !filter_cons. cbn [fst].
  destruct (decide (k0 ≠ k)); [rewrite fmap_cons|]; by rewrite IH.
Qed.

Lemma JsMap_NoDup_set {V} (k : string) (v : V) m :
  NoDup (JsMap.keys m) → NoDup (JsMap.keys (JsMap.set k v m)).
Proof.
  intros Hnd. rewrite JsMap_keys_set.
  destruct (JsMap.has k m) eqn:Hhas; [done|].
  apply NoDup_app. split_and!; [done| |apply NoDup_singleton].
  intros x Hx ->%list_elem_of_singleton.
  apply JsMap_has_keys in Hx. congruence.
Qed.

Lemma JsMap_NoDup_delete {V} (k : string) (m : list (string * V)) :
  NoDup (JsMap.keys m) → NoDup (JsMap.keys (JsMap.delete k m)).
Proof. intros Hnd. rewrite JsMap_keys_delete. by apply NoDup_filter. Qed.

Lemma JsMap_get_elem_NoDup {V} (k : string) (v : V) m :
  NoDup (JsMap.keys m) → (k, v) ∈ m → JsMap.get k m = Some v.
Proof.
  unfold JsMap.keys. induction m as [|[k0 v0] m IH]; simpl.
  - by intros _ ?%not_elem_of_nil.
  - intros [Hk Hnd]%NoDup_cons [[= -> ->]|Hin]%elem_of_cons.
    + by rewrite decide_True.
    + destruct (decide (k0 = k)) as [->|Hne]; [|auto].
      destruct Hk. apply list_elem_of_fmap. by exists (k, v).
Qed.

Lemma NoDup_keys_add tokenAddr userId now st :
  NoDup (JsMap.keys (marketCapAlerts st)) →
  NoDup (JsMap.keys (marketCapAlerts
                       (addToMarketCapAlerts tokenAddr userId now st))).
Proof.
  intros Hnd. unfold addToMarketCapAlerts.
  set (m1 := if JsMap.has tokenAddr (marketCapAlerts st) then _ else _).
  assert (H1 : NoDup (JsMap.keys m1))
    by (subst m1; case_match; [done|by apply JsMap_NoDup_set]).
  destruct (JsMap.get tokenAddr m1); [|done].
  by apply JsMap_NoDup_set.
Qed.

Lemma NoDup_keys_body userId tokenAddr m :
  NoDup (JsMap.keys m) → NoDup (JsMap.keys (clearAllAlerts_body userId tokenAddr m)).
Proof.
  intros Hnd. unfold clearAllAlerts_body.
  destruct (JsMap.get tokenAddr m); [|done].
  case_match; [apply JsMap_NoDup_delete|]; by apply JsMap_NoDup_set.
Qed.

Lemma NoDup_keys_fold userId keys m :
  NoDup (JsMap.keys m) →
  NoDup (JsMap.keys
           (fold_left (λ m tokenAddr, clearAllAlerts_body userId tokenAddr m)
                      keys m)).
Proof.
  revert m. induction keys as [|k keys IH]; intros m Hnd; [done|].
  simpl. by apply IH, NoDup_keys_body.
Qed.

Lemma registry_wf_prefs st st' :
  registry_wf st → marketCapAlerts st' = marketCapAlerts st →
  (∀ u, is_Some (userPushPrefs st !! u) → is_Some (userPushPrefs st' !! u)) →
  registry_wf st'.
Proof.
  intros [Hnd Hw] Ha Hp. split; rewrite Ha; [done|].
  intros k u Hu. by apply Hp, (Hw k).
Qed.

Lemma prefs_kept_some st st' u :
  prefs_kept st st' →
  is_Some (userPushPrefs st !! u) → is_Some (userPushPrefs st' !! u).
Proof. intros Hk [p Hp]. exists p. by apply Hk. Qed.

Lemma registry_wf_add tokenAddr userId now st :
  registry_wf st → is_Some (userPushPrefs st !! userId) →
  registry_wf (addToMarketCapAlerts tokenAddr userId now st).
Proof.
  intros [Hnd Hw] Hp. split; [by apply NoDup_keys_add|].
  intros k u [[_ ->]|Hu]%watchers_add;
    rewrite addToMarketCapAlerts_prefs; [done|by apply (Hw k)].
Qed.

Lemma registry_wf_getPrefs id st :
  registry_wf st → registry_wf (getPrefs id st).2.
Proof.
  intros Hwf. eapply registry_wf_prefs; [exact Hwf|apply getPrefs_alerts|].
  intros u. apply prefs_kept_some, getPrefs_kept.
Qed.

Lemma getPrefs_some id st : is_Some (userPushPrefs (getPrefs id st).2 !! id).
Proof. rewrite getPrefs_lookup. eauto. Qed.

Lemma registry_wf_putPrefs id p st :
  registry_wf st → registry_wf (putPrefs id p st).
Proof.
  intros Hwf. eapply registry_wf_prefs; [exact Hwf|done|].
  intros u Hu. unfold putPrefs. cbn [set_userPushPrefs userPushPrefs].
  destruct (decide (u = id)) as [->|Hne].
  - rewrite lookup_insert_eq. eauto.
  - by rewrite lookup_insert_ne.
Qed.

Lemma putPrefs_some id p st : is_Some (userPushPrefs (putPrefs id p st) !! id).
Proof.
  unfold putPrefs. cbn [set_userPushPrefs userPushPrefs].
  rewrite lookup_insert_eq. eauto.
Qed.

Lemma registry_wf_setLang id l st :
  registry_wf st → registry_wf (setLang id l st).
Proof.
  intros Hwf. unfold setLang. pose proof (registry_wf_getPrefs id st Hwf) as Hg.
  destruct (getPrefs id st) as [p st1]. by apply registry_wf_putPrefs.
Qed.

Lemma registry_wf_notifyUser W now addr amount m uid st :
  registry_wf st → registry_wf (notifyUser W now addr amount m uid st).1.
Proof.
  intros Hwf. unfold notifyUser.
  pose proof (registry_wf_getPrefs uid st Hwf) as Hg.
  pose proof (getPrefs_some uid st) as Hs.
  destruct (getPrefs uid st) as [prefs st1]. cbn [snd] in *.
  repeat case_match; cbn [fst]; try done. by apply registry_wf_add.
Qed.

Lemma registry_wf_processLog W now log st :
  registry_wf st → registry_wf (processLog W now log st).1.
Proof.
  intros Hwf. unfold processLog. destruct log as [addr amount|]; [|done].
  case_bool_decide; [done|].
  set (st1 := set_sentKeys _ st).
  pose proof (for_each_state registry_wf
    (notifyUser W now addr amount (enrich W addr)) (subscribedUsers st1) st1)
    as Hl.
  destruct (for_each _ _ st1) as [st2 t]. apply Hl; [|done].
  intros uid s _. apply registry_wf_notifyUser.
Qed.

Lemma registry_wf_onBlock W bn now st :
  registry_wf st → registry_wf (onBlock W bn now st).1.
Proof.
  intros Hwf. unfold onBlock.
  set (st0 := if lastProcessed st =? 0 then set_lastProcessed (bn - 1) st
              else st).
  assert (H0 : registry_wf st0) by (subst st0; by case_match).
  case_match; [exact H0|].
  destruct (getLogs W _ bn) as [logs|]; [|exact H0].
  pose proof (for_each_state registry_wf (processLog W now) logs st0) as Hl.
  destruct (for_each _ logs st0) as [st1 t]. cbn [fst] in *.
  apply (Hl (λ log s _, registry_wf_processLog W now log s) H0).
Qed.

Lemma registry_wf_body userId tokenAddr st :
  registry_wf st →
  registry_wf (set_marketCapAlerts
                 (clearAllAlerts_body userId tokenAddr (marketCapAlerts st)) st).
Proof.
  intros [Hnd Hw]. split; cbn [set_marketCapAlerts marketCapAlerts userPushPrefs].
  - by apply NoDup_keys_body.
  - intros k u [Hu _]%watchers_body. by apply (Hw k).
Qed.

Lemma registry_wf_onCallback uid data st :
  registry_wf st → registry_wf (onCallback uid data st).
Proof.
  intros Hwf. unfold onCallback.
  pose proof (registry_wf_getPrefs uid st Hwf) as Hg.
  destruct (getPrefs uid st) as [prefs st1]. cbn [snd] in Hg.
  destruct data; auto using registry_wf_setLang, registry_wf_putPrefs.
  - destruct Hg as [Hnd Hw]. split.
    + rewrite removeFromMarketCapAlerts_body. by apply NoDup_keys_body.
    + intros k u. rewrite removeFromMarketCapAlerts_body,
        removeFromMarketCapAlerts_prefs.
      intros [Hu _]%watchers_body. by apply (Hw k).
  - destruct Hg as [Hnd Hw]. split;
      cbn [clearAllAlerts set_marketCapAlerts marketCapAlerts userPushPrefs].
    + by apply NoDup_keys_fold.
    + intros k u [Hu _]%watchers_fold. by apply (Hw k).
Qed.

Lemma registry_wf_onReply uid n now st :
  registry_wf st → registry_wf (onReply uid n now st).1.
Proof.
  intros Hwf. unfold onReply.
  pose proof (registry_wf_getPrefs uid st Hwf) as Hg.
  destruct (getPrefs uid st) as [prefs st1]. cbn [snd] in Hg.
  case_match; [done|].
  set (st2 := putPrefs uid _ st1).
  pose proof (for_each_state
    (λ s, registry_wf s ∧ is_Some (userPushPrefs s !! uid))
    (enrolExisting uid now) (marketCapAlerts st2) st2) as Hl.
  destruct (for_each _ _ st2) as [st3 added]. cbn [fst] in *.
  apply Hl.
  - intros [k d] s _ [Hs Hu]. unfold enrolExisting.
    repeat case_match; cbn [fst]; try done.
    split; [by apply registry_wf_add|].
    by rewrite addToMarketCapAlerts_prefs.
  - split; [by apply registry_wf_putPrefs|apply putPrefs_some].
Qed.

Lemma registry_wf_step r st : registry_wf st → registry_wf (step r st).1.
Proof.
  intros Hwf.
  destruct r as [uid|uid|uid l|uid data|uid n now|W bn now|W now];
    cbn [step fst].
  - by apply registry_wf_getPrefs.
  - by apply registry_wf_getPrefs.
  - by apply registry_wf_setLang.
  - by apply registry_wf_onCallback.
  - by apply registry_wf_onReply.
  - by apply registry_wf_onBlock.
  - destruct (checkMarketCapAlerts_keeps W now st) as (_&_&_&Ha&Hk&_).
    eapply registry_wf_prefs; [exact Hwf|exact Ha|].
    intros u. by apply prefs_kept_some.
Qed.

Lemma registry_wf_run rs : registry_wf (run rs initial).1.
Proof.
  unfold run. apply (for_each_state registry_wf).
  - intros r s _. apply registry_wf_step.
  - split; [constructor|]. by intros k u ?%not_elem_of_nil.
Qed.

(** ** The check in reachable states *)

Lemma alertUser_known W k mc u st :
  is_Some (userPushPrefs st !! u) → (alertUser W k mc u st).1 = st.
Proof.
  intros [p Hp]. unfold alertUser. rewrite (getPrefs_known _ _ _ Hp).
  by repeat case_match.
Qed.

(** X19: in every state the program reaches, a market-cap check changes
    nothing but [lastMcCheck]: the preferences it reads exist already, so
    none is created, and the registry is only read. *)
Theorem check_changes_only_the_clock (rs : list Request) W now :
  (checkMarketCapAlerts W now (run rs initial).1).1
  = if now - lastMcCheck (run rs initial).1 <? MC_CHECK_INTERVAL
    then (run rs initial).1
    else set_lastMcCheck now (run rs initial).1.
Proof.
  destruct (registry_wf_run rs) as [Hnd Hw].
  set (st := (run rs initial).1) in *.
  unfold checkMarketCapAlerts. case_match; [done|].
  set (st1 := set_lastMcCheck now st).
  pose proof (for_each_state (λ s, s = st1) (checkToken W)
                (marketCapAlerts st1) st1) as Hl.
  destruct (for_each _ _ st1) as [st2 t]. cbn [fst] in *.
  apply Hl; [|done].
  intros [k d] s Hin ->. unfold checkToken. case_match; [|done].
  apply (for_each_state (λ s, s = st1)); [|done].
  intros u s Hu ->. apply alertUser_known.
  apply (Hw k). unfold watchers.
  by rewrite (JsMap_get_elem_NoDup k d (marketCapAlerts st) Hnd Hin).
Qed.

(** ** The count in the confirmation of a threshold *)

Lemma enrol_loop_count userId now l st :
  NoDup l.*1 →
  (∀ k d, (k, d) ∈ l → JsMap.get k (marketCapAlerts st) = Some d) →
  length (for_each (enrolExisting userId now) l st).2 = unwatched userId l.
Proof.
  unfold unwatched. revert st.
  induction l as [|[k d] l IH]; intros st Hnd Hget; [done|].
  rewrite fmap_cons in Hnd. apply NoDup_cons in Hnd as [Hk Hnd].
  rewrite for_each_cons. cbn [fst snd]. rewrite length_app, IH; [|done|].
  - cbn [List.filter snd]. unfold enrolExisting at 1.
    rewrite (Hget k d) by left.
    by destruct (JsSet.has userId (users d)).
  - intros k' d' Hin. rewrite get_enrolExisting, decide_False.
    + apply Hget. by right.
    + intros ->. apply Hk. apply list_elem_of_fmap. by exists (k', d').
Qed.

(** X20: when a threshold is accepted in a state the program reaches, the
    number of enrolments the handler counts for its confirmation
    ([addedCount]) is the number of tokens of the registry the user did not
    watch. *)
Theorem threshold_reply_counts (rs : list Request) uid n now :
  let st := (run rs initial).1 in
  let st2 :=
    putPrefs uid (mkPrefs (requireMediaLink (getPrefs uid st).1)
                          (Some (Num.floor n)) (lang (getPrefs uid st).1))
            (getPrefs uid st).2 in
  let loop := for_each (enrolExisting uid now) (marketCapAlerts st2) st2 in
  length loop.2 = unwatched uid (marketCapAlerts st)
  ∧ (Num.isFinite n = true → Num.le n Num.zero = false →
     (onReply uid n now st).1 = loop.1).
Proof.
  intros st st2 loop.
  destruct (registry_wf_run rs) as [Hnd _]. fold st in Hnd.
  assert (Ha : marketCapAlerts st2 = marketCapAlerts st)
    by (subst st2; cbn; apply getPrefs_alerts).
  split.
  - subst loop. rewrite enrol_loop_count; rewrite Ha; [done|done|].
    intros k d. by apply JsMap_get_elem_NoDup.
  - intros Hfin Hpos. subst loop st2. unfold onReply.
    destruct (getPrefs uid st) as [prefs st1]. rewrite Hfin, Hpos.
    cbn [negb orb fst snd]. by destruct (for_each _ _ _).
Qed.

(** ** Enrolment by the fan-out *)

Lemma notifyUser_prefs_from W now addr amount m uid st s :
  prefs_from st s → prefs_from st (notifyUser W now addr amount m uid s).1.
Proof.
  intros Hf. unfold notifyUser.
  pose proof (prefs_from_getPrefs st s uid Hf) as Hg.
  destruct (getPrefs uid s) as [prefs s1]. cbn [snd] in Hg.
  repeat case_match; cbn [fst]; try done.
  destruct Hg as [Hk Hfrom]. split.
  - intros u p Hp. rewrite addToMarketCapAlerts_prefs. by apply Hk.
  - intros u p. rewrite addToMarketCapAlerts_prefs. apply Hfrom.
Qed.

Lemma notifyUser_watchers W now addr amount uid st s k u :
  prefs_from st s →
  u ∈ watchers k (marketCapAlerts
                    (notifyUser W now addr amount (enrich W addr) uid s).1)
  ↔ u ∈ watchers k (marketCapAlerts s)
    ∨ (k = addr ∧ u = uid ∧ enrols W addr amount st uid = true).
Proof.
  intros Hf. unfold notifyUser, enrols.
  pose proof (getPrefs_lookup uid s) as Hl.
  pose proof (getPrefs_alerts uid s) as Ha.
  pose proof (prefs_from_getPrefs st s uid Hf) as [Hk Hfrom].
  destruct (getPrefs uid s) as [prefs s1]. cbn [fst snd] in *.
  destruct (Hfrom uid prefs Hl) as [Hst|[Hst ->]]; rewrite Hst.
  - destruct (requireMediaLink prefs && negb (hasMedia (enrich W addr)));
      cbn [negb andb fst]; [rewrite Ha; split; [auto|by intros [?|(_&_&?)]]|].
    destruct (sendMessage W uid _); cbn [andb fst];
      [|rewrite Ha; split; [auto|by intros [?|(_&_&?)]]].
    destruct (thresholdSet prefs); cbn [fst];
      [|rewrite Ha; split; [auto|by intros [?|(_&_&?)]]].
    rewrite watchers_add, Ha. split.
    + intros [[-> ->]|?]; auto.
    + intros [?|(-> & -> & _)]; auto.
  - cbn [requireMediaLink defaultPrefs andb].
    change (thresholdSet defaultPrefs) with false.
    assert (Hsame : ∀ b : bool,
      marketCapAlerts (if b then (s1, [Notify uid addr amount
          (deployedText (lang defaultPrefs) addr amount (enrich W addr)) true])
        else (s1, [Notify uid addr amount
          (deployedText (lang defaultPrefs) addr amount (enrich W addr))
          false])).1 = marketCapAlerts s) by (by intros []).
    rewrite Hsame. split; [auto|by intros [?|(_&_&?)]].
Qed.

Lemma notify_loop_watchers W now addr amount st l s k u :
  prefs_from st s →
  u ∈ watchers k (marketCapAlerts
        (for_each (notifyUser W now addr amount (enrich W addr)) l s).1)
  ↔ u ∈ watchers k (marketCapAlerts s)
    ∨ (k = addr ∧ u ∈ l ∧ enrols W addr amount st u = true).
Proof.
  revert s. induction l as [|x l IH]; intros s Hf.
  - cbn [for_each fst]. rewrite elem_of_nil. tauto.
  - rewrite for_each_cons. cbn [fst].
    rewrite IH by by apply notifyUser_prefs_from.
    rewrite notifyUser_watchers by done. rewrite elem_of_cons. split.
    + intros [[?|(->&->&?)]|(->&?&?)]; auto.
    + intros [?|(->&[->|?]&?)]; auto 6.
Qed.

(** X21: the fan-out of a new event enrols exactly the subscribers to whom
    the notice was delivered and who hold a threshold: afterwards a user
    watches a token if and only if they watched it before, or it is the
    token of the event and the user is a subscriber whose filter the event
    passes, to whom the send succeeded, and whose threshold is set. *)
Theorem fanout_enrols W now addr amount st k u :
  dedupKey addr amount ∉ sentKeys st →
  u ∈ watchers k
        (marketCapAlerts (processLog W now (Deployed addr amount) st).1)
  ↔ u ∈ watchers k (marketCapAlerts st)
    ∨ (k = addr ∧ u ∈ subscribedUsers st
       ∧ enrols W addr amount st u = true).
Proof.
  intros Hfresh. unfold processLog. rewrite bool_decide_eq_false_2 by done.
  set (st1 := set_sentKeys _ st).
  pose proof (notify_loop_watchers W now addr amount st1
                (subscribedUsers st1) st1 k u (prefs_from_refl st1)) as Hl.
  destruct (for_each _ _ st1) as [st2 t]. exact Hl.
Qed.

(** ** Where the tokens of the registry come from *)

Lemma delivered_token_app t t' k :
  delivered_token t k → delivered_token (t ++ t') k.
Proof.
  intros (uid & amount & text & Hin). exists uid, amount, text.
  apply elem_of_app. by left.
Qed.

Lemma registry_delivered_neutral st st' t t' :
  registry_delivered st t →
  (∀ k, JsMap.has k (marketCapAlerts st') = true →
        JsMap.has k (marketCapAlerts st) = true) →
  registry_delivered st' (t ++ t').
Proof. intros Hinv Hsub k Hk. by apply delivered_token_app, Hinv, Hsub. Qed.

Lemma has_addToMarketCapAlerts tokenAddr userId now st k :
  JsMap.has k (marketCapAlerts (addToMarketCapAlerts tokenAddr userId now st))
    = true →
  k = tokenAddr ∨ JsMap.has k (marketCapAlerts st) = true.
Proof.
  unfold JsMap.has. rewrite get_addToMarketCapAlerts.
  destruct (decide (tokenAddr = k)) as [<-|Hne]; auto.
Qed.

Lemma has_clearAllAlerts_body userId tokenAddr m k :
  JsMap.has k (clearAllAlerts_body userId tokenAddr m) = true →
  JsMap.has k m = true.
Proof.
  unfold JsMap.has.
  destruct (JsMap.get k (clearAllAlerts_body userId tokenAddr m)) as [d'|]
    eqn:Hg; [|done].
  apply lastPushed_body in Hg as (d & -> & _). done.
Qed.

Lemma has_clear_fold userId keys m k :
  JsMap.has k (fold_left (λ m tokenAddr, clearAllAlerts_body userId tokenAddr m)
                 keys m) = true →
  JsMap.has k m = true.
Proof.
  unfold JsMap.has.
  destruct (JsMap.get k (fold_left _ keys m)) as [d'|] eqn:Hg; [|done].
  apply lastPushed_fold in Hg as (d & -> & _). done.
Qed.

Lemma registry_delivered_notifyUser W now addr amount m uid st t :
  registry_delivered st t →
  registry_delivered (notifyUser W now addr amount m uid st).1
                     (t ++ (notifyUser W now addr amount m uid st).2).
Proof.
  intros Hinv. unfold notifyUser. pose proof (getPrefs_alerts uid st) as Ha.
  destruct (getPrefs uid st) as [prefs st1]. cbn [snd] in Ha.
  repeat case_match; cbn [fst snd];
    try (eapply registry_delivered_neutral; [exact Hinv|by rewrite Ha]).
  intros k [->|Hk]%has_addToMarketCapAlerts.
  - eexists uid, amount, _. apply elem_of_app. right. left.
  - apply delivered_token_app, Hinv. by rewrite <- Ha.
Qed.

Lemma registry_delivered_processLog W now log st t :
  registry_delivered st t →
  registry_delivered (processLog W now log st).1
                     (t ++ (processLog W now log st).2).
Proof.
  intros Hinv. unfold processLog.
  destruct log as [addr amount|]; [|cbn; by rewrite app_nil_r].
  case_bool_decide; [cbn; by rewrite app_nil_r|].
  set (st1 := set_sentKeys _ st). set (key := dedupKey addr amount).
  pose proof (for_each_inv registry_delivered
    (notifyUser W now addr amount (enrich W addr)) (subscribedUsers st1) st1
    (t ++ [KeyRecorded key; Enrich addr amount])) as Hl.
  destruct (for_each _ _ st1) as [st2 sends]. cbn [fst snd] in *.
  rewrite <- app_assoc in Hl. apply Hl.
  - intros uid s t' _. apply registry_delivered_notifyUser.
  - eapply registry_delivered_neutral; [exact Hinv|done].
Qed.

Lemma registry_delivered_step r st t :
  registry_delivered st t →
  registry_delivered (step r st).1 (t ++ (step r st).2).
Proof.
  intros Hinv.
  destruct r as [uid|uid|uid l|uid data|uid n now|W bn now|W now];
    cbn [step fst snd].
  - eapply registry_delivered_neutral; [exact Hinv|].
    by rewrite getPrefs_alerts.
  - eapply registry_delivered_neutral; [exact Hinv|].
    by rewrite getPrefs_alerts.
  - eapply registry_delivered_neutral; [exact Hinv|].
    by rewrite setLang_alerts.
  - eapply registry_delivered_neutral; [exact Hinv|].
    intros k. unfold onCallback. pose proof (getPrefs_alerts uid st) as Ha.
    destruct (getPrefs uid st) as [prefs st1]. cbn [snd] in Ha.
    destruct data; rewrite ?setLang_alerts;
      cbn [putPrefs clearAllAlerts marketCapAlerts set_userPushPrefs
           set_marketCapAlerts];
      rewrite ?removeFromMarketCapAlerts_body, Ha; try done.
    + apply has_clearAllAlerts_body.
    + apply has_clear_fold.
  - eapply registry_delivered_neutral; [exact Hinv|].
    intros k. unfold onReply. pose proof (getPrefs_alerts uid st) as Ha.
    destruct (getPrefs uid st) as [prefs st1]. cbn [snd] in Ha.
    case_match; [cbn [fst]; by rewrite Ha|].
    set (st2 := putPrefs uid _ st1).
    pose proof (for_each_state
      (λ s, JsMap.keys (marketCapAlerts s) = JsMap.keys (marketCapAlerts st))
      (enrolExisting uid now) (marketCapAlerts st2) st2
      ltac:(intros x s _ <-; apply keys_enrolExisting)
      (f_equal JsMap.keys Ha)) as Hkeys.
    destruct (for_each _ _ st2) as [st3 added]. cbn [fst] in *.
    by rewrite !JsMap_has_keys, Hkeys.
  - unfold onBlock.
    set (st0 := if lastProcessed st =? 0 then set_lastProcessed (bn - 1) st
                else st).
    assert (H0 : marketCapAlerts st0 = marketCapAlerts st)
      by (subst st0; by case_match).
    case_match;
      [eapply registry_delivered_neutral;
         [exact Hinv|cbn [fst]; by rewrite H0]|].
    destruct (getLogs W _ bn) as [logs|];
      [|eapply registry_delivered_neutral;
          [exact Hinv|cbn [fst]; by rewrite H0]].
    pose proof (for_each_inv registry_delivered (processLog W now) logs st0
      (t ++ [GetLogs (lastProcessed st0 + 1) bn])) as Hl.
    destruct (for_each _ logs st0) as [st1 tl]. cbn [fst snd] in *.
    rewrite <- app_assoc in Hl. intros k Hk. apply Hl; [| |exact Hk].
    + intros log s t' _. apply registry_delivered_processLog.
    + eapply registry_delivered_neutral; [exact Hinv|by rewrite H0].
  - destruct (checkMarketCapAlerts_keeps W now st) as (_&_&_&Ha&_).
    eapply registry_delivered_neutral; [exact Hinv|by rewrite Ha].
Qed.

(** X22: every token the registry holds, in any state the program reaches,
    has been the subject of a deployment notice that was delivered to
    somebody: entries are created by the fan-out only, after a successful
    send. *)
Theorem registry_tokens_were_delivered (rs : list Request) :
  Forall (delivered_token (run rs initial).2)
         (JsMap.keys (marketCapAlerts (run rs initial).1)).
Proof.
  apply Forall_forall. intros k Hk%JsMap_has_keys. revert k Hk.
  change (registry_delivered (run rs initial).1 ([] ++ (run rs initial).2)).
  unfold run. apply for_each_inv.
  - intros r s t' _. apply registry_delivered_step.
  - by intros k.
Qed.

(** ** Replies and the state *)

Lemma state_bind {A B} (h : Handler A) (k : A → Handler B) st :
  state_of ((h ≫= k) st) =
    match (h st).1.1 with
    | Some a => state_of (k a (h st).1.2)
    | None => (h st).1.2
    end.
Proof.
  unfold mbind, Handler_bind, state_of. destruct (h st) as [[[a|] st1] c1];
    [|done].
  cbn [fst snd]. by destruct (k a st1) as [[r st2] c2].
Qed.

Lemma getPrefs_stable id st :
  is_Some (userPushPrefs st !! id) → getPrefs id st = ((getPrefs id st).1, st).
Proof. intros [p Hp]. by rewrite (getPrefs_known _ _ _ Hp). Qed.

Lemma send_state C m st : state_of (send C m st) = st.
Proof. done. Qed.

Lemma showMenu_state C id st :
  state_of (showMenu C id st) = (getPrefs id st).2.
Proof.
  unfold showMenu. rewrite state_bind. unfold prefsOf.
  by destruct (getPrefs id st) as [p st1].
Qed.

Lemma showPushFilters_state C id st :
  state_of (showPushFilters C id st) = (getPrefs id st).2.
Proof.
  unfold showPushFilters. rewrite state_bind. unfold prefsOf.
  destruct (getPrefs id st) as [p st1]. cbn [fst snd].
  by rewrite state_bind.
Qed.

Lemma showMarketCapAlerts_state C id st :
  state_of (showMarketCapAlerts C id st) = (getPrefs id st).2.
Proof.
  unfold showMarketCapAlerts. rewrite state_bind. unfold prefsOf.
  destruct (getPrefs id st) as [p st1]. cbn [fst snd].
  by rewrite state_bind.
Qed.

Lemma answer_then_state C a (h : Handler unit) st :
  state_of (h st) = st → state_of ((answer C a;; h) st) = st.
Proof.
  intros Hh. rewrite state_bind. unfold answer. cbn [fst snd].
  by destruct (answerCbQuery C a).
Qed.

Lemma modify_then_state f (h : Handler unit) st :
  state_of ((modify f;; h) st) = state_of (h (f st)).
Proof. by rewrite state_bind. Qed.

Lemma known_after_getPrefs id st :
  (getPrefs id (getPrefs id st).2).2 = (getPrefs id st).2.
Proof.
  rewrite (getPrefs_stable id (getPrefs id st).2); [done|].
  apply getPrefs_some.
Qed.

Lemma setLang_some id l st : is_Some (userPushPrefs (setLang id l st) !! id).
Proof.
  unfold setLang. destruct (getPrefs id st) as [p st1]. apply putPrefs_some.
Qed.

Lemma show_known_state (show : Ctx → UserId → Handler unit) C id st :
  (∀ s, state_of (show C id s) = (getPrefs id s).2) →
  is_Some (userPushPrefs st !! id) → state_of (show C id st) = st.
Proof. intros Hshow Hp. by rewrite Hshow, getPrefs_stable. Qed.

Lemma sendReplies_state C t st : state_of (sendReplies C t st) = st.
Proof.
  revert st. induction t as [|e t IH]; intros st; [done|].
  destruct e; cbn [sendReplies]; try apply IH.
  rewrite state_bind. unfold send. cbn [fst snd].
  destruct (reply C _); [done|apply IH].
Qed.

(** X23: no reply decides a change of the state: whatever
    [answerCbQuery] and [reply] do, succeed or throw, the state a command,
    a button or a message leaves is that of the handler with the replies
    left out; every change is made before the first call that can throw. *)
Theorem replies_never_change_the_state C u st :
  state_of (handle C u st)
  = match core u with Some r => (step r st).1 | None => st end.
Proof.
  destruct u as [id|id|id text|id|id data|id isReply n now];
    cbn [handle core step fst].
  - unfold onStart. rewrite modify_then_state. apply showMenu_state.
  - apply showMenu_state.
  - unfold onLang. rewrite modify_then_state.
    apply (show_known_state showMenu); [apply showMenu_state|].
    apply setLang_some.
  - unfold onMcStatus. rewrite state_bind. unfold prefsOf.
    destruct (getPrefs id st) as [p st1]. cbn [fst snd].
    rewrite state_bind. cbn [current fst snd]. unfold sendOrReport, state_of.
    by repeat case_match.
  - unfold onCallbackQuery, onCallback. rewrite state_bind. unfold prefsOf.
    pose proof (getPrefs_some id st) as Hsome.
    destruct (getPrefs id st) as [prefs st1]. cbn [fst snd] in *.
    assert (Hmenu : ∀ a, state_of ((answer C a;; showMenu C id) st1) = st1).
    { intros a. apply answer_then_state.
      by apply (show_known_state showMenu); [apply showMenu_state|]. }
    assert (Hfilters :
      ∀ a, state_of ((answer C a;; showPushFilters C id) st1) = st1).
    { intros a. apply answer_then_state.
      by apply (show_known_state showPushFilters);
        [apply showPushFilters_state|]. }
    assert (Halerts :
      ∀ a s, is_Some (userPushPrefs s !! id) →
             state_of ((answer C a;; showMarketCapAlerts C id) s) = s).
    { intros a s Hs. apply answer_then_state.
      by apply (show_known_state showMarketCapAlerts);
        [apply showMarketCapAlerts_state|]. }
    assert (Hput : ∀ p a,
      state_of ((modify (putPrefs id p);; answer C a;; showPushFilters C id)
                  st1) = putPrefs id p st1).
    { intros p a. rewrite modify_then_state. apply answer_then_state.
      apply (show_known_state showPushFilters);
        [apply showPushFilters_state|apply putPrefs_some]. }
    assert (Hlang : ∀ l a,
      state_of ((modify (setLang id l);; answer C a;; showMenu C id) st1)
      = setLang id l st1).
    { intros l a. rewrite modify_then_state. apply answer_then_state.
      apply (show_known_state showMenu);
        [apply showMenu_state|apply setLang_some]. }
    destruct data as [d|]; cbn [dataIs decodeCallback orb];
      [|done].
    unfold decodeCallback. cbn [dataIs].
    destruct (String.eqb d "m_lang") eqn:E1.
    { apply String.eqb_eq in E1 as ->. cbn. by apply answer_then_state. }
    destruct (String.eqb d "lang_en") eqn:E2; [apply Hlang|].
    destruct (String.eqb d "lang_zh") eqn:E3; [apply Hlang|]. cbn [orb].
    destruct (String.eqb d "m_filters") eqn:E4.
    { apply String.eqb_eq in E4 as ->. cbn. apply Hfilters. }
    destruct (String.eqb d "pf_media") eqn:E5; [apply Hput|].
    destruct (String.eqb d "pf_mc_set") eqn:E6.
    { apply String.eqb_eq in E6 as ->. cbn. by apply answer_then_state. }
    destruct (String.eqb d "pf_mc_clear") eqn:E7; [apply Hput|].
    destruct (String.eqb d "pf_manage_alerts") eqn:E8.
    { apply String.eqb_eq in E8 as ->. cbn. by apply Halerts. }
    destruct (String.eqb d "pf_back") eqn:E9.
    { apply String.eqb_eq in E9 as ->. cbn. apply Hfilters. }
    destruct (String.eqb d "m_back") eqn:E10.
    { apply String.eqb_eq in E10 as ->. cbn. apply Hmenu. }
    destruct (String.prefix "remove_alert_" d) eqn:E11.
    { rewrite modify_then_state. apply Halerts.
      by rewrite removeFromMarketCapAlerts_prefs. }
    destruct (String.eqb d "clear_all_alerts") eqn:E12.
    { rewrite modify_then_state. by apply Halerts. }
    destruct (String.eqb d "m_status") eqn:E13.
    { apply answer_then_state. by rewrite state_bind. }
    destruct (String.eqb d "m_analyze") eqn:E14;
      [by apply answer_then_state|].
    unfold answer, state_of. done.
  - destruct isReply; [|done]. cbn [onMessage core step fst].
    rewrite state_bind. unfold threshold.
    pose proof (onReply_stored id n now st) as Hstored.
    pose proof (getPrefs_some id st) as Hsome.
    pose proof (onReply_rejected id n now st) as Hrej.
    destruct (onReply id n now st) as [st1 t]. cbn [fst snd] in *.
    rewrite state_bind.
    pose proof (sendReplies_state C t st1) as Hs. unfold state_of in Hs.
    destruct (sendReplies C t st1) as [[[[]|] st2] c]; cbn [fst snd] in *;
      subst st2; [|done].
    destruct (Num.isFinite n) eqn:Hfin; cbn [negb orb].
    + destruct (Num.le n Num.zero) eqn:Hle; [done|].
      apply (show_known_state showPushFilters);
        [apply showPushFilters_state|].
      rewrite Hstored by done. eauto.
    + done.
Qed.

(** ** The argument of [/lang] *)

Lemma append_assoc (a b c : string) : (a +:+ b) +:+ c = a +:+ b +:+ c.
Proof.
  induction a as [|x a IH]; [done|].
  change (String x ((a +:+ b) +:+ c) = String x (a +:+ b +:+ c)).
  by rewrite IH.
Qed.

Lemma append_nil_r (a : string) : a +:+ "" = a.
Proof.
  induction a as [|x a IH]; [done|].
  change (String x (a +:+ "") = String x a). by rewrite IH.
Qed.

Lemma spaceBytes_visible c r : visible c = true → spaceBytes (String c r) = O.
Proof.
  unfold visible, spaceBytes, Str.ascii_space.
  intros [Hlo Hhi]%andb_true_iff. apply N.leb_le in Hlo, Hhi.
  set (b := N_of_ascii c) in *.
  assert (Hb : ∀ k, (126 < k)%N → (b =? k)%N = false)
    by (intros k Hk; apply N.eqb_neq; lia).
  rewrite (proj2 (N.leb_gt b 13)) by lia.
  rewrite (proj2 (N.eqb_neq b 32)) by lia.
  rewrite !Hb by lia. rewrite andb_false_r. cbn [orb andb].
  destruct r as [|c1 [|c2 r2]]; done.
Qed.

Lemma splitFrom_word w inRun field rest :
  word w = true → w ≠ "" →
  splitFrom O inRun field (w +:+ rest) = splitFrom O false (field +:+ w) rest.
Proof.
  revert inRun field. induction w as [|c w IH]; intros inRun field Hw Hne;
    [done|].
  cbn [word] in Hw. apply andb_true_iff in Hw as [Hc Hw].
  change (String c w +:+ rest) with (String c (w +:+ rest)).
  cbn [splitFrom]. rewrite spaceBytes_visible by done.
  destruct w as [|c' w'].
  - done.
  - rewrite IH by done. f_equal.
    change (String c (String c' w')) with (String c "" +:+ String c' w').
    by rewrite append_assoc.
Qed.

Lemma splitFrom_last w inRun field :
  word w = true → splitFrom O inRun field w = [field +:+ w].
Proof.
  intros Hw. destruct w as [|c w]; [by rewrite append_nil_r|].
  rewrite <- (append_nil_r (String c w)) at 1.
  by rewrite splitFrom_word.
Qed.

Lemma splitFrom_space field rest :
  splitFrom O false field (" " +:+ rest) = field :: splitFrom O true "" rest.
Proof. done. Qed.

Lemma splitSpaces_one_word w : word w = true → splitSpaces w = [w].
Proof. intros Hw. unfold splitSpaces. by rewrite splitFrom_last. Qed.

Lemma splitSpaces_words cmd arg :
  word cmd = true → cmd ≠ "" → word arg = true →
  splitSpaces (cmd +:+ " " +:+ arg) = [cmd; arg].
Proof.
  intros Hc Hne Ha. unfold splitSpaces.
  rewrite splitFrom_word, splitFrom_space by done.
  by rewrite splitFrom_last.
Qed.

Lemma splitSpaces_more cmd arg rest :
  word cmd = true → cmd ≠ "" → word arg = true → arg ≠ "" →
  ∃ fields, splitSpaces (cmd +:+ " " +:+ arg +:+ " " +:+ rest)
            = cmd :: arg :: fields.
Proof.
  intros Hc Hne Ha Hane. unfold splitSpaces.
  rewrite splitFrom_word, splitFrom_space by done.
  rewrite splitFrom_word, splitFrom_space by done. eauto.
Qed.

(** X24: [/lang] reads the second white-space-separated field of the text,
    whatever follows it, and compares it with [zh] without regard to case:
    [/lang zh] (or [ZH], [Zh], [zH]) sets Chinese, and any other argument,
    or none, sets English, also for a user whose language was Chinese. *)
Theorem lang_command_argument C id cmd arg rest st :
  word cmd = true → cmd ≠ "" → word arg = true →
  let chosen := if String.eqb (Str.toLowerCase arg) "zh" then zh else en in
  langOf cmd = en
  ∧ langOf (cmd +:+ " " +:+ arg) = chosen
  ∧ (arg ≠ "" → langOf (cmd +:+ " " +:+ arg +:+ " " +:+ rest) = chosen)
  ∧ (lang <$> userPushPrefs
                (state_of (onLang C id (cmd +:+ " " +:+ arg) st)) !! id)
    = Some chosen.
Proof.
  intros Hc Hne Ha chosen. unfold langOf, langArg.
  rewrite splitSpaces_one_word, splitSpaces_words by done.
  split_and!; try done.
  - intros Hane.
    by destruct (splitSpaces_more cmd arg rest Hc Hne Ha Hane) as [fs ->].
  - unfold onLang. rewrite modify_then_state.
    rewrite (show_known_state showMenu);
      [|apply showMenu_state|apply setLang_some].
    unfold setLang, langOf, langArg. rewrite splitSpaces_words by done.
    destruct (getPrefs id st) as [p st1].
    unfold putPrefs. cbn [set_userPushPrefs userPushPrefs].
    by rewrite lookup_insert_eq.
Qed.

(** ** Buttons *)

Lemma calls_bind {A B} (h : Handler A) (k : A → Handler B) st :
  calls_of ((h ≫= k) st) =
    calls_of (h st)
    ++ match (h st).1.1 with
       | Some a => calls_of (k a (h st).1.2)
       | None => []
       end.
Proof.
  unfold mbind, Handler_bind, calls_of.
  destruct (h st) as [[[a|] st1] c1]; cbn [fst snd]; [|by rewrite app_nil_r].
  by destruct (k a st1) as [[r st2] c2].
Qed.

Lemma sent_app c1 c2 : sent (c1 ++ c2) = sent c1 ++ sent c2.
Proof. apply omap_app. Qed.

Lemma wired_app c1 c2 : wired c1 → wired c2 → wired (c1 ++ c2).
Proof. unfold wired. rewrite sent_app. apply Forall_app_2. Qed.

Lemma wired_bind {A B} (h : Handler A) (k : A → Handler B) st :
  wired (calls_of (h st)) → (∀ a s, wired (calls_of (k a s))) →
  wired (calls_of ((h ≫= k) st)).
Proof.
  intros Hh Hk. rewrite calls_bind. apply wired_app; [done|].
  destruct (h st).1.1; [apply Hk|constructor].
Qed.

Lemma wired_silent {A} (h : Handler A) st :
  sent (calls_of (h st)) = [] → wired (calls_of (h st)).
Proof. unfold wired. intros ->. constructor. Qed.

Lemma wired_send C m st :
  forallb (λ b, recognised (callback_data b)) (buttons m) = true →
  wired (calls_of (send C m st)).
Proof.
  intros Hm. repeat constructor. apply Forall_forall.
  intros b Hb%list_elem_of_In. by apply (proj1 (forallb_forall _ _) Hm).
Qed.

Lemma wired_showMenu C id st : wired (calls_of (showMenu C id st)).
Proof.
  unfold showMenu. apply wired_bind; [by apply wired_silent; unfold prefsOf; destruct (getPrefs id st)|].
  intros p s. apply wired_send. by destruct (lang p).
Qed.

Lemma wired_showPushFilters C id st :
  wired (calls_of (showPushFilters C id st)).
Proof.
  unfold showPushFilters.
  apply wired_bind; [by apply wired_silent; unfold prefsOf; destruct (getPrefs id st)|].
  intros p s. apply wired_bind; [by apply wired_silent|].
  intros s' s''. apply wired_send. by destruct (lang p), (requireMediaLink p).
Qed.

Lemma prefix_append p s : String.prefix p (p +:+ s) = true.
Proof.
  induction p as [|c p IH]; [by destruct s|].
  change (String c p +:+ s) with (String c (p +:+ s)). cbn [String.prefix].
  by destruct (ascii_dec c c).
Qed.

Lemma removeButtons_recognised i found :
  forallb (λ b, recognised (callback_data b)) (removeButtons i found) = true.
Proof.
  revert i. induction found as [|a found IH]; intros i; [done|].
  cbn [removeButtons forallb callback_data]. rewrite IH, andb_true_r.
  unfold recognised. by rewrite prefix_append, orb_true_r.
Qed.

Lemma alertsMessage_recognised C l found :
  forallb (λ b, recognised (callback_data b))
          (buttons (alertsMessage C l found)) = true.
Proof.
  unfold alertsMessage. destruct (Nat.eqb (length found) 0); [by destruct l|].
  cbn [buttons reply_markup].
  destruct (0 <? length (removeButtons 0 _))%nat;
    cbn [app concat]; rewrite ?forallb_app, ?removeButtons_recognised;
    by destruct l.
Qed.

Lemma wired_showMarketCapAlerts C id st :
  wired (calls_of (showMarketCapAlerts C id st)).
Proof.
  unfold showMarketCapAlerts.
  apply wired_bind; [by apply wired_silent; unfold prefsOf; destruct (getPrefs id st)|].
  intros p s. apply wired_bind; [by apply wired_silent|].
  intros s' s''. apply wired_send, alertsMessage_recognised.
Qed.

Lemma wired_answer_then C a (h : Handler unit) st :
  (∀ s, wired (calls_of (h s))) → wired (calls_of ((answer C a;; h) st)).
Proof. intros Hh. apply wired_bind; [by apply wired_silent|]. by intros _. Qed.

Lemma wired_modify_then f (h : Handler unit) st :
  (∀ s, wired (calls_of (h s))) → wired (calls_of ((modify f;; h) st)).
Proof. intros Hh. apply wired_bind; [by apply wired_silent|]. by intros _. Qed.

Lemma wired_plain C text markup st :
  markup = no_markup ∨ markup = force_reply →
  wired (calls_of (send C (mkMessage text false markup) st)).
Proof. intros [-> | ->]; by apply wired_send. Qed.

Lemma wired_sendReplies C t st : wired (calls_of (sendReplies C t st)).
Proof.
  revert st. induction t as [|e t IH]; intros st; [constructor|].
  destruct e; cbn [sendReplies]; try apply IH.
  apply wired_bind; [apply wired_plain; auto|]. intros _. apply IH.
Qed.

Lemma wired_onCallbackQuery C id data st :
  wired (calls_of (onCallbackQuery C id data st)).
Proof.
  unfold onCallbackQuery.
  apply wired_bind; [by apply wired_silent; unfold prefsOf; destruct (getPrefs id st)|].
  intros prefs s.
  repeat case_match;
    repeat first
      [ apply wired_answer_then; intros
      | apply wired_modify_then; intros
      | apply wired_showMenu
      | apply wired_showPushFilters
      | apply wired_showMarketCapAlerts
      | by (apply wired_plain; auto)
      | by apply wired_silent
      | by (apply wired_send; destruct (lang prefs))
      | (apply wired_bind; [by apply wired_silent|intros]) ].
Qed.

Lemma wired_handle C u st : wired (calls_of (handle C u st)).
Proof.
  destruct u as [id|id|id text|id|id data|id isReply n now]; cbn [handle].
  - apply wired_modify_then. intros. apply wired_showMenu.
  - apply wired_showMenu.
  - apply wired_modify_then. intros. apply wired_showMenu.
  - unfold onMcStatus.
    apply wired_bind; [by apply wired_silent; unfold prefsOf; destruct (getPrefs id st)|].
    intros p s. apply wired_bind; [by apply wired_silent|].
    intros s' s''. unfold sendOrReport, wired, calls_of.
    repeat case_match; by repeat constructor.
  - apply wired_onCallbackQuery.
  - unfold onMessage. destruct isReply; [|constructor].
    apply wired_bind;
      [by apply wired_silent; unfold threshold; destruct (onReply id n now st)|].
    intros t s. apply wired_bind; [apply wired_sendReplies|].
    intros _ s'. case_match; [constructor|apply wired_showPushFilters].
Qed.

Lemma sent_bind {A B} (h : Handler A) (k : A → Handler B) st :
  sent (calls_of ((h ≫= k) st)) =
    sent (calls_of (h st))
    ++ match (h st).1.1 with
       | Some a => sent (calls_of (k a (h st).1.2))
       | None => []
       end.
Proof. rewrite calls_bind, sent_app. by destruct (h st).1.1. Qed.

Lemma sent_answer_then C a (h : Handler unit) st :
  answerCbQuery C a = true →
  sent (calls_of ((answer C a;; h) st)) = sent (calls_of (h st)).
Proof. intros Hok. rewrite sent_bind. unfold answer. cbn. by rewrite Hok. Qed.

Lemma sent_modify_then f (h : Handler unit) st :
  sent (calls_of ((modify f;; h) st)) = sent (calls_of (h (f st))).
Proof. by rewrite sent_bind. Qed.

Lemma sent_showMenu C id st :
  ∃ m, sent (calls_of (showMenu C id st)) = [m].
Proof.
  unfold showMenu. rewrite sent_bind. unfold prefsOf.
  destruct (getPrefs id st) as [p st1]. cbn. eauto.
Qed.

Lemma sent_showPushFilters C id st :
  ∃ m, sent (calls_of (showPushFilters C id st)) = [m].
Proof.
  unfold showPushFilters. rewrite sent_bind. unfold prefsOf.
  destruct (getPrefs id st) as [p st1]. cbn [fst snd calls_of sent omap app].
  rewrite sent_bind. cbn. eauto.
Qed.

Lemma sent_showMarketCapAlerts C id st :
  ∃ m, sent (calls_of (showMarketCapAlerts C id st)) = [m].
Proof.
  unfold showMarketCapAlerts. rewrite sent_bind. unfold prefsOf.
  destruct (getPrefs id st) as [p st1]. cbn [fst snd calls_of sent omap app].
  rewrite sent_bind. cbn. eauto.
Qed.

Lemma recognised_replies C id d st :
  (∀ a, answerCbQuery C a = true) → recognised d = true →
  ∃ m, sent (calls_of (onCallbackQuery C id (Some d) st)) = [m].
Proof.
  intros Hok Hrec. unfold onCallbackQuery. rewrite sent_bind. unfold prefsOf.
  destruct (getPrefs id st) as [prefs st1].
  cbn [fst snd calls_of sent omap app dataIs].
  unfold recognised in Hrec. cbn [existsb] in Hrec.
  destruct (String.eqb d "m_lang");
    [rewrite sent_answer_then by done; cbn; eauto|].
  destruct (String.eqb d "lang_en");
    [cbn [orb]; rewrite sent_modify_then, sent_answer_then by done;
     apply sent_showMenu|].
  destruct (String.eqb d "lang_zh");
    [cbn [orb]; rewrite sent_modify_then, sent_answer_then by done;
     apply sent_showMenu|].
  cbn [orb] in *.
  destruct (String.eqb d "m_filters");
    [rewrite sent_answer_then by done; apply sent_showPushFilters|].
  destruct (String.eqb d "pf_media");
    [rewrite sent_modify_then, sent_answer_then by done;
     apply sent_showPushFilters|].
  destruct (String.eqb d "pf_mc_set");
    [rewrite sent_answer_then by done; cbn; eauto|].
  destruct (String.eqb d "pf_mc_clear");
    [rewrite sent_modify_then, sent_answer_then by done;
     apply sent_showPushFilters|].
  destruct (String.eqb d "pf_manage_alerts");
    [rewrite sent_answer_then by done; apply sent_showMarketCapAlerts|].
  destruct (String.eqb d "pf_back");
    [rewrite sent_answer_then by done; apply sent_showPushFilters|].
  destruct (String.eqb d "m_back");
    [rewrite sent_answer_then by done; apply sent_showMenu|].
  cbn [orb] in *.
  destruct (String.prefix "remove_alert_" d);
    [rewrite sent_modify_then, sent_answer_then by done;
     apply sent_showMarketCapAlerts|].
  destruct (String.eqb d "clear_all_alerts");
    [rewrite sent_modify_then, sent_answer_then by done;
     apply sent_showMarketCapAlerts|].
  destruct (String.eqb d "m_status");
    [rewrite sent_answer_then by done; rewrite sent_bind; cbn; eauto|].
  destruct (String.eqb d "m_analyze");
    [rewrite sent_answer_then by done; cbn; eauto|].
  done.
Qed.

(** X25: no button is dead: every button on every message a handler
    sends carries a [callback_data] the callback handler recognises, and
    pressing it (by whomever, in whatever state) makes that handler reply
    with exactly one message once the query is answered. *)
Theorem every_button_is_answered C u st m b :
  m ∈ sent (calls_of (handle C u st)) → b ∈ buttons m →
  recognised (callback_data b) = true
  ∧ ∀ C' id' st',
      (∀ a, answerCbQuery C' a = true) →
      ∃ m', sent (calls_of (onCallbackQuery C' id' (Some (callback_data b))
                              st')) = [m'].
Proof.
  intros Hm Hb.
  assert (Hrec : recognised (callback_data b) = true).
  { pose proof (wired_handle C u st) as Hw. unfold wired in Hw.
    rewrite Forall_forall in Hw. specialize (Hw m Hm).
    rewrite Forall_forall in Hw. by apply Hw. }
  split; [done|]. intros C' id' st' Hok. by apply recognised_replies.
Qed.

(** ** The screen of the alerts *)

Lemma userAlerts_fold id m found :
  fold_left (λ found entry,
               if JsSet.has id (users entry.2)
               then found ++ [(entry.1, lastPushed entry.2)] else found)
            m found
  = found ++ ((λ e, (e.1, lastPushed e.2)) <$> watched id m).
Proof.
  unfold watched. revert found.
  induction m as [|e m IH]; intros found; cbn [fold_left List.filter].
  - by rewrite app_nil_r.
  - rewrite IH. destruct (JsSet.has id (users e.2)); [|done].
    by rewrite fmap_cons, <- app_assoc.
Qed.

Lemma userAlerts_watched id m :
  userAlerts id m = (λ e, (e.1, lastPushed e.2)) <$> watched id m.
Proof. unfold userAlerts. by rewrite userAlerts_fold. Qed.

Lemma alertCount_fold id m count :
  fold_left (λ count entry,
               if JsSet.has id (users entry.2) then S count else count)
            m count
  = (count + length (watched id m))%nat.
Proof.
  unfold watched. revert count.
  induction m as [|e m IH]; intros count; cbn [fold_left List.filter].
  - simpl. lia.
  - rewrite IH. destruct (JsSet.has id (users e.2)); simpl; lia.
Qed.

Lemma removeButtons_data i found :
  callback_data <$> removeButtons i found
  = (λ a, "remove_alert_" +:+ a.1) <$> found.
Proof.
  revert i. induction found as [|a found IH]; intros i; [done|].
  cbn [removeButtons]. by rewrite !fmap_cons, IH.
Qed.

Lemma removeButtons_text i found :
  text <$> removeButtons i found
  = (λ k : nat, pretty k) <$> seq (S i) (length found).
Proof.
  revert i. induction found as [|a found IH]; intros i; [done|].
  cbn [removeButtons length seq]. by rewrite !fmap_cons, IH.
Qed.

Lemma watched_elem id m e :
  e ∈ watched id m ↔ e ∈ m ∧ id ∈ users e.2.
Proof.
  unfold watched. rewrite list_elem_of_In, filter_In, <- list_elem_of_In.
  cbn beta. by rewrite JsSet_has_true.
Qed.

Lemma alerts_screen_data C l id m :
  callback_data <$> buttons (alertsMessage C l (userAlerts id m))
  = ["pf_back"]
  ∨ callback_data <$> buttons (alertsMessage C l (userAlerts id m))
    = ((λ e, "remove_alert_" +:+ e.1) <$> take 5 (watched id m))
      ++ ["clear_all_alerts"; "pf_back"].
Proof.
  rewrite userAlerts_watched. unfold alertsMessage. rewrite length_fmap.
  destruct (watched id m) as [|e w] eqn:Hw; [left; by destruct l|right].
  set (n := length (e :: w)).
  assert (Hn : Nat.eqb n 0 = false) by done. rewrite Hn.
  cbn [buttons reply_markup].
  set (shown := take (Nat.min 5 n) ((λ e, (e.1, lastPushed e.2)) <$> e :: w)).
  assert (Hshown : shown = (λ e, (e.1, lastPushed e.2)) <$> take 5 (e :: w)).
  { subst shown. rewrite <- fmap_take. f_equal.
    destruct (Nat.min_spec 5 n) as [[? ->]|[? ->]]; [done|].
    subst n. by rewrite !take_ge by lia. }
  assert (Hpos : (0 <? length (removeButtons 0 shown))%nat = true).
  { rewrite <- (length_fmap callback_data), removeButtons_data, length_fmap,
      Hshown, length_fmap. by destruct w. }
  rewrite Hpos. cbn [app concat].
  rewrite fmap_app, removeButtons_data, Hshown, <- list_fmap_compose.
  by destruct l.
Qed.

(** X26: the three places that tell a user what they watch agree: the
    count of the filter and status screens is the number of tokens of the
    registry the user watches, the alerts screen lists those tokens in the
    order of the registry, and it offers a removal button, numbered from 1,
    for each of the first five of them, besides "clear all" and "back"
    (only "back" when the user watches nothing). *)
Theorem alerts_screen_offers_watched C l id m :
  let found := userAlerts id m in
  found = (λ e, (e.1, lastPushed e.2)) <$> watched id m
  ∧ alertCount id m = length (watched id m)
  ∧ callback_data <$> buttons (alertsMessage C l found)
    = match watched id m with
      | [] => ["pf_back"]
      | _ => ((λ e, "remove_alert_" +:+ e.1) <$> take 5 (watched id m))
             ++ ["clear_all_alerts"; "pf_back"]
      end
  ∧ text <$> take (Nat.min 5 (length (watched id m)))
                  (buttons (alertsMessage C l found))
    = (λ k : nat, pretty k) <$> seq 1 (Nat.min 5 (length (watched id m))).
Proof.
  intros found. subst found. rewrite userAlerts_watched.
  split; [done|]. split; [unfold alertCount; by rewrite alertCount_fold|].
  unfold alertsMessage. rewrite length_fmap.
  destruct (watched id m) as [|e w] eqn:Hw; [split; by destruct l|].
  set (n := length (e :: w)).
  assert (Hn : Nat.eqb n 0 = false) by done. rewrite Hn.
  cbn [buttons reply_markup].
  set (shown := take (Nat.min 5 n) ((λ e, (e.1, lastPushed e.2)) <$> e :: w)).
  assert (Hshown : shown = (λ e, (e.1, lastPushed e.2)) <$> take 5 (e :: w)).
  { subst shown. rewrite <- fmap_take. f_equal.
    destruct (Nat.min_spec 5 n) as [[? ->]|[? ->]]; [done|].
    subst n. by rewrite !take_ge by lia. }
  assert (Hlen : length shown = Nat.min 5 n).
  { rewrite Hshown, length_fmap, length_take. done. }
  assert (Hpos : (0 <? length (removeButtons 0 shown))%nat = true).
  { rewrite <- (length_fmap callback_data), removeButtons_data, length_fmap,
      Hshown, length_fmap. by destruct w. }
  rewrite Hpos. cbn [app concat]. split.
  - rewrite fmap_app, removeButtons_data, Hshown, <- list_fmap_compose.
    by destruct l.
  - rewrite take_app_length'.
    + by rewrite removeButtons_text, Hlen.
    + rewrite <- (length_fmap callback_data), removeButtons_data, length_fmap.
      done.
Qed.

Lemma length_append (a b : string) :
  String.length (a +:+ b) = (String.length a + String.length b)%nat.
Proof.
  induction a as [|c a IH]; [done|].
  change (String c a +:+ b) with (String c (a +:+ b)). cbn [String.length].
  by rewrite IH.
Qed.

Lemma substring_all (s : string) : String.substring 0 (String.length s) s = s.
Proof. induction s as [|c s IH]; [done|]. cbn. by rewrite IH. Qed.

Lemma substring_append (p s : string) :
  String.substring (String.length p)
    (String.length (p +:+ s) - String.length p) (p +:+ s) = s.
Proof.
  rewrite length_append.
  replace (String.length p + String.length s - String.length p)%nat
    with (String.length s) by lia.
  induction p as [|c p IH]; [apply substring_all|].
  change (String c p +:+ s) with (String c (p +:+ s)). cbn. exact IH.
Qed.

Lemma replace_prefix (p s : string) : replace p "" (p +:+ s) = s.
Proof.
  assert (Hunfold : ∀ x, replace p "" x =
    if String.prefix p x
    then "" +:+ String.substring (String.length p)
                  (String.length x - String.length p) x
    else match x with
         | EmptyString => EmptyString
         | String c r => String c (replace p "" r)
         end) by (by intros []).
  rewrite Hunfold, prefix_append. apply substring_append.
Qed.

Lemma eqb_remove_alert addr s :
  String.prefix "remove_alert_" s = false →
  String.eqb ("remove_alert_" +:+ addr) s = false.
Proof.
  intros Hp. apply String.eqb_neq. intros <-.
  by rewrite prefix_append in Hp.
Qed.

Lemma remove_alert_state C id addr st :
  state_of (onCallbackQuery C id (Some ("remove_alert_" +:+ addr)) st)
  = removeFromMarketCapAlerts addr id (getPrefs id st).2.
Proof.
  unfold onCallbackQuery. rewrite state_bind. unfold prefsOf.
  pose proof (getPrefs_some id st) as Hsome.
  destruct (getPrefs id st) as [prefs st1]. cbn [fst snd dataIs] in *.
  rewrite !eqb_remove_alert by done. cbn [orb].
  rewrite prefix_append, replace_prefix, modify_then_state.
  apply answer_then_state.
  apply (show_known_state showMarketCapAlerts);
    [apply showMarketCapAlerts_state|].
  by rewrite removeFromMarketCapAlerts_prefs.
Qed.

(** X27: a removal button does what it shows: each one on the alerts
    screen of a user carries the address of a token that user watches, and
    pressing it unenrols the user from exactly that token, whatever the
    replies do: the [callback_data] written by the screen is read back by
    the handler to the same address. *)
Theorem remove_button_round_trip C l id st b :
  b ∈ buttons (alertsMessage C l (userAlerts id (marketCapAlerts st))) →
  String.prefix "remove_alert_" (callback_data b) = true →
  ∃ addr d,
    (addr, d) ∈ marketCapAlerts st ∧ id ∈ users d
    ∧ callback_data b = "remove_alert_" +:+ addr
    ∧ ∀ C' st',
        state_of (onCallbackQuery C' id (Some (callback_data b)) st')
        = removeFromMarketCapAlerts addr id (getPrefs id st').2
        ∧ id ∉ watchers addr
                 (marketCapAlerts
                    (state_of (onCallbackQuery C' id
                                 (Some (callback_data b)) st'))).
Proof.
  intros Hb Hp.
  assert (Hdata : callback_data b
    ∈ (λ e, "remove_alert_" +:+ e.1) <$> watched id (marketCapAlerts st)).
  { apply (list_elem_of_fmap_2 callback_data) in Hb.
    destruct (alerts_screen_data C l id (marketCapAlerts st)) as [Hd|Hd];
      rewrite Hd in Hb.
    - apply list_elem_of_singleton in Hb. by rewrite Hb in Hp.
    - apply elem_of_app in Hb as [Hb|Hb].
      + apply list_elem_of_fmap in Hb as (e & -> & He%subseteq_take).
        apply list_elem_of_fmap. eauto.
      + apply elem_of_cons in Hb as [Hb|Hb%list_elem_of_singleton];
          by rewrite Hb in Hp. }
  apply list_elem_of_fmap in Hdata as ([addr d] & Hd & [Hin Hu]%watched_elem).
  cbn [fst snd] in *. exists addr, d. split_and!; try done.
  intros C' st'. rewrite Hd, remove_alert_state. split; [done|].
  rewrite removeFromMarketCapAlerts_body. rewrite watchers_body. tauto.
Qed.

(** X28: a callback query whose [data] the handler does not recognise is
    answered and nothing else happens; one without [data] is not even
    answered: the handler throws on [data.startsWith], after it has created
    the user's preferences. *)
Theorem unknown_data_is_only_answered C id st :
  (∀ d, recognised d = false →
        calls_of (onCallbackQuery C id (Some d) st) = [AnswerCbQuery None]
        ∧ state_of (onCallbackQuery C id (Some d) st) = (getPrefs id st).2)
  ∧ calls_of (onCallbackQuery C id None st) = []
  ∧ completed (onCallbackQuery C id None st) = false
  ∧ state_of (onCallbackQuery C id None st) = (getPrefs id st).2.
Proof.
  split.
  - intros d Hrec. unfold onCallbackQuery. rewrite calls_bind, state_bind.
    unfold prefsOf. destruct (getPrefs id st) as [prefs st1].
    cbn [fst snd calls_of app dataIs].
    unfold recognised in Hrec. cbn [existsb] in Hrec.
    rewrite !orb_false_iff in Hrec. destruct_and!.
    repeat match goal with H : _ = false |- _ => rewrite H; clear H end.
    done.
  - unfold onCallbackQuery, mbind, Handler_bind, prefsOf, completed, calls_of,
      state_of.
    by destruct (getPrefs id st) as [prefs st1].
Qed.

(** ** Tokens without a supply *)

Lemma binary_round_aux_sign m e l :
  notBelowZero (binary_round_aux Num.prec Num.emax false m e l) = true.
Proof.
  unfold binary_round_aux.
  destruct (shr_fexp _ _ m e l) as [mrs' e'].
  destruct (shr_fexp _ _ _ e' loc_Exact) as [mrs'' e''].
  destruct (shr_m mrs''); try done. by case_match.
Qed.

Lemma binary_normalize_sign q :
  0 ≤ q → notBelowZero (binary_normalize Num.prec Num.emax q 0 false) = true.
Proof.
  intros Hq. destruct q as [|q|q]; [done| |lia].
  unfold binary_normalize, binary_round.
  destruct (shl_align _ _ _) as [mz ez]. apply binary_round_aux_sign.
Qed.

Lemma floor_sign n :
  Num.isFinite n = true → Num.le n Num.zero = false →
  notBelowZero (Num.floor n) = true.
Proof.
  destruct n as [s|s| |s m e]; try done.
  intros _ Hle. destruct s; [done|].
  unfold Num.floor. destruct (0 <=? e); [done|].
  apply binary_normalize_sign, Z.shiftr_nonneg. lia.
Qed.

Lemma thresholds_ok_getPrefs id st :
  thresholds_ok st → thresholds_ok (getPrefs id st).2.
Proof.
  intros Hok u p t. unfold getPrefs.
  destruct (userPushPrefs st !! id) eqn:Hid; [apply Hok|].
  cbn [snd set_userPushPrefs userPushPrefs].
  destruct (decide (u = id)) as [->|Hne].
  - rewrite lookup_insert_eq. by intros [= <-].
  - rewrite lookup_insert_ne by done. apply Hok.
Qed.

Lemma thresholds_ok_putPrefs id p st :
  thresholds_ok st →
  (∀ t, mcUsdThreshold p = Some t → notBelowZero t = true) →
  thresholds_ok (putPrefs id p st).
Proof.
  intros Hok Hp u q t. unfold putPrefs.
  cbn [set_userPushPrefs userPushPrefs].
  destruct (decide (u = id)) as [->|Hne].
  - rewrite lookup_insert_eq. intros [= <-]. apply Hp.
  - rewrite lookup_insert_ne by done. apply Hok.
Qed.

Lemma thresholds_ok_same st st' :
  thresholds_ok st → userPushPrefs st' = userPushPrefs st → thresholds_ok st'.
Proof. intros Hok Hp u p t. rewrite Hp. apply Hok. Qed.

Lemma thresholds_ok_setLang id l st :
  thresholds_ok st → thresholds_ok (setLang id l st).
Proof.
  intros Hok. unfold setLang.
  pose proof (thresholds_ok_getPrefs id st Hok) as Hg.
  pose proof (getPrefs_lookup id st) as Hl.
  destruct (getPrefs id st) as [p st1]. cbn [fst snd] in *.
  apply thresholds_ok_putPrefs; [done|]. intros t Ht. by eapply Hg.
Qed.

Lemma thresholds_ok_notifyUser W now addr amount m uid st :
  thresholds_ok st → thresholds_ok (notifyUser W now addr amount m uid st).1.
Proof.
  intros Hok. unfold notifyUser.
  pose proof (thresholds_ok_getPrefs uid st Hok) as Hg.
  destruct (getPrefs uid st) as [prefs st1]. cbn [snd] in Hg.
  repeat case_match; cbn [fst]; try done.
  eapply thresholds_ok_same; [exact Hg|apply addToMarketCapAlerts_prefs].
Qed.

Lemma thresholds_ok_step r st : thresholds_ok st → thresholds_ok (step r st).1.
Proof.
  intros Hok.
  destruct r as [uid|uid|uid l|uid data|uid n now|W bn now|W now];
    cbn [step fst].
  - apply thresholds_ok_getPrefs. by eapply thresholds_ok_same.
  - by apply thresholds_ok_getPrefs.
  - by apply thresholds_ok_setLang.
  - unfold onCallback. pose proof (thresholds_ok_getPrefs uid st Hok) as Hg.
    pose proof (getPrefs_lookup uid st) as Hl.
    destruct (getPrefs uid st) as [prefs st1]. cbn [fst snd] in *.
    destruct data;
      [by apply thresholds_ok_setLang|by apply thresholds_ok_setLang
      | | | | |done].
    + apply thresholds_ok_putPrefs; [done|]. intros t Ht. by eapply Hg.
    + by apply thresholds_ok_putPrefs.
    + eapply thresholds_ok_same; [exact Hg|].
      apply removeFromMarketCapAlerts_prefs.
    + by eapply thresholds_ok_same.
  - unfold onReply. pose proof (thresholds_ok_getPrefs uid st Hok) as Hg.
    destruct (getPrefs uid st) as [prefs st1]. cbn [fst snd] in *.
    destruct (Num.isFinite n) eqn:Hfin; [|done].
    destruct (Num.le n Num.zero) eqn:Hle; [done|]. cbn [negb orb].
    set (st2 := putPrefs uid _ st1).
    pose proof (for_each_state (λ s, userPushPrefs s = userPushPrefs st2)
      (enrolExisting uid now) (marketCapAlerts st2) st2) as Hloop.
    destruct (for_each _ _ st2) as [st3 added]. cbn [fst] in *.
    eapply (thresholds_ok_same st2).
    + apply thresholds_ok_putPrefs; [done|].
      intros t [= <-]. by apply floor_sign.
    + apply Hloop; [|done]. intros x s _ <-. apply enrolExisting_prefs.
  - unfold onBlock.
    set (st0 := if lastProcessed st =? 0 then set_lastProcessed (bn - 1) st
                else st).
    assert (H0 : thresholds_ok st0) by (subst st0; by case_match).
    case_match; [exact H0|].
    destruct (getLogs W _ bn) as [logs|]; [|exact H0].
    pose proof (for_each_state thresholds_ok (processLog W now) logs st0) as Hl.
    destruct (for_each _ logs st0) as [st1 t]. cbn [fst] in *.
    apply Hl; [|done]. intros log s _ Hs. unfold processLog.
    destruct log as [addr amount|]; [|done]. case_bool_decide; [done|].
    set (s1 := set_sentKeys _ s).
    pose proof (for_each_state thresholds_ok
      (notifyUser W now addr amount (enrich W addr)) (subscribedUsers s1) s1)
      as Hn.
    destruct (for_each _ _ s1) as [s2 t2]. apply Hn; [|done].
    intros uid s' _. apply thresholds_ok_notifyUser.
  - unfold checkMarketCapAlerts. case_match; [done|].
    set (st1 := set_lastMcCheck now st).
    pose proof (for_each_state thresholds_ok (checkToken W)
                  (marketCapAlerts st1) st1) as Hl.
    destruct (for_each _ _ st1) as [st2 t]. apply Hl; [|done].
    intros [k d] s _ Hs. unfold checkToken. case_match; [|done].
    apply (for_each_state thresholds_ok); [|done].
    intros u s' _ Hs'. unfold alertUser.
    pose proof (thresholds_ok_getPrefs u s' Hs') as Hg.
    destruct (getPrefs u s') as [prefs s1]. by repeat case_match.
Qed.

Lemma thresholds_ok_run rs : thresholds_ok (run rs initial).1.
Proof.
  unfold run. apply (for_each_state thresholds_ok).
  - intros r s _. apply thresholds_ok_step.
  - intros u p t Hu. cbn in Hu. by rewrite lookup_empty in Hu.
Qed.

Lemma scaled_zero d : Num.scaled 0 d = S754_zero false.
Proof.
  unfold Num.scaled, Num.exact.
  destruct (10 ^ d)%N eqn:Hp; [|done].
  by apply N.pow_nonzero in Hp.
Qed.

Lemma ge_nothing mc threshold :
  (mc = S754_nan ∨ ∃ s, mc = S754_zero s) →
  Num.truthy threshold = true → notBelowZero threshold = true →
  Num.ge mc threshold = false.
Proof.
  intros [->|[s ->]] Htr Hnn; destruct threshold as [|[]| |[] ? ?]; done.
Qed.

Lemma mul_zero price :
  Num.mul (S754_zero false) price = S754_nan
  ∨ ∃ s, Num.mul (S754_zero false) price = S754_zero s.
Proof. destruct price; cbn; eauto. Qed.

(** X29: in a state the program reaches, a token whose total supply cannot
    be read, or is zero, triggers no alert: its market cap comes out as
    zero (or as no number), which no stored threshold is at or below. *)
Theorem no_alert_without_supply (rs : list Request) W now k :
  totalSupply W k = None ∨ totalSupply W k = Some 0%N →
  ∀ u mc text ok,
    Alert u k mc text ok ∉ (checkMarketCapAlerts W now (run rs initial).1).2.
Proof.
  intros Hsupply u mc text ok Hin.
  pose proof (check_due W now (run rs initial).1) as Hdue.
  rewrite Forall_forall in Hdue. apply Hdue in Hin.
  destruct Hin as (_ & Hmc & prefs & threshold & Hp & Ht & Htr & Hge & _).
  pose proof (thresholds_ok_run rs u prefs threshold Hp Ht) as Hnn.
  assert (Hzero : mc = S754_nan ∨ ∃ s, mc = S754_zero s).
  { unfold tokenMarketCap in Hmc.
    destruct (priceInWOKB W k) as [[price|]|]; try done.
    destruct (Num.truthy price); [|done].
    unfold marketCapUSD, Num.of_units in Hmc.
    replace (default 0%N (totalSupply W k)) with 0%N in Hmc
      by (by destruct Hsupply as [-> | ->]).
    destruct (80 <? _)%N; [done|]. injection Hmc as <-.
    rewrite scaled_zero. apply mul_zero. }
  by rewrite (ge_nothing mc threshold Hzero Htr Hnn) in Hge.
Qed.


End Program.

(** * Worked examples *)

(** Two block signals whose fetched ranges both hold the same deployment,
    twice each: Alice is notified once, and the second cycle's copy is
    skipped because its key is recorded. *)
Lemma dedup_at_most_once_witness :
  let rs := [start alice; block feed 100 0; block feed 101 0] in
  deliveries alice TOKEN 5 (run plain rs initial).2 = 1%nat
  ∧ enrichments TOKEN 5 (run plain rs initial).2 = 1%nat
  ∧ key_first (run plain rs initial).2
  ∧ processLog plain feed 0 (Deployed TOKEN 5) (run plain rs initial).1
    = ((run plain rs initial).1, []).
Proof.
  intros rs.
  destruct (dedup_at_most_once plain rs) as (Hfirst & Hskip & Hone & Hen).
  split_and!.
  - by vm_compute.
  - by vm_compute.
  - exact Hfirst.
  - apply Hskip. by vm_compute.
Defined.

(** The first block signal arrives while the log source is down: the cursor
    has moved from 0 to 99 although the query failed. *)
Lemma cursor_unchanged_on_failed_query_fails :
  ¬ (∀ W bn now st,
       getLogs W (cursor bn st + 1) bn = None →
       lastProcessed (onBlock plain W bn now st).1 = lastProcessed st).
Proof.
  intros Hclaim. specialize (Hclaim offline 100 0 initial eq_refl).
  vm_compute in Hclaim. discriminate.
Qed.

(** The same first signal through the amended statement: the cursor stays at
    99, where the cycle put it before the query, and a later signal at 101
    asks for the range from 100 again; with the source up and no log in
    range the cursor reaches the signalled height. *)
Lemma block_cursor_witness :
  cursor 100 initial + 1 ≤ 100
  ∧ getLogs offline 100 100 = None
  ∧ lastProcessed (onBlock plain offline 100 0 initial).1 = 99
  ∧ (∃ t, (onBlock plain quiet 101 0 (onBlock plain offline 100 0 initial).1).2
          = GetLogs 100 101 :: t)
  ∧ lastProcessed (onBlock plain quiet 100 0 initial).1 = 100.
Proof.
  assert (Hrange : cursor 100 initial + 1 ≤ 100) by (vm_compute; discriminate).
  destruct (block_cursor plain offline 100 0 initial Hrange) as [Hfail _].
  destruct (Hfail eq_refl) as (Hc & _ & Hretry).
  destruct (block_cursor plain quiet 100 0 initial Hrange) as [_ Hok].
  split_and!; [done|done|exact Hc| |exact (Hok [] eq_refl)].
  apply (Hretry ltac:(done) quiet 101 0). vm_compute. discriminate.
Defined.

(** A token of 81 decimals in the pool of the worked example: the
    reference asset is in slot 0, no reserve is zero and the supply is
    10000 tokens, yet no market cap is computed: the conversion of the
    supply throws and the token is skipped. *)
Lemma market_cap_of_every_token_fails :
  ¬ (∀ W tokenAddr reserve0 reserve1 t0 t1 supply dec,
       getReserves W tokenAddr = Some (reserve0, reserve1) →
       token0 W tokenAddr = Some t0 →
       token1 W tokenAddr = Some t1 →
       totalSupply W tokenAddr = Some supply →
       decimals W tokenAddr = Some dec →
       Str.toLowerCase t0 = Str.toLowerCase WOKB_ADDR →
       reserve0 ≠ 0%N → reserve1 ≠ 0%N →
       tokenMarketCap W tokenAddr
       = Some (Num.mul (Num.scaled supply dec)
                 (Num.div (Num.of_ether reserve0) (Num.of_ether reserve1)))).
Proof.
  intros Hclaim.
  specialize (Hclaim (marketOf (10000 * 10 ^ 81) 81) TOKEN 1000%N 500%N
                "0xE538905CF8410324E03A5A23C1C177A474D59B2B" TOKEN
                (10000 * 10 ^ 81)%N 81%N
                eq_refl eq_refl eq_refl eq_refl eq_refl).
  assert (Hnone : tokenMarketCap (marketOf (10000 * 10 ^ 81) 81) TOKEN = None)
    by (by vm_compute).
  rewrite Hnone in Hclaim. by discriminate Hclaim.
Qed.

(** The worked example of the specification, with the reference asset
    spelled in upper case in slot 0; the same supply of 10000 tokens
    expressed in 18 decimals; a supply of one tenth of a token, whose cap
    is the number nearest to 0.1, doubled; the supply of 10000 tokens in 80
    decimals, the most the conversion takes; and the token of 81
    decimals, which is skipped. *)
Lemma market_cap_formula_witness :
  (priceInWOKB market TOKEN = Some (Some (Num.of_Z 2))
   ∧ tokenMarketCap market TOKEN = Some (Num.of_Z 20000))
  ∧ (priceInWOKB (marketOf (10000 * 10 ^ 18) 18) TOKEN
     = Some (Some (Num.of_Z 2))
     ∧ tokenMarketCap (marketOf (10000 * 10 ^ 18) 18) TOKEN
       = Some (Num.of_Z 20000))
  ∧ tokenMarketCap (marketOf 1 1) TOKEN
    = Some (S754_finite false 7205759403792794 (-55))
  ∧ tokenMarketCap (marketOf (10000 * 10 ^ 80) 80) TOKEN
    = Some (Num.of_Z 20000)
  ∧ tokenMarketCap (marketOf (10000 * 10 ^ 81) 81) TOKEN = None.
Proof.
  assert (Href : Str.toLowerCase "0xE538905CF8410324E03A5A23C1C177A474D59B2B"
                 = Str.toLowerCase WOKB_ADDR) by (by vm_compute).
  split_and!.
  - apply (market_cap_formula plain market TOKEN 1000 500
             "0xE538905CF8410324E03A5A23C1C177A474D59B2B" TOKEN 10000 0
             eq_refl eq_refl eq_refl eq_refl eq_refl); try done.
  - apply (market_cap_formula plain market TOKEN 1000 500
             "0xE538905CF8410324E03A5A23C1C177A474D59B2B" TOKEN 10000 0
             eq_refl eq_refl eq_refl eq_refl eq_refl); try done.
  - apply (market_cap_formula plain (marketOf (10000 * 10 ^ 18) 18) TOKEN
             1000 500 "0xE538905CF8410324E03A5A23C1C177A474D59B2B" TOKEN
             (10000 * 10 ^ 18) 18
             eq_refl eq_refl eq_refl eq_refl eq_refl); try done.
  - apply (market_cap_formula plain (marketOf (10000 * 10 ^ 18) 18) TOKEN
             1000 500 "0xE538905CF8410324E03A5A23C1C177A474D59B2B" TOKEN
             (10000 * 10 ^ 18) 18
             eq_refl eq_refl eq_refl eq_refl eq_refl); try done.
  - destruct (market_cap_formula plain (marketOf 1 1) TOKEN
                1000 500 "0xE538905CF8410324E03A5A23C1C177A474D59B2B" TOKEN
                1 1 eq_refl eq_refl eq_refl eq_refl eq_refl)
      as [Hslot0 _].
    destruct (Hslot0 Href ltac:(done)) as [_ ->]. by vm_compute.
  - apply (market_cap_formula plain (marketOf (10000 * 10 ^ 80) 80) TOKEN
             1000 500 "0xE538905CF8410324E03A5A23C1C177A474D59B2B" TOKEN
             (10000 * 10 ^ 80) 80
             eq_refl eq_refl eq_refl eq_refl eq_refl); try done.
  - apply (market_cap_formula plain (marketOf (10000 * 10 ^ 81) 81) TOKEN
             1000 500 "0xE538905CF8410324E03A5A23C1C177A474D59B2B" TOKEN
             (10000 * 10 ^ 81) 81
             eq_refl eq_refl eq_refl eq_refl eq_refl).
    right. right. right. done.
Defined.

(** Alice, with threshold 15000 on a market cap of 20000, is alerted in each
    of two checks five minutes apart, the supply being expressed without
    decimals in the first and in 18 decimals in the second. A check that
    finds the token with 81 decimals computes no market cap and alerts
    nobody. *)
Lemma alert_every_cycle_witness :
  let cs := [(market, 300000); (marketOf (10000 * 10 ^ 18) 18, 600000)] in
  spaced (lastMcCheck watching) cs
  ∧ (length (cycles plain cs watching) = 2%nat
     ∧ Forall (λ t, ∃ mc text ok, Alert alice TOKEN mc text ok ∈ t)
              (cycles plain cs watching))
  ∧ cycles plain [(marketOf (10000 * 10 ^ 81) 81, 300000)] watching
    = [[McCheck 300000]].
Proof.
  intros cs.
  assert (Hsp : spaced (lastMcCheck watching) cs)
    by (vm_compute; intuition discriminate).
  split; [exact Hsp|]. split; [|by vm_compute].
  apply (alert_every_cycle plain cs watching TOKEN (mkAlertData 0 [alice])
           alice (mkPrefs false (Some (Num.of_Z 15000)) en) (Num.of_Z 15000));
    try done.
  - apply list_elem_of_here.
  - repeat constructor; exists (Num.of_Z 20000); by vm_compute.
Defined.

(** A real check at 300000 ms followed by two early invocations. *)
Lemma mc_check_throttle_witness :
  let later := [(market, 300001); (market, 599999)] in
  MC_CHECK_INTERVAL ≤ 300000 - lastMcCheck watching
  ∧ Forall (λ c, c.2 - 300000 < MC_CHECK_INTERVAL) later
  ∧ realChecks
      (run plain (mc_timer market 300000
                    :: map (λ c, mc_timer c.1 c.2) later) watching).2
    = 1%nat.
Proof.
  intros later.
  assert (H1 : MC_CHECK_INTERVAL ≤ 300000 - lastMcCheck watching)
    by (vm_compute; discriminate).
  assert (H2 : Forall (λ c, c.2 - 300000 < MC_CHECK_INTERVAL) later)
    by (repeat constructor).
  split_and!; [done|done|].
  exact (proj2 (mc_check_throttle plain market 300000 watching later H1 H2)).
Defined.

(** Alice turns the media requirement on. A token whose three link reads
    all fail is not sent to her; the token of [feed], which has a website,
    is sent once. *)
Lemma media_link_filter_witness :
  let rs := [start alice; callback_query alice pf_media] in
  let st := (run plain rs initial).1 in
  deliveries alice TOKEN 5 (processLog plain offline 0 (Deployed TOKEN 5) st).2
    = 0%nat
  ∧ deliveries alice TOKEN 5 (processLog plain feed 0 (Deployed TOKEN 5) st).2
    = 1%nat.
Proof.
  intros rs st.
  assert (Hfresh : dedupKey TOKEN 5 ∉ sentKeys st) by (by vm_compute).
  assert (Hin : alice ∈ subscribedUsers st) by (vm_compute; left).
  assert (Hp : userPushPrefs st !! alice = Some (mkPrefs true None en))
    by (by vm_compute).
  split.
  - apply (media_link_filter plain rs offline 0 TOKEN 5 alice
             (mkPrefs true None en) Hfresh Hin Hp eq_refl).
    by vm_compute.
  - apply (media_link_filter plain rs feed 0 TOKEN 5 alice
             (mkPrefs true None en) Hfresh Hin Hp eq_refl).
    left. by vm_compute.
Defined.

(** The telegram read of [feed] fails while its twitter read returns the
    empty string: both fields are shown as unset, so the failed field is not
    the only one. *)
Lemma only_failed_field_unset_fails :
  ¬ (∀ W addr f0,
       fetched W addr f0 = None →
       (∀ f, f ≠ f0 → is_Some (fetched W addr f)) →
       ∀ f, f ≠ f0 →
            fetched W addr f = Some (shown (enrich W addr) f)
            ∧ shown (enrich W addr) f ≠ unset).
Proof.
  intros Hclaim.
  assert (Hothers : ∀ f, f ≠ f_telegram → is_Some (fetched feed TOKEN f)).
  { intros f Hf. destruct f; try done; by eexists. }
  destruct (Hclaim feed TOKEN f_telegram eq_refl Hothers f_twitter
              ltac:(done)) as [Hshown _].
  vm_compute in Hshown. discriminate.
Qed.

(** The fields of [feed]'s token: the failed telegram read and the empty
    twitter handle show as unset, the website shows as read, and each is on
    its line of the notice. *)
Lemma enrichment_per_field_witness :
  shown (enrich feed TOKEN) f_telegram = unset
  ∧ shown (enrich feed TOKEN) f_website = "https://pump.example"
  ∧ shown (enrich feed TOKEN) f_decimals = "18"
  ∧ shown (enrich feed TOKEN) f_twitter = unset
  ∧ "Website: https://pump.example"
      ∈ deployedLines plain en TOKEN 5 (enrich feed TOKEN).
Proof.
  destruct (enrichment_per_field plain feed TOKEN f_telegram)
    as (Hfailed & _ & _ & _).
  destruct (enrichment_per_field plain feed TOKEN f_website)
    as (_ & Hvalue & _ & Hline).
  destruct (enrichment_per_field plain feed TOKEN f_decimals)
    as (_ & Hdecimals & _ & _).
  destruct (enrichment_per_field plain feed TOKEN f_twitter)
    as (_ & _ & Hblank & _).
  split_and!.
  - by apply Hfailed.
  - apply Hvalue; [done|]. right. by split.
  - apply Hdecimals; [done|]. by left.
  - by apply (Hblank "").
  - exact (Hline en 5%N).
Defined.

(** Alice is the only watcher of the token; once she is unenrolled the
    registry has no entry for it. *)
Lemma alert_registry_invariant_witness :
  alert_invariant (marketCapAlerts watching)
  ∧ watchers TOKEN (marketCapAlerts watching) = [alice]
  ∧ JsMap.has TOKEN
      (marketCapAlerts (removeFromMarketCapAlerts TOKEN alice watching))
    = false
  ∧ alert_invariant
      (marketCapAlerts (removeFromMarketCapAlerts TOKEN alice watching)).
Proof.
  destruct (alert_registry_invariant plain) as (_ & Hkeep & Hlast).
  assert (Hinv : alert_invariant (marketCapAlerts watching)).
  { apply alert_invariant_get. intros k d. simpl.
    case_decide; [|done]. by intros [= <-]. }
  split_and!; [done|done|by apply Hlast|].
  by apply (Hkeep watching TOKEN alice 0).
Defined.

(** Bob sets a threshold of 15000 while the registry holds the token Alice
    watches: he becomes its second watcher. *)
Lemma threshold_enrols_everywhere_witness :
  Num.isFinite (Num.of_Z 15000) = true
  ∧ Num.le (Num.of_Z 15000) Num.zero = false
  ∧ watchers TOKEN
      (marketCapAlerts (onReply plain bob (Num.of_Z 15000) 7 watching).1)
    = [alice; bob].
Proof.
  split_and!; [done|done|].
  destruct (threshold_enrols_everywhere plain bob (Num.of_Z 15000) 7 watching
              eq_refl eq_refl) as [Henrol _].
  destruct (Henrol TOKEN eq_refl) as [-> _]. by vm_compute.
Defined.

(** Two activations whose ranges overlap: the second signal arrives while
    the first [getLogs] is pending, so both ask from block 100 and both are
    answered with the same deployment. Alice is notified once. The
    activation of the first signal finishes last here and leaves the cursor
    at its own height, 100. *)
Lemma interleaved_overlap_example :
  let os := [request (start alice);
             request (block feed 100 0); request (block feed 101 0);
             settle 0 feed 0; settle 0 feed 0; settle 0 feed 0;
             settle 0 feed 0; settle 0 feed 0; settle 0 feed 0;
             settle 0 feed 0] in
  List.filter (λ e, match e with GetLogs _ _ => true | _ => false end)
              (interleave plain os (mkSystem initial [])).2
  = [GetLogs 100 100; GetLogs 100 101]
  ∧ deliveries alice TOKEN 5 (interleave plain os (mkSystem initial [])).2
    = 1%nat
  ∧ enrichments TOKEN 5 (interleave plain os (mkSystem initial [])).2
    = 1%nat
  ∧ pending (interleave plain os (mkSystem initial [])).1 = []
  ∧ lastProcessed (store (interleave plain os (mkSystem initial [])).1) = 100.
Proof. by vm_compute. Qed.

(** A signal for a height already scanned. *)
Lemma onBlock_no_rescan_witness :
  let st := (onBlock plain quiet 100 0 initial).1 in
  lastProcessed st = 100 ∧ onBlock plain feed 100 0 st = (st, []).
Proof.
  intros st. split; [done|].
  apply (onBlock_no_rescan plain feed 100 0 st); by vm_compute.
Defined.

(** Alice and Bob are subscribed and the send to Alice throws: Bob is still
    sent the notice, once. *)
Lemma fanout_isolated_witness :
  let rs := [start alice; start bob] in
  let W := mkWorld (getLogs feed) (description feed) (website feed)
             (telegram feed) (twitter feed) (symbol feed) (decimals feed)
             (totalSupply feed) (getReserves feed) (token0 feed) (token1 feed)
             (λ uid _, negb (uid =? alice)) in
  deliveries bob TOKEN 5
    (processLog plain W 0 (Deployed TOKEN 5) (run plain rs initial).1).2
  = 1%nat.
Proof.
  intros rs W.
  apply (fanout_isolated plain rs W 0 TOKEN 5 bob defaultPrefs).
  - by vm_compute.
  - vm_compute. right. left.
  - by vm_compute.
Defined.

(** Alice holds a threshold of 15000; her reply "-3" is rejected and the
    threshold stays. *)
Lemma onReply_rejected_thresholds_witness :
  userPushPrefs (onReply plain alice (Num.of_Z (-3)) 7 watching).1 !! alice
    ≫= mcUsdThreshold
  = Some (Num.of_Z 15000).
Proof.
  rewrite (onReply_rejected_thresholds plain alice (Num.of_Z (-3)) 7 watching
             alice); [done|by right].
Defined.

(** The keys of two events whose printed forms run close. *)
Lemma dedupKey_inj_witness :
  dedupKey "0xA" 15 ≠ dedupKey "0xA:1" 5.
Proof. by apply dedupKey_inj. Defined.


(** ** Worked instances of the further properties *)

(** The feed reports the same deployment twice; after that batch, a batch
    that reports it once more does nothing. *)
Lemma batch_replay_is_noop_witness :
  let logs := [Deployed TOKEN 5; Deployed TOKEN 5] in
  let st := (for_each (processLog plain feed 0) logs armed).1 in
  for_each (processLog plain quiet 9) [Deployed TOKEN 5] st = (st, []).
Proof.
  intros logs st.
  apply (batch_replay_is_noop plain feed 0 quiet 9 logs [Deployed TOKEN 5]
           armed).
  intros addr amount ->%list_elem_of_singleton. left.
Defined.

(** Two block signals, at heights 100 and 101. *)
Lemma cursor_never_moves_back_witness :
  let rs1 := [start alice; block quiet 100 0] in
  let rs2 := [block quiet 101 0] in
  0 ≤ lastProcessed (run plain rs1 initial).1
    ≤ lastProcessed (run plain (rs1 ++ rs2) initial).1.
Proof.
  intros rs1 rs2. apply (cursor_never_moves_back plain rs1 rs2).
  subst rs1 rs2. cbn [app].
  repeat (apply Forall_cons; split); [..|by apply Forall_nil];
    cbn; intros bn Hb; try done; injection Hb as <-; lia.
Defined.

(** The pool of the worked example and the same pool with its two slots
    exchanged. *)
Lemma price_slot_symmetry_witness :
  priceInWOKB (mirrored market) TOKEN = priceInWOKB market TOKEN
  ∧ tokenMarketCap (mirrored market) TOKEN = tokenMarketCap market TOKEN.
Proof.
  apply (price_slot_symmetry market TOKEN).
  intros t0 t1 [= <-] [= <-]. by vm_compute.
Defined.

(** Bob toggles his media requirement: Alice's preferences stay. *)
Lemma prefs_changed_by_owner_only_witness :
  userPushPrefs (step plain (callback_query bob pf_media) watching).1 !! alice
  = Some (mkPrefs false (Some (Num.of_Z 15000)) en).
Proof.
  apply (prefs_changed_by_owner_only plain (callback_query bob pf_media)
           watching alice); [by vm_compute|].
  cbn. by intros [=].
Defined.

(** Bob's threshold reply enrols him on the token Alice watches; the
    entry keeps its creation time. *)
Lemma lastPushed_is_creation_time_witness :
  let d' := mkAlertData 0 [alice; bob] in
  JsMap.get TOKEN
    (marketCapAlerts (step plain (reply_message bob (Num.of_Z 5) 99)
                        watching).1) = Some d'
  ∧ lastPushed d' = lastPushed (mkAlertData 0 [alice]).
Proof.
  intros d'. split; [by vm_compute|].
  apply (lastPushed_is_creation_time plain
           (reply_message bob (Num.of_Z 5) 99) watching TOKEN);
    by vm_compute.
Defined.

(** Alice holds a threshold and the deployment is new: she watches the
    token after the fan-out. *)
Lemma fanout_enrols_witness :
  alice ∈ watchers TOKEN
            (marketCapAlerts
               (processLog plain market 0 (Deployed TOKEN 5) armed).1).
Proof.
  apply (fanout_enrols plain market 0 TOKEN 5 armed TOKEN alice).
  - by vm_compute.
  - right. split; [done|]. split; [|by vm_compute].
    vm_compute. left.
Defined.

(** [/lang ZH] chooses Chinese, with or without more words after it. *)
Lemma lang_command_argument_witness :
  langOf "/lang" = en
  ∧ langOf "/lang ZH" = zh
  ∧ langOf "/lang ZH please" = zh
  ∧ lang <$> userPushPrefs (state_of (onLang "pump_bot" chat alice "/lang ZH"
                                        initial)) !! alice = Some zh.
Proof.
  destruct (lang_command_argument "pump_bot" chat alice "/lang" "ZH" "please"
              initial) as (H1 & H2 & H3 & H4); [done..|].
  split; [exact H1|]. split; [exact H2|]. split; [|exact H4].
  by apply H3.
Defined.

(** The first button of the menu that [/start] shows. *)
Lemma every_button_is_answered_witness :
  let b := mkButton "🔍 Analyze" "m_analyze" in
  recognised (callback_data b) = true
  ∧ ∀ C' id' st',
      (∀ a, answerCbQuery C' a = true) →
      ∃ m', sent (calls_of (onCallbackQuery plain "pump_bot" C' id'
                              (Some (callback_data b)) st')) = [m'].
Proof.
  intros b.
  apply (every_button_is_answered plain "pump_bot" chat (start_command alice)
           initial
           (mkMessage (menuText "pump_bot" en alice) false
              (inline_keyboard (menuKeyboard en)))).
  - vm_compute. left.
  - vm_compute. left.
Defined.

(** The button [1] of Alice's alerts screen removes the token she
    watches. *)
Lemma remove_button_round_trip_witness :
  let b := mkButton "1" ("remove_alert_" +:+ TOKEN) in
  ∃ addr d,
    (addr, d) ∈ marketCapAlerts watching
    ∧ alice ∈ users d
    ∧ callback_data b = "remove_alert_" +:+ addr
    ∧ ∀ C' st',
        state_of (onCallbackQuery plain "pump_bot" C' alice
                    (Some (callback_data b)) st')
        = removeFromMarketCapAlerts addr alice (getPrefs alice st').2
        ∧ alice ∉ watchers addr
                    (marketCapAlerts
                       (state_of (onCallbackQuery plain "pump_bot" C' alice
                                    (Some (callback_data b)) st'))).
Proof.
  intros b.
  apply (remove_button_round_trip plain "pump_bot" chat en alice watching b).
  - vm_compute. left.
  - by vm_compute.
Defined.

(** Alice sets a threshold of 1 and is then notified of the token, which
    enrols her; at the check the pool of the worked example answers but
    the supply read fails: she gets no alert. *)
Lemma no_alert_without_supply_witness :
  let rs := [start alice; reply_message alice (Num.of_Z 1) 0;
             block feed 100 0] in
  let W := mkWorld (getLogs market) (description market) (website market)
             (telegram market) (twitter market) (symbol market)
             (decimals market) (λ _, None) (getReserves market)
             (token0 market) (token1 market) (sendMessage market) in
  alice ∈ watchers TOKEN (marketCapAlerts (run plain rs initial).1)
  ∧ ¬ ∃ u mc text ok,
        Alert u TOKEN mc text ok
        ∈ (checkMarketCapAlerts plain W 300000 (run plain rs initial).1).2.
Proof.
  intros rs W. split; [vm_compute; left|].
  intros (u & mc & text & ok & H).
  apply (no_alert_without_supply plain rs W 300000 TOKEN (or_introl eq_refl)
           u mc text ok H).
Defined.
